(** * ngcccbase: deterministic wallet addresses and the UTXO fetcher

    A shallow embedding of [ngcccbase/deterministic.py] and
    [ngcccbase/utxo_fetcher.py], with the properties of the design
    document stated and proved over it.

    Conventions.
    - Python objects that are mutated in place are threaded explicitly:
      a method [f(self, x)] becomes [f x self] returning the new [self]
      next to its result.
    - Library code outside the repository (hashlib, hmac, pycoin) is a
      field of the class [Externals]; nothing is assumed about it
      except that it is a function.
    - Python integers are [Z], byte strings are [list byte], text is
      [string]. *)

From Stdlib Require Import ZArith Lia.
From Stdlib.Strings Require Import Ascii Byte.
From stdpp Require Import base option list list_numbers gmap sets strings pretty.

Local Open Scope Z_scope.

(** ** Exceptions and results *)

Inductive Exn : Type :=
| AssertionError
| IndexError
| TypeError
| KeyError (key : string)
| Exception (msg : string)
| BackendError (msg : string).

#[global] Instance Exn_eq_dec : EqDecision Exn.
Proof. solve_decision. Defined.

Inductive Result (A : Type) : Type :=
| Ok (a : A)
| Raise (e : Exn).
Arguments Ok {A} a.
Arguments Raise {A} e.

(** ** External collaborators *)

Class Externals : Type := {
  (** the digest behind [ColorSet.get_hash_string] *)
  hash_canonical_descriptor : list string -> list byte;
  (** [hmac.new(key, msg, hashlib.sha256).digest()] *)
  hmac_sha256 : string -> string -> list byte;
  (** [(BasePoint * k).pair()] on secp256k1 *)
  BasePoint_mul : Z -> Z * Z;
  (** [pycoin.encoding.public_pair_to_bitcoin_address(pair, compressed, address_prefix)] *)
  public_pair_to_bitcoin_address : Z * Z -> bool -> string -> string;
  (** the [addressprefix] that [AddressRecord.__init__] picks for a network *)
  addressprefix_of : bool -> string;
  (** [os.urandom(64).encode('hex')] *)
  urandom_hex : string;
  (** the address string of a [LooseAddressRecord] built from
      [address_data] on the given network *)
  loose_address_of : bool -> string -> string
}.

(** ** Color sets ([coloredcoinlib.ColorSet]) *)

Record ColorMap : Type := { resolve_color_desc : string -> Z }.

Record ColorSet : Type := {
  color_desc_list : list string;
  color_id_set : gset Z
}.

(** Modelled from the spec: [ColorSet.__init__] lives in coloredcoinlib,
    which is not among the sources.  A color-set descriptor is a
    "serializable list identifying a set of colors"; the color ids are
    what the color map resolves the descriptors to. *)
Definition ColorSet_init (colormap : ColorMap) (descs : list string) : ColorSet :=
  {| color_desc_list := descs;
     color_id_set := list_to_set (resolve_color_desc colormap <$> descs) |}.

Definition get_data (cs : ColorSet) : list string := color_desc_list cs.

(** Modelled from the spec: [ColorSet.equals] (coloredcoinlib);
    "equality is semantic (same set of color ids), not structural
    identity". *)
Definition equals (a b : ColorSet) : bool :=
  bool_decide (color_id_set a = color_id_set b).

(** Modelled from the spec: [ColorSet.intersects] (coloredcoinlib);
    two color sets intersect when they "share at least one color id". *)
Definition intersects (a b : ColorSet) : bool :=
  bool_decide (color_id_set a ∩ color_id_set b ≠ ∅).

(** A color set is well formed for a color map when its ids are the
    ones the map gives to its descriptors, that is, when it was built
    by [ColorSet_init] with that map. *)
Definition well_formed (colormap : ColorMap) (cs : ColorSet) : Prop :=
  cs = ColorSet_init colormap (color_desc_list cs).

Definition hex_digit (n : N) : ascii :=
  match n with
  | 0 => "0" | 1 => "1" | 2 => "2" | 3 => "3" | 4 => "4" | 5 => "5"
  | 6 => "6" | 7 => "7" | 8 => "8" | 9 => "9" | 10 => "a" | 11 => "b"
  | 12 => "c" | 13 => "d" | 14 => "e" | _ => "f"
  end%N%char.

Fixpoint hexdigest (digest : list byte) : string :=
  match digest with
  | [] => EmptyString
  | b :: rest =>
      String (hex_digit (Byte.to_N b / 16))
        (String (hex_digit (Byte.to_N b mod 16)) (hexdigest rest))
  end.

Section Derivation.
Context `{!Externals}.

(** Modelled from the spec: [ColorSet.get_hash_string] (coloredcoinlib)
    is "a stable hash string computed from a color set's canonical
    descriptor": the hexadecimal rendering of a digest of the
    descriptor list. *)
Definition get_hash_string (cs : ColorSet) : string :=
  hexdigest (hash_canonical_descriptor (color_desc_list cs)).

(** *** [DeterministicAddressRecord] *)

(** The [hmac] object keeps its key and message; [digest()] does not
    change it. *)
Record HMAC : Type := { hmac_key : string; hmac_msg : string }.

Definition hmac_digest (h : HMAC) : list byte :=
  hmac_sha256 (hmac_key h) (hmac_msg h).

Record DeterministicAddressRecord : Type := {
  color_set : ColorSet;
  testnet : bool;
  addressprefix : string;
  index : Z;
  hmac : HMAC;
  _rawPrivKey : option Z;
  _publicPoint : option (Z * Z);
  _address : option string
}.

Definition set_color_set (cs : ColorSet) (r : DeterministicAddressRecord) :=
  {| color_set := cs; testnet := testnet r; addressprefix := addressprefix r;
     index := index r; hmac := hmac r; _rawPrivKey := _rawPrivKey r;
     _publicPoint := _publicPoint r; _address := _address r |}.
Definition set_index (i : Z) (r : DeterministicAddressRecord) :=
  {| color_set := color_set r; testnet := testnet r; addressprefix := addressprefix r;
     index := i; hmac := hmac r; _rawPrivKey := _rawPrivKey r;
     _publicPoint := _publicPoint r; _address := _address r |}.
Definition set_rawPrivKey (v : Z) (r : DeterministicAddressRecord) :=
  {| color_set := color_set r; testnet := testnet r; addressprefix := addressprefix r;
     index := index r; hmac := hmac r; _rawPrivKey := Some v;
     _publicPoint := _publicPoint r; _address := _address r |}.
Definition set_publicPoint (v : Z * Z) (r : DeterministicAddressRecord) :=
  {| color_set := color_set r; testnet := testnet r; addressprefix := addressprefix r;
     index := index r; hmac := hmac r; _rawPrivKey := _rawPrivKey r;
     _publicPoint := Some v; _address := _address r |}.
Definition set_address (v : string) (r : DeterministicAddressRecord) :=
  {| color_set := color_set r; testnet := testnet r; addressprefix := addressprefix r;
     index := index r; hmac := hmac r; _rawPrivKey := _rawPrivKey r;
     _publicPoint := _publicPoint r; _address := Some v |}.

(** The scope tag of [__init__]: [color_string]. *)
Definition color_string (cs : ColorSet) : string :=
  if bool_decide (length (get_data cs) = 0%nat) then "genesis block"
  else get_hash_string cs.

(** ["%s|%s" % (color_string, self.index)] *)
Definition hmac_message (cs : ColorSet) (i : Z) : string :=
  color_string cs +:+ "|" +:+ pretty i.

(** [DeterministicAddressRecord(master_key=, color_set=, index=, testnet=)] *)
Definition DeterministicAddressRecord_init
    (master_key : string) (cs : ColorSet) (i : Z) (tn : bool)
  : DeterministicAddressRecord :=
  {| color_set := cs; testnet := tn; addressprefix := addressprefix_of tn;
     index := i;
     hmac := {| hmac_key := master_key; hmac_msg := hmac_message cs i |};
     _rawPrivKey := None; _publicPoint := None; _address := None |}.

(** [pycoin.encoding.from_bytes_32]: the big-endian integer of a byte
    string. *)
Definition from_bytes_32 (bs : list byte) : Z :=
  fold_left (fun acc b => acc * 256 + Z.of_N (Byte.to_N b)) bs 0.

(** The three memoized properties.  Each returns its value and the
    record with the cache filled. *)
Definition rawPrivKey (self : DeterministicAddressRecord)
  : Z * DeterministicAddressRecord :=
  match _rawPrivKey self with
  | None =>
      let v := from_bytes_32 (hmac_digest (hmac self)) in
      (v, set_rawPrivKey v self)
  | Some v => (v, self)
  end.

Definition publicPoint (self : DeterministicAddressRecord)
  : (Z * Z) * DeterministicAddressRecord :=
  match _publicPoint self with
  | None =>
      let '(k, self) := rawPrivKey self in
      let p := BasePoint_mul k in
      (p, set_publicPoint p self)
  | Some p => (p, self)
  end.

Definition address (self : DeterministicAddressRecord)
  : string * DeterministicAddressRecord :=
  match _address self with
  | None =>
      let '(p, self) := publicPoint self in
      let a := public_pair_to_bitcoin_address p false (addressprefix self) in
      (a, set_address a self)
  | Some a => (a, self)
  end.

(** The same three values computed eagerly from the constructor's
    arguments, without any cache. *)
Definition derive_scalar (master_key : string) (cs : ColorSet) (i : Z) : Z :=
  from_bytes_32 (hmac_sha256 master_key (hmac_message cs i)).
Definition derive_point (master_key : string) (cs : ColorSet) (i : Z) : Z * Z :=
  BasePoint_mul (derive_scalar master_key cs i).
Definition derive_address (master_key : string) (cs : ColorSet) (i : Z) (tn : bool)
  : string :=
  public_pair_to_bitcoin_address (derive_point master_key cs i) false
    (addressprefix_of tn).

(** Reading a property: which one, and what comes back. *)
Inductive Property : Type := PRawPrivKey | PPublicPoint | PAddress.
Inductive Value : Type :=
| VScalar (k : Z)
| VPoint (p : Z * Z)
| VAddress (a : string).

Definition read (p : Property) (self : DeterministicAddressRecord)
  : Value * DeterministicAddressRecord :=
  match p with
  | PRawPrivKey => let '(v, s) := rawPrivKey self in (VScalar v, s)
  | PPublicPoint => let '(v, s) := publicPoint self in (VPoint v, s)
  | PAddress => let '(v, s) := address self in (VAddress v, s)
  end.

Definition eager (master_key : string) (cs : ColorSet) (i : Z) (tn : bool)
    (p : Property) : Value :=
  match p with
  | PRawPrivKey => VScalar (derive_scalar master_key cs i)
  | PPublicPoint => VPoint (derive_point master_key cs i)
  | PAddress => VAddress (derive_address master_key cs i tn)
  end.

(** The record after a sequence of property reads. *)
Definition after_reads (ps : list Property) (self : DeterministicAddressRecord)
  : DeterministicAddressRecord :=
  fold_left (fun s p => snd (read p s)) ps self.

End Derivation.

(** ** The address manager ([DWalletAddressManager]) *)

(** One entry of [color_set_states]: the dict
    [{"color_set": ..., "max_index": ...}]. *)
Record ColorSetState : Type := {
  st_color_set : list string;
  max_index : Z
}.

(** The value stored under the key ["dwam"]. *)
Record DwamParams : Type := {
  p_genesis_color_sets : list (list string);
  p_color_set_states : list ColorSetState
}.

(** One entry of the configuration's ["addresses"] list: the keyword
    arguments of a loose address. *)
Record LooseParams : Type := {
  lp_address_data : string;
  lp_color_set : list string
}.

(** The [color_set] entry of the keyword arguments of a loose address:
    the descriptor list that the configuration holds, or the [ColorSet]
    object that [add_loose_address] puts in its place. *)
Inductive ColorSetArg : Type :=
| DescList (descs : list string)
| ColorSetObject (cs : ColorSet).

(** The dict [addr_params] that [add_loose_address] is given and writes
    into. *)
Record AddrParams : Type := {
  ap_address_data : string;
  ap_color_set : ColorSetArg;
  ap_testnet : option bool
}.

Definition set_ap_testnet (tn : bool) (p : AddrParams) : AddrParams :=
  {| ap_address_data := ap_address_data p; ap_color_set := ap_color_set p;
     ap_testnet := Some tn |}.
Definition set_ap_color_set (cs : ColorSet) (p : AddrParams) : AddrParams :=
  {| ap_address_data := ap_address_data p; ap_color_set := ColorSetObject cs;
     ap_testnet := ap_testnet p |}.

(** The configuration, restricted to the four keys the manager reads or
    writes.  It is the persisted document: what is read from it is a
    value, and only [config[key] = value] changes it.  The dicts of
    its ['addresses'] list reach [add_loose_address] as objects
    ([AddrParams]), which that method writes into: a configuration that
    deserialises on access hands out new ones each time, a plain dict
    hands out its own. *)
Record Config : Type := {
  cfg_testnet : option bool;
  cfg_dwam : option DwamParams;
  cfg_dw_master_key : option string;
  cfg_addresses : option (list LooseParams)
}.

Definition set_cfg_dwam (p : DwamParams) (c : Config) : Config :=
  {| cfg_testnet := cfg_testnet c; cfg_dwam := Some p;
     cfg_dw_master_key := cfg_dw_master_key c; cfg_addresses := cfg_addresses c |}.
Definition set_cfg_dw_master_key (k : string) (c : Config) : Config :=
  {| cfg_testnet := cfg_testnet c; cfg_dwam := cfg_dwam c;
     cfg_dw_master_key := Some k; cfg_addresses := cfg_addresses c |}.

(** [asset.AssetDefinition], as far as [get_new_address] uses it. *)
Record AssetDefinition : Type := { get_color_set_of_asset : ColorSet }.

Inductive AssetOrColorSet : Type :=
| AnAsset (asset : AssetDefinition)
| AColorSet (cs : ColorSet).

(** An entry of the document's ['addresses'] list as a dict. *)
Definition as_addr_params (p : LooseParams) : AddrParams :=
  {| ap_address_data := lp_address_data p; ap_color_set := DescList (lp_color_set p);
     ap_testnet := None |}.

(** [config.get('addresses', [])] on a configuration that hands out
    the entries of its document as new dicts. *)
Definition config_get_addresses (config : Config) : list AddrParams :=
  as_addr_params <$> default [] (cfg_addresses config).

(** Modelled from the spec: [ColorSet.__init__] (coloredcoinlib) takes
    a color-set descriptor, a "serializable list identifying a set of
    colors".  A [ColorSet] object is not such a list: the constructor
    cannot go through it and Python raises [TypeError]. *)
Definition ColorSet_of_arg (colormap : ColorMap) (arg : ColorSetArg) : Result ColorSet :=
  match arg with
  | DescList descs => Ok (ColorSet_init colormap descs)
  | ColorSetObject _ => Raise TypeError
  end.

(** Python's [xs[i] = v] on a list: negative indices count from the
    end, anything outside raises [IndexError]. *)
Definition list_setitem {A} (xs : list A) (i : Z) (v : A) : option (list A) :=
  let n := Z.of_nat (length xs) in
  if bool_decide (0 <= i < n) then Some (<[Z.to_nat i := v]> xs)
  else if bool_decide (- n <= i < 0) then Some (<[Z.to_nat (n + i) := v]> xs)
  else None.

Section Manager.
Context `{!Externals}.

(** Modelled from the spec: [LooseAddressRecord] ([address.py]) is not
    among the sources; it is "externally supplied key material wrapped
    into the same record shape". *)
Record LooseAddressRecord : Type := {
  loose_color_set : ColorSet;
  loose_testnet : bool;
  loose_address_data : string
}.

Inductive AddressRecord : Type :=
| Deterministic (r : DeterministicAddressRecord)
| Loose (r : LooseAddressRecord).

Definition get_color_set (a : AddressRecord) : ColorSet :=
  match a with
  | Deterministic r => color_set r
  | Loose r => loose_color_set r
  end.

(** [AddressRecord.get_address]: the record's address string. *)
Definition get_address (a : AddressRecord) : string :=
  match a with
  | Deterministic r => fst (address r)
  | Loose r => loose_address_of (loose_testnet r) (loose_address_data r)
  end.

(** [self.addresses] is a Python set of record objects, hashed by
    identity: adding a newly built record always adds a member.  It is
    kept as the list of its members in the order they were added; a
    record object is referred to by its position. *)
Record DWalletAddressManager : Type := {
  config : Config;
  m_testnet : bool;
  colormap : ColorMap;
  addresses : list AddressRecord;
  master_key : string;
  genesis_color_sets : list (list string);
  color_set_states : list ColorSetState
}.

Definition set_config (c : Config) (m : DWalletAddressManager) :=
  {| config := c; m_testnet := m_testnet m; colormap := colormap m;
     addresses := addresses m; master_key := master_key m;
     genesis_color_sets := genesis_color_sets m;
     color_set_states := color_set_states m |}.
Definition set_addresses (l : list AddressRecord) (m : DWalletAddressManager) :=
  {| config := config m; m_testnet := m_testnet m; colormap := colormap m;
     addresses := l; master_key := master_key m;
     genesis_color_sets := genesis_color_sets m;
     color_set_states := color_set_states m |}.
Definition set_genesis_color_sets (g : list (list string)) (m : DWalletAddressManager) :=
  {| config := config m; m_testnet := m_testnet m; colormap := colormap m;
     addresses := addresses m; master_key := master_key m;
     genesis_color_sets := g;
     color_set_states := color_set_states m |}.
Definition set_color_set_states (s : list ColorSetState) (m : DWalletAddressManager) :=
  {| config := config m; m_testnet := m_testnet m; colormap := colormap m;
     addresses := addresses m; master_key := master_key m;
     genesis_color_sets := genesis_color_sets m;
     color_set_states := s |}.

(** [self.addresses.add(a)] for a newly built record [a]. *)
Definition addresses_add (a : AddressRecord) (self : DWalletAddressManager) :=
  set_addresses (addresses self ++ [a]) self.

Definition update_config (self : DWalletAddressManager) : DWalletAddressManager :=
  let dwam_params :=
    {| p_genesis_color_sets := genesis_color_sets self;
       p_color_set_states := color_set_states self |} in
  set_config (set_cfg_dwam dwam_params (config self)) self.

Definition init_new_wallet (config : Config) : DwamParams * Config :=
  let config :=
    match cfg_dw_master_key config with
    | None => set_cfg_dw_master_key urandom_hex config
    | Some _ => config
    end in
  let dwam_params := {| p_genesis_color_sets := []; p_color_set_states := [] |} in
  (dwam_params, set_cfg_dwam dwam_params config).

Definition get_genesis_address (genesis_index : Z) (self : DWalletAddressManager)
  : DeterministicAddressRecord :=
  DeterministicAddressRecord_init (master_key self)
    (ColorSet_init (colormap self) []) genesis_index (m_testnet self).

Definition _import_genesis_addresses (self : DWalletAddressManager)
  : DWalletAddressManager :=
  foldl (fun self '(i, color_desc_list) =>
           let addr := get_genesis_address (Z.of_nat i) self in
           let addr := set_color_set (ColorSet_init (colormap self) color_desc_list) addr in
           addresses_add (Deterministic addr) self)
        self (imap pair (genesis_color_sets self)).

Definition _import_specific_color_addresses (self : DWalletAddressManager)
  : DWalletAddressManager :=
  foldl (fun self color_set_st =>
           let color_desc_list := st_color_set color_set_st in
           let max_index := max_index color_set_st in
           let color_set := ColorSet_init (colormap self) color_desc_list in
           foldl (fun self index =>
                    addresses_add
                      (Deterministic
                         (DeterministicAddressRecord_init (master_key self)
                            color_set index (m_testnet self)))
                      self)
                 self (seqZ 0 (max_index + 1)))
        self (color_set_states self).

(** [LooseAddressRecord] built from the keyword arguments
    [addr_params], once they hold the network flag and the color
    set. *)
Definition LooseAddressRecord_init (address_data : string) (cs : ColorSet) (tn : bool)
  : LooseAddressRecord :=
  {| loose_color_set := cs; loose_testnet := tn; loose_address_data := address_data |}.

(** [add_loose_address(addr_params)].  The two assignments write into
    the dict that was passed: it comes back as the call leaves it, next
    to the result.  When [ColorSet(...)] raises, the first assignment
    has been made. *)
Definition add_loose_address (addr_params : AddrParams) (self : DWalletAddressManager)
  : Result AddressRecord * AddrParams * DWalletAddressManager :=
  let addr_params := set_ap_testnet (m_testnet self) addr_params in
  match ColorSet_of_arg (colormap self) (ap_color_set addr_params) with
  | Raise e => (Raise e, addr_params, self)
  | Ok color_set =>
      let addr_params := set_ap_color_set color_set addr_params in
      let address :=
        Loose (LooseAddressRecord_init (ap_address_data addr_params) color_set
                 (m_testnet self)) in
      (Ok address, addr_params, addresses_add address self)
  end.

(** [_import_one_off_addresses_from_config]:
    [map(self.add_loose_address, entries)], where [entries] is what
    [self.config.get('addresses', [])] hands out.  The calls are made
    in list order and an exception ends them; the entries come back as
    the calls leave them. *)
Fixpoint _import_one_off_addresses_from_config (entries : list AddrParams)
    (self : DWalletAddressManager)
  : Result unit * list AddrParams * DWalletAddressManager :=
  match entries with
  | [] => (Ok tt, [], self)
  | addr_params :: entries =>
      match add_loose_address addr_params self with
      | (Ok _, addr_params, self) =>
          let '(r, entries, self) := _import_one_off_addresses_from_config entries self in
          (r, addr_params :: entries, self)
      | (Raise e, addr_params, self) => (Raise e, addr_params :: entries, self)
      end
  end.

(** [DWalletAddressManager(colormap, config)], with the dicts that
    [config.get('addresses', [])] hands out given as [entries].  Next
    to the result come the configuration and the entries as the
    constructor leaves them, also when it raises. *)
Definition DWalletAddressManager_init_with (colormap : ColorMap) (config : Config)
    (entries : list AddrParams)
  : Result DWalletAddressManager * Config * list AddrParams :=
  let testnet := default false (cfg_testnet config) in
  let '(params, config) :=
    match cfg_dwam config with
    | None => init_new_wallet config
    | Some params => (params, config)
    end in
  match cfg_dw_master_key config with
  | None => (Raise (KeyError "dw_master_key"), config, entries)
  | Some master_key =>
      let self :=
        {| config := config; m_testnet := testnet; colormap := colormap;
           addresses := []; master_key := master_key;
           genesis_color_sets := p_genesis_color_sets params;
           color_set_states := p_color_set_states params |} in
      let self := _import_genesis_addresses self in
      let self := _import_specific_color_addresses self in
      match _import_one_off_addresses_from_config entries self with
      | (Ok _, entries, self) => (Ok self, config, entries)
      | (Raise e, entries, _) => (Raise e, config, entries)
      end
  end.

(** [DWalletAddressManager(colormap, config)] on a configuration that
    hands out the entries of its document. *)
Definition DWalletAddressManager_init (colormap : ColorMap) (config : Config)
  : Result DWalletAddressManager :=
  (DWalletAddressManager_init_with colormap config (config_get_addresses config)).1.1.

(** The loop of [increment_max_index_for_color_set] over the counter
    list: [Some] when a counter matched and was incremented. *)
Fixpoint increment_states (colormap : ColorMap) (states : list ColorSetState)
    (color_set : ColorSet) : option (Z * list ColorSetState) :=
  match states with
  | [] => None
  | color_set_st :: rest =>
      let color_desc_list := st_color_set color_set_st in
      let max_index := max_index color_set_st in
      let cur_color_set := ColorSet_init colormap color_desc_list in
      if equals cur_color_set color_set then
        let max_index := max_index + 1 in
        Some (max_index,
              {| st_color_set := color_desc_list; max_index := max_index |} :: rest)
      else
        match increment_states colormap rest color_set with
        | Some (i, rest') => Some (i, color_set_st :: rest')
        | None => None
        end
  end.

Definition increment_max_index_for_color_set (color_set : ColorSet)
    (self : DWalletAddressManager) : Z * DWalletAddressManager :=
  match increment_states (colormap self) (color_set_states self) color_set with
  | Some (max_index, states) => (max_index, set_color_set_states states self)
  | None =>
      (0, set_color_set_states
            (color_set_states self ++
               [{| st_color_set := get_data color_set; max_index := 0 |}])
            self)
  end.

Definition get_new_address (asset_or_color_set : AssetOrColorSet)
    (self : DWalletAddressManager)
  : DeterministicAddressRecord * DWalletAddressManager :=
  let color_set :=
    match asset_or_color_set with
    | AnAsset asset => get_color_set_of_asset asset
    | AColorSet cs => cs
    end in
  let '(index, self) := increment_max_index_for_color_set color_set self in
  let na := DeterministicAddressRecord_init (master_key self) color_set index
              (m_testnet self) in
  let self := addresses_add (Deterministic na) self in
  let self := update_config self in
  (na, self).

Definition get_new_genesis_address (self : DWalletAddressManager)
  : DeterministicAddressRecord * DWalletAddressManager :=
  let index := Z.of_nat (length (genesis_color_sets self)) in
  let self := set_genesis_color_sets (genesis_color_sets self ++ [[]]) self in
  let self := update_config self in
  let address := get_genesis_address index self in
  let address := set_index index address in
  let self := addresses_add (Deterministic address) self in
  (address, self).

(** [address.color_set = color_set] on a record of either class. *)
Definition rebind_color_set (cs : ColorSet) (a : AddressRecord) : AddressRecord :=
  match a with
  | Deterministic r => Deterministic (set_color_set cs r)
  | Loose r =>
      Loose {| loose_color_set := cs; loose_testnet := loose_testnet r;
               loose_address_data := loose_address_data r |}
  end.

Definition is_colorless (address : DeterministicAddressRecord) : bool :=
  bool_decide (color_id_set (color_set address) = ∅).

(** [update_genesis_address(address, color_set)].  [address] is the
    record object and [ref] the position at which [self.addresses]
    holds it (a position past the end stands for an object the
    manager does not hold).  The assignment to [address.color_set]
    comes before the list assignment, so it stays when the latter
    raises.  The result carries the object after the call. *)
Definition update_genesis_address (ref : nat) (address : DeterministicAddressRecord)
    (color_set : ColorSet) (self : DWalletAddressManager)
  : Result unit * DeterministicAddressRecord * DWalletAddressManager :=
  if is_colorless address then
    let address := set_color_set color_set address in
    let self := set_addresses (<[ref := Deterministic address]> (addresses self)) self in
    match list_setitem (genesis_color_sets self) (index address) (get_data color_set) with
    | None => (Raise IndexError, address, self)
    | Some g => (Ok tt, address, update_config (set_genesis_color_sets g self))
    end
  else (Raise AssertionError, address, self).

Definition get_addresses_for_color_set (color_set : ColorSet)
    (self : DWalletAddressManager) : list AddressRecord :=
  filter (fun addr => intersects color_set (get_color_set addr) = true)
         (addresses self).

Definition get_some_address (color_set : ColorSet) (self : DWalletAddressManager)
  : AddressRecord * DWalletAddressManager :=
  let acs := get_addresses_for_color_set color_set self in
  match acs with
  | a :: _ => (a, self)
  | [] =>
      let '(na, self) := get_new_address (AColorSet color_set) self in
      (Deterministic na, self)
  end.

Definition get_change_address (color_set : ColorSet) (self : DWalletAddressManager)
  : AddressRecord * DWalletAddressManager :=
  get_some_address color_set self.

Definition get_all_addresses (self : DWalletAddressManager) : list AddressRecord :=
  addresses self.

(** The loop of [find_address_record] over [list(self.addresses)]. *)
Fixpoint find_address_record_loop (address : string) (records : list AddressRecord)
  : option AddressRecord :=
  match records with
  | [] => None
  | address_rec :: rest =>
      if bool_decide (get_address address_rec = address) then Some address_rec
      else find_address_record_loop address rest
  end.

Definition find_address_record (address : string) (self : DWalletAddressManager)
  : option AddressRecord :=
  find_address_record_loop address (addresses self).

End Manager.

(** ** Backend selection ([BaseUTXOFetcher.make_interface]) *)

(** Values found in the [params] dictionary. *)
Inductive PyVal : Type :=
| PNone
| PStr (s : string)
| PInt (z : Z).

#[global] Instance PyVal_eq_dec : EqDecision PyVal.
Proof. solve_decision. Defined.

(** The backend objects the factory builds, with the arguments given to
    their constructors. *)
Inductive Interface : Type :=
| ChromanodeInterface (baseurl : option string) (testnet : bool)
| HelloBlockInterface (testnet : bool)
| BlockchainInfoInterface
| AbeInterface
| ElectrumInterface (server port : PyVal).

Definition DEFAULT_ELECTRUM_SERVER : string := "btc.it-zone.org".
Definition DEFAULT_ELECTRUM_PORT : Z := 50001.

Definition make_interface (model_testnet : bool) (params : gmap string PyVal)
  : Result Interface :=
  let use := default (PStr "chromanode") (params !! "interface") in
  let use :=
    if model_testnet then
      if bool_decide (use ∈ [PStr "chromanode"; PStr "helloblock"; PStr "abe_testnet"])
      then use else PStr "chromanode"
    else use in
  if bool_decide (use = PStr "chromanode") then
    Ok (ChromanodeInterface None model_testnet)
  else if bool_decide (use = PStr "helloblock") then
    Ok (HelloBlockInterface model_testnet)
  else if bool_decide (use = PStr "blockchain.info") then
    Ok BlockchainInfoInterface
  else if bool_decide (use = PStr "abe_testnet") then
    Ok AbeInterface
  else if bool_decide (use = PStr "electrum") then
    let electrum_server :=
      default (PStr DEFAULT_ELECTRUM_SERVER) (params !! "electrum_server") in
    let electrum_port :=
      default (PInt DEFAULT_ELECTRUM_PORT) (params !! "electrum_port") in
    Ok (ElectrumInterface electrum_server electrum_port)
  else Raise (Exception "Unknown service for UTXOFetcher!").

(** The names the factory knows, and the ones it keeps on testnet. *)
Definition known_backends : list string :=
  ["chromanode"; "helloblock"; "blockchain.info"; "abe_testnet"; "electrum"].
Definition testnet_backends : list string :=
  ["chromanode"; "helloblock"; "abe_testnet"].

(** ** The background fetcher ([AsyncUTXOFetcher], [ServerUTXOFetcher]) *)

(** Where the worker thread stands in [thread_loop]. *)
Inductive WorkerPc : Type :=
| WStart                                   (* with self.lock: self.running = True *)
| WLoop                                    (* while self.is_running(): *)
| WSnapshot                                (* with self.lock: address_list = self.address_list[:] *)
| WFor (rest : list string)                (* for address in address_list: if not self.is_running(): return *)
| WScan (address : string) (rest : list string)   (* self.scan_address(address) *)
| WExcept (e : Exn)                        (* except Exception as e: print e *)
| WUpdate                                  (* self.update()   (ServerUTXOFetcher) *)
| WWait                                    (* self.stop_evt.wait(self.sleep_time) *)
| WExited.                                 (* thread_loop has returned *)

(** Where the caller of [stop()] stands. *)
Inductive StopPc : Type :=
| SIdle                                    (* stop() not called yet *)
| SLocked                                  (* the with-block is done *)
| SSignalled                               (* self.stop_evt.set() is done; at self.thread.join() *)
| SReturned                                (* stop() has returned *)
| SRaised.                                 (* self.thread is None: join raised *)

(** Where a caller of [update()] stands. *)
Inductive UpdatePc : Type :=
| URefresh                                 (* with self.lock: self.address_list = [...] *)
| UEmpty (any_got_updates : bool)          (* while not self.hash_queue.empty(): *)
| UGet (any_got_updates : bool)            (* txhash = self.hash_queue.get() *)
| UFeed (txhash : string) (any_got_updates : bool)
                                           (* got_updates = ...add_tx_by_hash(txhash); any_got_updates = ... *)
| UReturned (any_got_updates : bool).      (* return any_got_updates *)

(** A call on the backend object. *)
Inductive BackendCall : Type :=
| CallGetUtxo (address : string)
| CallDisconnect.

Section Fetcher.
Context `{!Externals}.
(** The backend object and the transaction store are collaborators
    with a state of their own. *)
Context {Backend TxDb : Type}.
Variable get_utxo : string -> Backend -> Result (list string) * Backend.
Variable disconnect : Backend -> Backend.
Variable add_tx_by_hash : string -> TxDb -> bool * TxDb.

Record Model : Type := {
  model_testnet : bool;
  address_manager : DWalletAddressManager;
  tx_db : TxDb
}.

(** The fetcher object.  [self_draining] tells the class:
    [ServerUTXOFetcher] when set, [AsyncUTXOFetcher] otherwise.
    [thread] is [None] until [start_thread], then the worker's
    position.  The last four fields are not in the source: they
    record the calls made on the backend, what was printed, what was
    fed to the store with its answer, and the progress of [stop()]. *)
Record AsyncUTXOFetcher : Type := {
  self_draining : bool;
  interface : Backend;
  model : Model;
  hash_queue : list string;
  address_list : list string;
  running : bool;
  stop_evt : bool;
  thread : option WorkerPc;
  backend_calls : list BackendCall;
  printed : list Exn;
  ingested : list (string * bool);
  stopper : StopPc
}.

Definition set_interface (i : Backend) (c : BackendCall) (s : AsyncUTXOFetcher) :=
  {| self_draining := self_draining s; interface := i; model := model s;
     hash_queue := hash_queue s; address_list := address_list s;
     running := running s; stop_evt := stop_evt s; thread := thread s;
     backend_calls := backend_calls s ++ [c]; printed := printed s;
     ingested := ingested s; stopper := stopper s |}.
Definition set_model (m : Model) (s : AsyncUTXOFetcher) :=
  {| self_draining := self_draining s; interface := interface s; model := m;
     hash_queue := hash_queue s; address_list := address_list s;
     running := running s; stop_evt := stop_evt s; thread := thread s;
     backend_calls := backend_calls s; printed := printed s;
     ingested := ingested s; stopper := stopper s |}.
Definition set_hash_queue (q : list string) (s : AsyncUTXOFetcher) :=
  {| self_draining := self_draining s; interface := interface s; model := model s;
     hash_queue := q; address_list := address_list s;
     running := running s; stop_evt := stop_evt s; thread := thread s;
     backend_calls := backend_calls s; printed := printed s;
     ingested := ingested s; stopper := stopper s |}.
Definition set_address_list (l : list string) (s : AsyncUTXOFetcher) :=
  {| self_draining := self_draining s; interface := interface s; model := model s;
     hash_queue := hash_queue s; address_list := l;
     running := running s; stop_evt := stop_evt s; thread := thread s;
     backend_calls := backend_calls s; printed := printed s;
     ingested := ingested s; stopper := stopper s |}.
Definition set_running (b : bool) (s : AsyncUTXOFetcher) :=
  {| self_draining := self_draining s; interface := interface s; model := model s;
     hash_queue := hash_queue s; address_list := address_list s;
     running := b; stop_evt := stop_evt s; thread := thread s;
     backend_calls := backend_calls s; printed := printed s;
     ingested := ingested s; stopper := stopper s |}.
Definition set_stop_evt (b : bool) (s : AsyncUTXOFetcher) :=
  {| self_draining := self_draining s; interface := interface s; model := model s;
     hash_queue := hash_queue s; address_list := address_list s;
     running := running s; stop_evt := b; thread := thread s;
     backend_calls := backend_calls s; printed := printed s;
     ingested := ingested s; stopper := stopper s |}.
Definition set_thread (t : option WorkerPc) (s : AsyncUTXOFetcher) :=
  {| self_draining := self_draining s; interface := interface s; model := model s;
     hash_queue := hash_queue s; address_list := address_list s;
     running := running s; stop_evt := stop_evt s; thread := t;
     backend_calls := backend_calls s; printed := printed s;
     ingested := ingested s; stopper := stopper s |}.
Definition print (e : Exn) (s : AsyncUTXOFetcher) :=
  {| self_draining := self_draining s; interface := interface s; model := model s;
     hash_queue := hash_queue s; address_list := address_list s;
     running := running s; stop_evt := stop_evt s; thread := thread s;
     backend_calls := backend_calls s; printed := printed s ++ [e];
     ingested := ingested s; stopper := stopper s |}.
Definition record_ingested (txhash : string) (got : bool) (s : AsyncUTXOFetcher) :=
  {| self_draining := self_draining s; interface := interface s; model := model s;
     hash_queue := hash_queue s; address_list := address_list s;
     running := running s; stop_evt := stop_evt s; thread := thread s;
     backend_calls := backend_calls s; printed := printed s;
     ingested := ingested s ++ [(txhash, got)]; stopper := stopper s |}.
Definition set_stopper (p : StopPc) (s : AsyncUTXOFetcher) :=
  {| self_draining := self_draining s; interface := interface s; model := model s;
     hash_queue := hash_queue s; address_list := address_list s;
     running := running s; stop_evt := stop_evt s; thread := thread s;
     backend_calls := backend_calls s; printed := printed s;
     ingested := ingested s; stopper := p |}.

(** [AsyncUTXOFetcher.__init__].  [connect] stands for the
    constructors of the backend classes: it turns the factory's choice
    into the backend object. *)
Definition AsyncUTXOFetcher_init (server : bool) (connect : Interface -> Backend)
    (model : Model) (params : gmap string PyVal) : Result AsyncUTXOFetcher :=
  match make_interface (model_testnet model) params with
  | Raise e => Raise e
  | Ok interface =>
      Ok {| self_draining := server; interface := connect interface; model := model;
            hash_queue := []; address_list := []; running := false;
            stop_evt := false; thread := None;
            backend_calls := []; printed := []; ingested := []; stopper := SIdle |}
  end.

(** [self.model.get_tx_db().add_tx_by_hash(txhash)] *)
Definition model_add_tx_by_hash (txhash : string) (self : AsyncUTXOFetcher)
  : bool * AsyncUTXOFetcher :=
  let '(got_updates, db) := add_tx_by_hash txhash (tx_db (model self)) in
  (got_updates,
   record_ingested txhash got_updates
     (set_model {| model_testnet := model_testnet (model self);
                   address_manager := address_manager (model self);
                   tx_db := db |} self)).

(** The [while not self.hash_queue.empty()] loop of [update], on the
    queue content [queue]. *)
Fixpoint drain (queue : list string) (any_got_updates : bool) (self : AsyncUTXOFetcher)
  : bool * AsyncUTXOFetcher :=
  match queue with
  | [] => (any_got_updates, set_hash_queue [] self)
  | txhash :: queue =>
      let self := set_hash_queue queue self in
      let '(got_updates, self) := model_add_tx_by_hash txhash self in
      let any_got_updates := any_got_updates || got_updates in
      drain queue any_got_updates self
  end.

Definition update (self : AsyncUTXOFetcher) : bool * AsyncUTXOFetcher :=
  let wam := address_manager (model self) in
  let addressrecords := get_all_addresses wam in
  let self := set_address_list (get_address <$> addressrecords) self in
  let any_got_updates := false in
  drain (hash_queue self) any_got_updates self.

(** [add_utxo(address, txid)]: [self.hash_queue.put(txid)] *)
Definition add_utxo (address txid : string) (self : AsyncUTXOFetcher) :=
  set_hash_queue (hash_queue self ++ [txid]) self.

(** [scan_address(address)]: one call on the backend, then the hook on
    each id it returned. *)
Definition scan_address (address : string) (self : AsyncUTXOFetcher)
  : Result unit * AsyncUTXOFetcher :=
  let '(r, i) := get_utxo address (interface self) in
  let self := set_interface i (CallGetUtxo address) self in
  match r with
  | Ok txids => (Ok tt, foldl (fun self txid => add_utxo address txid self) self txids)
  | Raise e => (Raise e, self)
  end.

(** Where the worker goes when the [try] statement is left. *)
Definition after_try (self : AsyncUTXOFetcher) : WorkerPc :=
  if self_draining self then WUpdate else WWait.

(** One step of the worker thread in [thread_loop].  A [with
    self.lock] block is one step. *)
Definition worker_step (pc : WorkerPc) (self : AsyncUTXOFetcher)
  : WorkerPc * AsyncUTXOFetcher :=
  match pc with
  | WStart => (WLoop, set_running true self)
  | WLoop => if running self then (WSnapshot, self) else (WExited, self)
  | WSnapshot => (WFor (address_list self), self)
  | WFor [] => (after_try self, self)
  | WFor (address :: rest) =>
      if running self then (WScan address rest, self) else (WExited, self)
  | WScan address rest =>
      match scan_address address self with
      | (Ok _, self) => (WFor rest, self)
      | (Raise e, self) => (WExcept e, self)
      end
  | WExcept e => (after_try self, print e self)
  | WUpdate => (WWait, snd (update self))
  | WWait => (WLoop, self)
  | WExited => (WExited, self)
  end.

(** What can happen to the fetcher: the caller starts the worker,
    the worker takes a step, the caller of [stop()] takes a step,
    some thread calls [update()], or the wallet changes. *)
Inductive Event : Type :=
| EvStart
| EvWorker
| EvStop
| EvUpdate
| EvWallet (wam : DWalletAddressManager).

(** The same with [update()] taken step by step: an event of the other
    threads, a thread calling [update()], or the [k]-th caller taking
    a step. *)
Inductive ConcEvent : Type :=
| CEv (ev : Event)
| CCall
| CCaller (k : nat).

(** [None]: the event cannot happen in this state ([join] blocks
    while the worker runs; [start_thread] and [stop] are each called
    once). *)
Definition step (ev : Event) (self : AsyncUTXOFetcher) : option AsyncUTXOFetcher :=
  match ev with
  | EvStart =>
      match thread self with
      | None => Some (set_thread (Some WStart) self)
      | Some _ => None
      end
  | EvWorker =>
      match thread self with
      | None | Some WExited => None
      | Some pc =>
          let '(pc, self) := worker_step pc self in
          Some (set_thread (Some pc) self)
      end
  | EvStop =>
      match stopper self with
      | SIdle =>
          let self := set_interface (disconnect (interface self)) CallDisconnect self in
          let self := set_running false self in
          Some (set_stopper SLocked self)
      | SLocked => Some (set_stopper SSignalled (set_stop_evt true self))
      | SSignalled =>
          match thread self with
          | None => Some (set_stopper SRaised self)
          | Some WExited => Some (set_stopper SReturned self)
          | Some _ => None
          end
      | SReturned | SRaised => None
      end
  | EvUpdate => Some (snd (update self))
  | EvWallet wam =>
      Some (set_model {| model_testnet := model_testnet (model self);
                         address_manager := wam;
                         tx_db := tx_db (model self) |} self)
  end.

Fixpoint run (evs : list Event) (self : AsyncUTXOFetcher) : option AsyncUTXOFetcher :=
  match evs with
  | [] => Some self
  | ev :: evs =>
      match step ev self with
      | Some self => run evs self
      | None => None
      end
  end.

(** The worker running on its own for [n] steps. *)
Fixpoint worker_steps (n : nat) (pc : WorkerPc) (self : AsyncUTXOFetcher)
  : WorkerPc * AsyncUTXOFetcher :=
  match n with
  | O => (pc, self)
  | S n => let '(pc, self) := worker_step pc self in worker_steps n pc self
  end.

(** The [try] statement of [thread_loop] with the worker running on
    its own, from the [for] loop over [rest] to the point where the
    statement is left (or the thread returns). *)
Fixpoint try_block (rest : list string) (self : AsyncUTXOFetcher)
  : WorkerPc * AsyncUTXOFetcher :=
  match rest with
  | [] => (after_try self, self)
  | address :: rest =>
      if running self then
        match scan_address address self with
        | (Ok _, self) => try_block rest self
        | (Raise e, self) => (after_try self, print e self)
        end
      else (WExited, self)
  end.

(** One sweep: the snapshot of the address list, then the loop. *)
Definition sweep (self : AsyncUTXOFetcher) : WorkerPc * AsyncUTXOFetcher :=
  let address_list := address_list self in
  try_block address_list self.

(** *** [update()] step by step

    [update()] holds the lock for the refresh of the address list
    only: its loop over the queue runs without it, so steps of the
    worker and of other callers of [update()] can come in between. *)

(** One step of a caller of [update()]; [None] when it cannot move:
    [get()] blocks on an empty queue, and a call that has returned is
    over. *)
Definition update_step (pc : UpdatePc) (self : AsyncUTXOFetcher)
  : option (UpdatePc * AsyncUTXOFetcher) :=
  match pc with
  | URefresh =>
      let wam := address_manager (model self) in
      let addressrecords := get_all_addresses wam in
      Some (UEmpty false, set_address_list (get_address <$> addressrecords) self)
  | UEmpty any_got_updates =>
      match hash_queue self with
      | [] => Some (UReturned any_got_updates, self)
      | _ :: _ => Some (UGet any_got_updates, self)
      end
  | UGet any_got_updates =>
      match hash_queue self with
      | [] => None
      | txhash :: queue => Some (UFeed txhash any_got_updates, set_hash_queue queue self)
      end
  | UFeed txhash any_got_updates =>
      let '(got_updates, self) := model_add_tx_by_hash txhash self in
      Some (UEmpty (any_got_updates || got_updates), self)
  | UReturned _ => None
  end.

(** A caller of [update()] running on its own for [n] steps. *)
Fixpoint update_steps (n : nat) (pc : UpdatePc) (self : AsyncUTXOFetcher)
  : option (UpdatePc * AsyncUTXOFetcher) :=
  match n with
  | O => Some (pc, self)
  | S n =>
      match update_step pc self with
      | Some (pc, self) => update_steps n pc self
      | None => None
      end
  end.

(** The fetcher together with the threads that have called
    [update()], each with its position. *)
Record Concurrent : Type := {
  shared : AsyncUTXOFetcher;
  callers : list UpdatePc
}.

(** One event of the fetcher with [update()] taken step by step. *)
Definition conc_step (ev : ConcEvent) (c : Concurrent) : option Concurrent :=
  match ev with
  | CEv EvUpdate => None
  | CEv ev =>
      match step ev (shared c) with
      | Some self => Some {| shared := self; callers := callers c |}
      | None => None
      end
  | CCall => Some {| shared := shared c; callers := callers c ++ [URefresh] |}
  | CCaller k =>
      match callers c !! k with
      | None => None
      | Some pc =>
          match update_step pc (shared c) with
          | Some (pc, self) => Some {| shared := self; callers := <[k := pc]> (callers c) |}
          | None => None
          end
      end
  end.

(** The states that a sequence of events goes through, the last one
    last; [None] when one of the events cannot happen. *)
Fixpoint conc_trace (evs : list ConcEvent) (c : Concurrent) : option (list Concurrent) :=
  match evs with
  | [] => Some []
  | ev :: evs =>
      match conc_step ev c with
      | Some c =>
          match conc_trace evs c with
          | Some cs => Some (c :: cs)
          | None => None
          end
      | None => None
      end
  end.

End Fetcher.

(** ** The synchronous fetcher ([SimpleUTXOFetcher]) *)

Section SimpleFetcher.
Context `{!Externals}.
Context {Backend TxDb : Type}.
Variable get_utxo : string -> Backend -> Result (list string) * Backend.
Variable add_tx_by_hash : string -> TxDb -> bool * TxDb.

(** The fetcher object.  The last two fields are not in the source:
    they record the calls made on the backend and what was fed to the
    store with its answer. *)
Record SimpleUTXOFetcher : Type := {
  s_interface : Backend;
  s_model : Model (TxDb := TxDb);
  s_backend_calls : list BackendCall;
  s_ingested : list (string * bool)
}.

(** [SimpleUTXOFetcher.__init__] *)
Definition SimpleUTXOFetcher_init (connect : Interface -> Backend)
    (model : Model (TxDb := TxDb)) (params : gmap string PyVal)
  : Result SimpleUTXOFetcher :=
  match make_interface (model_testnet model) params with
  | Raise e => Raise e
  | Ok interface =>
      Ok {| s_interface := connect interface; s_model := model;
            s_backend_calls := []; s_ingested := [] |}
  end.

(** [add_utxo(address, txid)]:
    [self.model.get_tx_db().add_tx_by_hash(txid)], the answer dropped. *)
Definition simple_add_utxo (address txid : string) (self : SimpleUTXOFetcher)
  : SimpleUTXOFetcher :=
  let '(got_updates, db) := add_tx_by_hash txid (tx_db (s_model self)) in
  {| s_interface := s_interface self;
     s_model := {| model_testnet := model_testnet (s_model self);
                   address_manager := address_manager (s_model self);
                   tx_db := db |};
     s_backend_calls := s_backend_calls self;
     s_ingested := s_ingested self ++ [(txid, got_updates)] |}.

(** [scan_address(address)] of the base class with this hook. *)
Definition simple_scan_address (address : string) (self : SimpleUTXOFetcher)
  : Result unit * SimpleUTXOFetcher :=
  let '(r, i) := get_utxo address (s_interface self) in
  let self :=
    {| s_interface := i; s_model := s_model self;
       s_backend_calls := s_backend_calls self ++ [CallGetUtxo address];
       s_ingested := s_ingested self |} in
  match r with
  | Ok txids =>
      (Ok tt, foldl (fun self txid => simple_add_utxo address txid self) self txids)
  | Raise e => (Raise e, self)
  end.

(** The loop of [scan_all_addresses] over the records of the address
    manager; an exception leaves it. *)
Fixpoint scan_all_loop (records : list AddressRecord) (self : SimpleUTXOFetcher)
  : Result unit * SimpleUTXOFetcher :=
  match records with
  | [] => (Ok tt, self)
  | address_rec :: rest =>
      match simple_scan_address (get_address address_rec) self with
      | (Ok _, self) => scan_all_loop rest self
      | (Raise e, self) => (Raise e, self)
      end
  end.

Definition scan_all_addresses (self : SimpleUTXOFetcher)
  : Result unit * SimpleUTXOFetcher :=
  let wam := address_manager (s_model self) in
  scan_all_loop (get_all_addresses wam) self.

End SimpleFetcher.

(** * Vocabulary of the properties *)

(** The counter that [increment_max_index_for_color_set] finds for a
    color set: the first entry whose color set has the same ids. *)
Fixpoint find_counter (colormap : ColorMap) (states : list ColorSetState)
    (cs : ColorSet) : option Z :=
  match states with
  | [] => None
  | st :: rest =>
      if equals (ColorSet_init colormap (st_color_set st)) cs then Some (max_index st)
      else find_counter colormap rest cs
  end.

(** The highest index allocated so far, [-1] when there is no counter. *)
Definition highest_index (colormap : ColorMap) (states : list ColorSetState)
    (cs : ColorSet) : Z :=
  default (-1) (find_counter colormap states cs).

(** How many of [calls] were for a color set with the ids of [cs]. *)
Definition count_equal (cs : ColorSet) (calls : list ColorSet) : nat :=
  length (filter (fun c => equals c cs = true) calls).

(** The name asked for: [params.get('interface', 'chromanode')]. *)
Definition requested (params : gmap string PyVal) : PyVal :=
  default (PStr "chromanode") (params !! "interface").

Definition names (use : PyVal) (l : list string) : Prop :=
  ∃ name, name ∈ l ∧ use = PStr name.

#[global] Instance names_dec use l : Decision (names use l).
Proof.
  refine (cast_if (decide (Exists (fun name => use = PStr name) l)));
    unfold names; rewrite Exists_exists in *; naive_solver.
Defined.

Section Vocabulary.
Context `{!Externals}.

(** What the caches of a record built from [(master_key, cs, i, tn)]
    can hold: nothing, or the eagerly computed value. *)
Record cache_ok (master_key : string) (cs : ColorSet) (i : Z) (tn : bool)
    (r : DeterministicAddressRecord) : Prop := {
  ok_hmac : hmac r = {| hmac_key := master_key; hmac_msg := hmac_message cs i |};
  ok_prefix : addressprefix r = addressprefix_of tn;
  ok_scalar : ∀ v, _rawPrivKey r = Some v → v = derive_scalar master_key cs i;
  ok_point : ∀ v, _publicPoint r = Some v → v = derive_point master_key cs i;
  ok_address : ∀ v, _address r = Some v → v = derive_address master_key cs i tn
}.

(** Successive calls of [get_new_address], one per color set of
    [calls]; the manager after the last one. *)
Definition after_allocations (calls : list ColorSet) (self : DWalletAddressManager)
  : DWalletAddressManager :=
  foldl (fun self c => snd (get_new_address (AColorSet c) self)) self calls.

(** The address strings a manager holds. *)
Definition address_strings (self : DWalletAddressManager) : gset string :=
  list_to_set (get_address <$> addresses self).

(** The records [_import_specific_color_addresses] builds for one
    counter, and for a list of counters. *)
Definition records_of_state (mk : string) (tn : bool) (cm : ColorMap)
    (st : ColorSetState) : list AddressRecord :=
  (fun i => Deterministic
              (DeterministicAddressRecord_init mk (ColorSet_init cm (st_color_set st)) i tn))
    <$> seqZ 0 (max_index st + 1).

Definition records_of_states (mk : string) (tn : bool) (cm : ColorMap)
    (states : list ColorSetState) : list AddressRecord :=
  states ≫= records_of_state mk tn cm.

(** The records [_import_one_off_addresses_from_config] builds. *)
Definition loose_records (tn : bool) (cm : ColorMap) (l : list LooseParams)
  : list AddressRecord :=
  (fun p => Loose {| loose_color_set := ColorSet_init cm (lp_color_set p);
                     loose_testnet := tn;
                     loose_address_data := lp_address_data p |}) <$> l.

(** A counter that belongs to a palette of color sets over the color
    map [cm]. *)
Definition state_ok (cm : ColorMap) (palette : list ColorSet)
    (st : ColorSetState) : Prop :=
  ColorSet_init cm (st_color_set st) ∈ palette ∧ -1 ≤ max_index st.

(** What stays true of a manager while it only allocates for color
    sets of the palette: [cfg], [mk], [tn] and [loose] are the
    configuration, master key, network flag and loose records it
    started with. *)
Record tracks (cm : ColorMap) (palette : list ColorSet) (cfg : Config)
    (mk : string) (tn : bool) (loose : list AddressRecord)
    (self : DWalletAddressManager) : Prop := {
  tr_config :
    config self =
      set_cfg_dwam {| p_genesis_color_sets := [];
                      p_color_set_states := color_set_states self |} cfg;
  tr_testnet : m_testnet self = tn;
  tr_colormap : colormap self = cm;
  tr_master_key : master_key self = mk;
  tr_genesis : genesis_color_sets self = [];
  tr_addresses :
    get_address <$> addresses self ≡ₚ
      get_address <$> (loose ++ records_of_states mk tn cm (color_set_states self));
  tr_states : Forall (state_ok cm palette) (color_set_states self)
}.

End Vocabulary.

(** How many of the events are steps of the worker. *)
Definition is_worker_event (ev : Event) : bool :=
  match ev with
  | EvWorker => true
  | _ => false
  end.

Definition worker_events (evs : list Event) : nat :=
  length (filter (fun ev => is_worker_event ev = true) evs).

(** Events of the worker, of [update()] and of the wallet. *)
Definition is_background_event (ev : Event) : Prop :=
  match ev with
  | EvWorker | EvUpdate | EvWallet _ => True
  | _ => False
  end.

Section FetcherVocabulary.
Context {Backend TxDb : Type}.
Variable get_utxo : string → Backend → Result (list string) * Backend.
Variable add_tx_by_hash : string → TxDb → bool * TxDb.

Local Abbreviation Fetcher := (AsyncUTXOFetcher (Backend := Backend) (TxDb := TxDb)).

(** The backend asked about the addresses of [addrs] one after the
    other: the ids it returns, in order, and the backend afterwards;
    [None] when one of the calls raises. *)
Fixpoint replies (addrs : list string) (i : Backend) : option (list string * Backend) :=
  match addrs with
  | [] => Some ([], i)
  | a :: addrs =>
      match get_utxo a i with
      | (Ok txids, i) =>
          match replies addrs i with
          | Some (ids, i) => Some (txids ++ ids, i)
          | None => None
          end
      | (Raise _, _) => None
      end
  end.

(** The fetcher [s] once the calls for [addrs] have been made on the
    backend, leaving it as [i], and [ids] have been queued. *)
Definition after_scans (addrs ids : list string) (i : Backend) (s : Fetcher) : Fetcher :=
  {| self_draining := self_draining s; interface := i; model := model s;
     hash_queue := hash_queue s ++ ids; address_list := address_list s;
     running := running s; stop_evt := stop_evt s; thread := thread s;
     backend_calls := backend_calls s ++ (CallGetUtxo <$> addrs);
     printed := printed s; ingested := ingested s; stopper := stopper s |}.

(** What the store answers when it is fed the ids of [queue] in
    order, and the store afterwards. *)
Fixpoint store_answers (queue : list string) (db : TxDb) : list bool * TxDb :=
  match queue with
  | [] => ([], db)
  | txhash :: queue =>
      let '(got, db) := add_tx_by_hash txhash db in
      let '(answers, db) := store_answers queue db in
      (got :: answers, db)
  end.

(** The number of ids reported as new. *)
Definition count_new (answers : list bool) : nat :=
  length (filter (fun b => b = true) answers).

(** The fields [update] leaves alone. *)
Definition same_control (s s' : Fetcher) : Prop :=
  self_draining s' = self_draining s ∧ interface s' = interface s
  ∧ running s' = running s ∧ stop_evt s' = stop_evt s ∧ thread s' = thread s
  ∧ backend_calls s' = backend_calls s ∧ printed s' = printed s
  ∧ stopper s' = stopper s
  ∧ address_manager (model s') = address_manager (model s)
  ∧ model_testnet (model s') = model_testnet (model s).

(** What the worker's way through the [try] statement depends on and
    shows: the class, the backend with the calls made on it, the flag
    and what was printed. *)
Definition same_backend (s t : Fetcher) : Prop :=
  self_draining s = self_draining t ∧ interface s = interface t
  ∧ running s = running t ∧ backend_calls s = backend_calls t
  ∧ printed s = printed t.

(** Positions of the worker inside the [try] statement. *)
Definition in_try (pc : WorkerPc) : Prop :=
  match pc with
  | WFor _ | WScan _ _ | WExcept _ => True
  | _ => False
  end.

(** What holds in every state of a fetcher that was built by its
    constructor: [stop()] has disconnected once it is past its
    with-block, has set the event once it is at [join], returns only
    when the worker has returned, and a worker that has returned
    leaves [running] cleared. *)
Record stop_inv (s : Fetcher) : Prop := {
  inv_disconnected : stopper s ≠ SIdle → CallDisconnect ∈ backend_calls s;
  inv_signalled : stopper s ≠ SIdle → stopper s ≠ SLocked → stop_evt s = true;
  inv_joined : stopper s = SReturned → thread s = Some WExited;
  inv_exited : thread s = Some WExited → running s = false
}.

End FetcherVocabulary.

(** ** Vocabulary of the further properties *)

(** The color ids of the counters, in list order. *)
Definition counter_ids (colormap : ColorMap) (states : list ColorSetState)
  : list (gset Z) :=
  (fun st => color_id_set (ColorSet_init colormap (st_color_set st))) <$> states.

(** An entry of ['addresses'] as the document has it: its [color_set]
    is a descriptor list. *)
Definition is_raw (p : AddrParams) : Prop :=
  match ap_color_set p with
  | DescList _ => True
  | ColorSetObject _ => False
  end.

#[global] Instance is_raw_dec (p : AddrParams) : Decision (is_raw p).
Proof. unfold is_raw. destruct (ap_color_set p); apply _. Defined.



(** A string without the separator of the HMAC message. *)
Fixpoint no_bar (s : string) : Prop :=
  match s with
  | EmptyString => True
  | String c rest => c ≠ "|"%char ∧ no_bar rest
  end.

(** How many of the calls made on the backend are scans. *)
Definition is_scan (c : BackendCall) : bool :=
  match c with
  | CallGetUtxo _ => true
  | CallDisconnect => false
  end.

Definition count_scans (calls : list BackendCall) : nat :=
  length (filter (fun c => is_scan c = true) calls).

(** How many steps the worker can still take once [running] is
    cleared for good. *)
Definition steps_left (pc : WorkerPc) : nat :=
  match pc with
  | WExited => 0
  | WLoop => 1
  | WWait => 2
  | WUpdate => 3
  | WExcept _ | WFor _ => 4
  | WScan _ _ | WSnapshot => 5
  | WStart => 6
  end.

(** The scan the worker has committed to, if any. *)
Definition scan_in_flight (pc : WorkerPc) : nat :=
  match pc with
  | WScan _ _ => 1
  | _ => 0
  end.

Section WalletVocabulary.
Context `{!Externals}.

(** The records [_import_genesis_addresses] builds. *)
Definition genesis_records (mk : string) (tn : bool) (cm : ColorMap)
    (genesis : list (list string)) : list AddressRecord :=
  imap (fun i color_desc_list =>
          Deterministic
            (set_color_set (ColorSet_init cm color_desc_list)
               (DeterministicAddressRecord_init mk (ColorSet_init cm []) (Z.of_nat i) tn)))
       genesis.

(** The address strings of the first [n] genesis addresses. *)
Definition genesis_strings (mk : string) (tn : bool) (cm : ColorMap) (n : nat)
  : list string :=
  (fun i => derive_address mk (ColorSet_init cm []) (Z.of_nat i) tn) <$> seq 0 n.

(** What a wallet does with its address manager. *)
Inductive WalletOp : Type :=
| OpAllocate (cs : ColorSet)                 (* get_new_address(cs) *)
| OpNewGenesis                               (* get_new_genesis_address() *)
| OpBindGenesis (ref : nat) (cs : ColorSet). (* update_genesis_address(addresses[ref], cs) *)

(** The manager after one operation, whether it raised or not.
    [OpBindGenesis] is for a deterministic record the manager holds. *)
Definition apply_op (self : DWalletAddressManager) (op : WalletOp)
  : DWalletAddressManager :=
  match op with
  | OpAllocate cs => (get_new_address (AColorSet cs) self).2
  | OpNewGenesis => (get_new_genesis_address self).2
  | OpBindGenesis ref cs =>
      match addresses self !! ref with
      | Some (Deterministic address) => (update_genesis_address ref address cs self).2
      | _ => self
      end
  end.

Definition allocates_in (palette : list ColorSet) (op : WalletOp) : Prop :=
  match op with
  | OpAllocate cs => cs ∈ palette
  | _ => True
  end.

(** The invariant of a manager under these operations. *)
Record wallet_inv (cm : ColorMap) (palette : list ColorSet) (cfg : Config)
    (mk : string) (tn : bool) (loose : list AddressRecord)
    (self : DWalletAddressManager) : Prop := {
  wi_config :
    config self =
      set_cfg_dwam {| p_genesis_color_sets := genesis_color_sets self;
                      p_color_set_states := color_set_states self |} cfg;
  wi_testnet : m_testnet self = tn;
  wi_colormap : colormap self = cm;
  wi_master_key : master_key self = mk;
  wi_addresses :
    get_address <$> addresses self ≡ₚ
      (get_address <$> loose)
      ++ genesis_strings mk tn cm (length (genesis_color_sets self))
      ++ (get_address <$> records_of_states mk tn cm (color_set_states self));
  wi_states : Forall (state_ok cm palette) (color_set_states self)
}.

End WalletVocabulary.

Section QueueVocabulary.
Context {Backend TxDb : Type}.
Variable get_utxo : string → Backend → Result (list string) * Backend.

(** The ids the backend returns when it is asked about the addresses
    of [addrs] one after the other, up to the first call that
    raises. *)
Fixpoint gathered (addrs : list string) (i : Backend) : list string :=
  match addrs with
  | [] => []
  | a :: addrs =>
      match get_utxo a i with
      | (Ok txids, i) => txids ++ gathered addrs i
      | (Raise _, _) => []
      end
  end.

End QueueVocabulary.

(** The id that a caller of [update()] has taken from the queue and
    not yet fed to the store. *)
Definition in_hand (pc : UpdatePc) : list string :=
  match pc with
  | UFeed txhash _ => [txhash]
  | _ => []
  end.

(** A caller that is inside [update()]. *)
Definition is_active (pc : UpdatePc) : bool :=
  match pc with
  | UReturned _ => false
  | _ => true
  end.

Section ConcurrentVocabulary.
Context `{!Externals} {Backend TxDb : Type}.
Variable get_utxo : string → Backend → Result (list string) * Backend.
Variable disconnect : Backend → Backend.
Variable add_tx_by_hash : string → TxDb → bool * TxDb.

Local Abbreviation Concurrent := (Concurrent (Backend := Backend) (TxDb := TxDb)).

(** The transaction ids the fetcher holds, in the order in which they
    left the backend: those fed to the store, those a caller of
    [update()] has in hand, those queued. *)
Definition seen_ids (c : Concurrent) : list string :=
  (fst <$> ingested (shared c)) ++ (callers c ≫= in_hand) ++ hash_queue (shared c).

(** At most one thread is inside [update()]. *)
Definition one_caller (c : Concurrent) : Prop :=
  (length (filter (fun pc => is_active pc = true) (callers c)) ≤ 1)%nat.

(** The worker of an [AsyncUTXOFetcher]: it never calls [update()]. *)
Definition async_worker (c : Concurrent) : Prop :=
  self_draining (shared c) = false ∧ thread (shared c) ≠ Some WUpdate.

(** What the backend returns to the worker if its next step is a
    scan. *)
Definition scan_reply (c : Concurrent) : list string :=
  match thread (shared c) with
  | Some (WScan address _) =>
      match get_utxo address (interface (shared c)) with
      | (Ok txids, _) => txids
      | (Raise _, _) => []
      end
  | _ => []
  end.

(** The ids the backend returns to the worker in the course of a
    sequence of events, in order. *)
Fixpoint fetched (evs : list ConcEvent) (c : Concurrent) : list string :=
  match evs with
  | [] => []
  | ev :: evs =>
      match conc_step get_utxo disconnect add_tx_by_hash ev c with
      | Some c' =>
          match ev with
          | CEv EvWorker => scan_reply c ++ fetched evs c'
          | _ => fetched evs c'
          end
      | None => []
      end
  end.

End ConcurrentVocabulary.

(** Positions of the worker at which nothing is being scanned or
    reported. *)
Definition idle_pc (pc : WorkerPc) : Prop :=
  match pc with
  | WFor (_ :: _) | WScan _ _ | WExcept _ | WUpdate => False
  | _ => True
  end.

(** * Stand-ins

    Concrete collaborators, wallets and fetchers on which the
    definitions run. *)

Definition mock_externals : Externals :=
  {| hash_canonical_descriptor := fun descs =>
       String.list_byte_of_string (String.concat "," descs);
     hmac_sha256 := fun key msg => String.list_byte_of_string (key +:+ msg);
     BasePoint_mul := fun k => (k, k + 1);
     public_pair_to_bitcoin_address := fun p _ prefix => prefix +:+ pretty (fst p);
     addressprefix_of := fun tn => if tn then "m" else "1";
     urandom_hex := "00ff";
     loose_address_of := fun _ data => data |}.

(** A color map that numbers descriptors by their length. *)
Definition mock_colormap : ColorMap :=
  {| resolve_color_desc := fun desc => Z.of_nat (String.length desc) |}.

Definition colors_a : ColorSet := ColorSet_init mock_colormap ["a"].
Definition colors_bb : ColorSet := ColorSet_init mock_colormap ["bb"].
Definition colorless : ColorSet := ColorSet_init mock_colormap [].

Definition empty_config : Config :=
  {| cfg_testnet := None; cfg_dwam := None; cfg_dw_master_key := None;
     cfg_addresses :=
       Some [{| lp_address_data := "5Kloose"; lp_color_set := ["a"] |}] |}.

Definition mock_wallet : DWalletAddressManager :=
  {| config := empty_config; m_testnet := false; colormap := mock_colormap;
     addresses := []; master_key := "00ff"; genesis_color_sets := [[]];
     color_set_states := [] |}.

(** The genesis address of [mock_wallet], unbound, and a colored one. *)
Definition genesis_0 : DeterministicAddressRecord :=
  @get_genesis_address mock_externals 0 mock_wallet.
Definition colored_0 : DeterministicAddressRecord :=
  @DeterministicAddressRecord_init mock_externals "00ff" colors_a 0 false.

(** A backend that fails on the address ["a1"] and counts its calls. *)
Definition mock_get_utxo (address : string) (calls : nat) : Result (list string) * nat :=
  if String.eqb address "a1" then (Raise (BackendError "timeout"), S calls)
  else (Ok ["tx-" +:+ address], S calls).
Definition mock_disconnect (calls : nat) : nat := calls.

(** A store that reports an id as new when it has not seen it. *)
Definition mock_add_tx_by_hash (txhash : string) (db : list string)
  : bool * list string :=
  (bool_decide (txhash ∉ db), txhash :: db).

Definition mock_model : Model (TxDb := list string) :=
  {| model_testnet := false; address_manager := mock_wallet; tx_db := [] |}.

(** A running [AsyncUTXOFetcher] whose address list is [a1, a2]. *)
Definition mock_fetcher : AsyncUTXOFetcher :=
  {| self_draining := false; interface := 0%nat; model := mock_model;
     hash_queue := []; address_list := ["a1"; "a2"]; running := true;
     stop_evt := false; thread := Some WSnapshot;
     backend_calls := []; printed := []; ingested := []; stopper := SIdle |}.

(** A running [AsyncUTXOFetcher] whose address list is [a2, a1, a3]. *)
Definition mixed_fetcher : AsyncUTXOFetcher :=
  {| self_draining := false; interface := 0%nat; model := mock_model;
     hash_queue := []; address_list := ["a2"; "a1"; "a3"]; running := true;
     stop_evt := false; thread := Some WSnapshot;
     backend_calls := []; printed := []; ingested := []; stopper := SIdle |}.

(** The fetcher as built, then: the worker starts and enters its loop,
    [stop()] runs its with-block and sets the event, the worker sees
    [running] cleared and returns, [join] returns. *)
Definition stop_scenario : list (Event) :=
  [EvStart; EvWorker; EvStop; EvStop; EvWorker; EvStop].

Definition built_fetcher : AsyncUTXOFetcher :=
  {| self_draining := false; interface := 0%nat; model := mock_model;
     hash_queue := []; address_list := []; running := false;
     stop_evt := false; thread := None;
     backend_calls := []; printed := []; ingested := []; stopper := SIdle |}.

Definition stopped_fetcher : AsyncUTXOFetcher :=
  {| self_draining := false; interface := 0%nat; model := mock_model;
     hash_queue := []; address_list := []; running := false;
     stop_evt := true; thread := Some WExited;
     backend_calls := [CallDisconnect]; printed := []; ingested := [];
     stopper := SReturned |}.

(** A fetcher whose [stop()] ran its with-block between
    [start_thread()] and the worker's first step: the state after
    [EvStart; EvStop; EvWorker]. *)
Definition overtaken_fetcher : AsyncUTXOFetcher :=
  {| self_draining := false; interface := 0%nat; model := mock_model;
     hash_queue := []; address_list := []; running := true;
     stop_evt := false; thread := Some WLoop;
     backend_calls := [CallDisconnect]; printed := []; ingested := [];
     stopper := SLocked |}.

(** A fetcher whose [stop()] cleared [running] while the worker was
    about to scan [a2]. *)
Definition cancelled_fetcher : AsyncUTXOFetcher :=
  {| self_draining := false; interface := 0%nat; model := mock_model;
     hash_queue := []; address_list := ["a2"]; running := false;
     stop_evt := false; thread := Some (WScan "a2" []);
     backend_calls := [CallDisconnect]; printed := []; ingested := [];
     stopper := SLocked |}.

(** A running [ServerUTXOFetcher] with one id queued and the address
    list [a2, a3]. *)
Definition mock_server : AsyncUTXOFetcher :=
  {| self_draining := true; interface := 0%nat; model := mock_model;
     hash_queue := ["tx-old"]; address_list := ["a2"; "a3"]; running := true;
     stop_evt := false; thread := Some WSnapshot;
     backend_calls := []; printed := []; ingested := []; stopper := SIdle |}.

(** Events without any [update()]; events after [overtaken_fetcher];
    events after [cancelled_fetcher]. *)
Definition idle_scenario : list Event :=
  [EvStart; EvWorker; EvWorker; EvWallet mock_wallet; EvWorker; EvWorker; EvStop].
Definition overtaken_scenario : list Event :=
  [EvStop; EvWorker; EvWorker; EvWorker; EvWorker].
Definition cancel_scenario : list Event :=
  [EvWorker; EvStop; EvWorker; EvWorker; EvWorker; EvStop].

(** A colorless record whose index is past the genesis slots of
    [mock_wallet]. *)
Definition stray_5 : DeterministicAddressRecord :=
  @DeterministicAddressRecord_init mock_externals "00ff" colorless 5 false.

(** Events of a worker on a failing backend, without [stop()]. *)
Definition failing_scenario : list Event :=
  [EvWorker; EvWorker; EvWorker; EvWorker; EvUpdate; EvWorker; EvWorker].

(** An [AsyncUTXOFetcher] with one id queued whose worker is about to
    sweep [a2, a3], and nobody in [update()]. *)
Definition polled : Concurrent :=
  {| shared :=
       {| self_draining := false; interface := 0%nat; model := mock_model;
          hash_queue := ["tx-old"]; address_list := ["a2"; "a3"]; running := true;
          stop_evt := false; thread := Some WSnapshot;
          backend_calls := []; printed := []; ingested := []; stopper := SIdle |};
     callers := [] |}.

(** The worker sweeps while one thread calls [update()]. *)
Definition polling_scenario : list ConcEvent :=
  [CEv EvWorker; CCall; CEv EvWorker; CCaller 0; CCaller 0; CEv EvWorker;
   CCaller 0; CEv EvWorker; CEv EvWorker; CCaller 0; CCaller 0; CCaller 0;
   CCaller 0].

(** A fetcher with two ids queued, and two threads that call
    [update()] at the same time. *)
Definition raced : Concurrent :=
  {| shared :=
       {| self_draining := false; interface := 0%nat; model := mock_model;
          hash_queue := ["x"; "y"]; address_list := []; running := false;
          stop_evt := false; thread := None;
          backend_calls := []; printed := []; ingested := []; stopper := SIdle |};
     callers := [] |}.

Definition race_scenario : list ConcEvent :=
  [CCall; CCall; CCaller 0; CCaller 0; CCaller 0;
   CCaller 1; CCaller 1; CCaller 1; CCaller 1; CCaller 0].

(** A wallet's session: a genesis address, allocations, a binding. *)
Definition wallet_session : list WalletOp :=
  [OpNewGenesis; OpAllocate colors_a; OpBindGenesis 1 colors_bb;
   OpAllocate colors_a; OpNewGenesis; OpAllocate colors_bb].

(** * Properties *)

(** ** Key derivation *)

Lemma hex_digit_not_g (n : N) : hex_digit n ≠ "g"%char.
Proof.
  destruct n as [|p]; [discriminate|].
  do 4 (destruct p as [p|p|]; try discriminate).
Qed.

Lemma hexdigest_not_genesis (digest : list byte) : hexdigest digest ≠ "genesis block".
Proof.
  destruct digest as [|b rest]; simpl; [discriminate|].
  intros Heq. injection Heq as Hc _. by apply hex_digit_not_g in Hc.
Qed.

Lemma ColorSet_init_empty_iff (colormap : ColorMap) (descs : list string) :
  color_id_set (ColorSet_init colormap descs) = ∅ ↔ descs = [].
Proof.
  split.
  - destruct descs as [|d descs]; [done|]. simpl. set_solver.
  - by intros ->.
Qed.

Section DerivationProperties.
Context `{!Externals}.

(** C7.  In [DeterministicAddressRecord.__init__] the scope tag of a
    color set built over a color map is the literal ["genesis block"]
    exactly when the color set has no color ids, and its hash string
    otherwise; the hash string of any color set differs from the
    genesis marker. *)
Theorem genesis_scope_isolation (colormap : ColorMap) (descs : list string) :
  let cs := ColorSet_init colormap descs in
  (color_string cs = "genesis block" ↔ color_id_set cs = ∅)
  ∧ (color_id_set cs ≠ ∅ → color_string cs = get_hash_string cs)
  ∧ get_hash_string cs ≠ "genesis block".
Proof.
  intros cs. unfold color_string, get_hash_string, get_data.
  pose proof (ColorSet_init_empty_iff colormap descs) as Hiff. fold cs in Hiff.
  assert (Hlen : length (color_desc_list cs) = 0%nat ↔ descs = []).
  { subst cs; simpl. by destruct descs. }
  split_and!.
  - case_bool_decide as Hd.
    + split; [intros _|done]. by apply Hiff, Hlen.
    + split.
      * intros Heq. by apply hexdigest_not_genesis in Heq.
      * intros He. exfalso. by apply Hd, Hlen, Hiff.
  - intros Hne. case_bool_decide as Hd; [|done].
    exfalso. by apply Hne, Hiff, Hlen.
  - apply hexdigest_not_genesis.
Qed.

Lemma init_cache_ok master_key cs i tn :
  cache_ok master_key cs i tn (DeterministicAddressRecord_init master_key cs i tn).
Proof. by split. Qed.

Lemma rawPrivKey_ok master_key cs i tn r :
  cache_ok master_key cs i tn r →
  fst (rawPrivKey r) = derive_scalar master_key cs i
  ∧ cache_ok master_key cs i tn (snd (rawPrivKey r)).
Proof.
  intros Hok. unfold rawPrivKey.
  destruct (_rawPrivKey r) as [v|] eqn:Hc; simpl.
  - split; [by apply (ok_scalar _ _ _ _ _ Hok)|done].
  - destruct Hok as [Hh Hp Hs Hpt Ha].
    assert (Hv : from_bytes_32 (hmac_digest (hmac r)) = derive_scalar master_key cs i)
      by (by rewrite Hh).
    split; [done|]. split; simpl; try done. by intros v [= <-].
Qed.

Lemma publicPoint_ok master_key cs i tn r :
  cache_ok master_key cs i tn r →
  fst (publicPoint r) = derive_point master_key cs i
  ∧ cache_ok master_key cs i tn (snd (publicPoint r)).
Proof.
  intros Hok. unfold publicPoint.
  destruct (_publicPoint r) as [v|] eqn:Hc; simpl.
  - split; [by apply (ok_point _ _ _ _ _ Hok)|done].
  - destruct (rawPrivKey_ok _ _ _ _ _ Hok) as [Hv [Hh Hp Hs Hpt Ha]].
    destruct (rawPrivKey r) as [k r1]; simpl in *. subst k.
    split; [done|]. split; simpl; try done. by intros v [= <-].
Qed.

Lemma address_ok master_key cs i tn r :
  cache_ok master_key cs i tn r →
  fst (address r) = derive_address master_key cs i tn
  ∧ cache_ok master_key cs i tn (snd (address r)).
Proof.
  intros Hok. unfold address.
  destruct (_address r) as [v|] eqn:Hc; simpl.
  - split; [by apply (ok_address _ _ _ _ _ Hok)|done].
  - destruct (publicPoint_ok _ _ _ _ _ Hok) as [Hv [Hh Hp Hs Hpt Ha]].
    destruct (publicPoint r) as [p r1]; simpl in *. subst p.
    assert (Hv : public_pair_to_bitcoin_address (derive_point master_key cs i)
                   false (addressprefix r1) = derive_address master_key cs i tn)
      by (by rewrite Hp).
    split; [done|]. split; simpl; try done. by intros v [= <-].
Qed.

Lemma read_ok master_key cs i tn p r :
  cache_ok master_key cs i tn r →
  fst (read p r) = eager master_key cs i tn p
  ∧ cache_ok master_key cs i tn (snd (read p r)).
Proof.
  intros Hok. destruct p; simpl.
  - destruct (rawPrivKey_ok _ _ _ _ _ Hok) as [Hv Hok'].
    destruct (rawPrivKey r); simpl in *. by subst.
  - destruct (publicPoint_ok _ _ _ _ _ Hok) as [Hv Hok'].
    destruct (publicPoint r); simpl in *. by subst.
  - destruct (address_ok _ _ _ _ _ Hok) as [Hv Hok'].
    destruct (address r); simpl in *. by subst.
Qed.

Lemma after_reads_ok master_key cs i tn ps r :
  cache_ok master_key cs i tn r → cache_ok master_key cs i tn (after_reads ps r).
Proof.
  revert r. induction ps as [|p ps IH]; intros r Hok; simpl; [done|].
  apply IH. by apply read_ok.
Qed.

(** C8.  Whatever properties have been read before, and in whatever
    order, reading the private scalar, the public point or the
    address string of a record built from [(master_key, color_set,
    index, testnet)] returns the value computed eagerly from these
    four arguments; so two records built from the same arguments
    agree on all three, on every access. *)
Theorem derivation_deterministic (master_key : string) (cs : ColorSet) (i : Z)
    (tn : bool) (ps qs : list Property) (p : Property) :
  let r1 := after_reads ps (DeterministicAddressRecord_init master_key cs i tn) in
  let r2 := after_reads qs (DeterministicAddressRecord_init master_key cs i tn) in
  fst (read p r1) = eager master_key cs i tn p
  ∧ fst (read p r1) = fst (read p r2)
  ∧ fst (read p (snd (read p r1))) = fst (read p r1).
Proof.
  intros r1 r2.
  assert (H1 : cache_ok master_key cs i tn r1)
    by apply after_reads_ok, init_cache_ok.
  assert (H2 : cache_ok master_key cs i tn r2)
    by apply after_reads_ok, init_cache_ok.
  destruct (read_ok _ _ _ _ p _ H1) as [E1 H1'].
  destruct (read_ok _ _ _ _ p _ H2) as [E2 _].
  destruct (read_ok _ _ _ _ p _ H1') as [E3 _].
  by rewrite E1, E2, E3.
Qed.

End DerivationProperties.

(** ** Allocation counters *)

Lemma equals_true (a b : ColorSet) : equals a b = true ↔ color_id_set a = color_id_set b.
Proof. unfold equals. by rewrite bool_decide_eq_true. Qed.

Lemma equals_transfer (a b c : ColorSet) :
  equals a b = true → equals a c = equals b c.
Proof.
  rewrite equals_true. intros Hab. unfold equals. by rewrite Hab.
Qed.

Lemma equals_sym (a b : ColorSet) : equals a b = equals b a.
Proof. unfold equals. apply bool_decide_ext. naive_solver. Qed.

Lemma find_counter_equals colormap states (c cs : ColorSet) :
  equals c cs = true → find_counter colormap states c = find_counter colormap states cs.
Proof.
  intros Heq. induction states as [|st rest IH]; simpl; [done|].
  rewrite IH.
  assert (equals (ColorSet_init colormap (st_color_set st)) c
          = equals (ColorSet_init colormap (st_color_set st)) cs) as ->; [|done].
  rewrite !(equals_sym (ColorSet_init _ _)). by apply equals_transfer.
Qed.

Lemma find_counter_app colormap states st cs :
  find_counter colormap (states ++ [st]) cs =
    match find_counter colormap states cs with
    | Some n => Some n
    | None =>
        if equals (ColorSet_init colormap (st_color_set st)) cs then Some (max_index st)
        else None
    end.
Proof.
  induction states as [|st0 rest IH]; simpl; [done|].
  by destruct (equals (ColorSet_init colormap (st_color_set st0)) cs).
Qed.

Lemma find_counter_None colormap states cs :
  find_counter colormap states cs = None ↔
  ∀ st, st ∈ states → equals (ColorSet_init colormap (st_color_set st)) cs = false.
Proof.
  induction states as [|st0 rest IH]; simpl.
  - split; [|done]. intros _ st Hin. by apply elem_of_nil in Hin.
  - destruct (equals (ColorSet_init colormap (st_color_set st0)) cs) eqn:He.
    + split; [done|]. intros H. specialize (H st0). rewrite He in H.
      discriminate H. by left.
    + rewrite IH. split.
      * intros H st [->|Hin]%elem_of_cons; auto.
      * intros H st Hin. apply H. by right.
Qed.

Lemma increment_states_None colormap states c :
  increment_states colormap states c = None ↔ find_counter colormap states c = None.
Proof.
  induction states as [|st rest IH]; simpl; [done|].
  destruct (equals _ c); [done|].
  destruct (increment_states colormap rest c) as [[i r]|].
  - split; [done|]. intros H. apply IH in H. done.
  - split; [|done]. intros _. by apply IH.
Qed.

Lemma increment_states_Some colormap states c i states' :
  increment_states colormap states c = Some (i, states') →
  find_counter colormap states c = Some (i - 1)
  ∧ ∀ cs, find_counter colormap states' cs =
          if equals c cs then Some i else find_counter colormap states cs.
Proof.
  revert i states'. induction states as [|st rest IH]; intros i states'; simpl; [done|].
  destruct (equals (ColorSet_init colormap (st_color_set st)) c) eqn:He.
  - intros [= <- <-]. split; [f_equal; lia|].
    intros cs. simpl. rewrite (equals_transfer _ _ cs He).
    by destruct (equals c cs).
  - destruct (increment_states colormap rest c) as [[j r]|] eqn:Hinc; [|done].
    intros [= <- <-]. destruct (IH _ _ eq_refl) as [Hf Hall].
    split; [done|]. intros cs. simpl. rewrite Hall.
    destruct (equals c cs) eqn:Hc; [|done].
    assert (equals (ColorSet_init colormap (st_color_set st)) cs = false) as ->; [|done].
    rewrite <- He. rewrite !(equals_sym (ColorSet_init _ _)).
    symmetry. by apply equals_transfer.
Qed.

Section CounterProperties.
Context `{!Externals}.

Lemma increment_spec (c : ColorSet) (self : DWalletAddressManager) :
  well_formed (colormap self) c →
  let r := increment_max_index_for_color_set c self in
  fst r = highest_index (colormap self) (color_set_states self) c + 1
  ∧ colormap (snd r) = colormap self
  ∧ master_key (snd r) = master_key self
  ∧ m_testnet (snd r) = m_testnet self
  ∧ genesis_color_sets (snd r) = genesis_color_sets self
  ∧ addresses (snd r) = addresses self
  ∧ config (snd r) = config self
  ∧ ∀ cs, highest_index (colormap self) (color_set_states (snd r)) cs =
          if equals c cs
          then highest_index (colormap self) (color_set_states self) cs + 1
          else highest_index (colormap self) (color_set_states self) cs.
Proof.
  intros Hwf. unfold increment_max_index_for_color_set, highest_index.
  destruct (increment_states (colormap self) (color_set_states self) c)
    as [[i states']|] eqn:Hinc; simpl.
  - apply increment_states_Some in Hinc as [Hf Hall].
    rewrite Hf; simpl. split_and!; try done; [lia|].
    intros cs. rewrite Hall. destruct (equals c cs) eqn:Hc; [|done].
    rewrite <- (find_counter_equals _ _ _ _ Hc), Hf. simpl. f_equal. lia.
  - apply increment_states_None in Hinc. rewrite Hinc; simpl.
    split_and!; try done.
    intros cs. rewrite find_counter_app. simpl. unfold get_data.
    rewrite <- Hwf.
    destruct (equals c cs) eqn:Hc.
    + rewrite <- (find_counter_equals _ _ _ _ Hc), Hinc. done.
    + by destruct (find_counter (colormap self) (color_set_states self) cs).
Qed.

Lemma get_new_address_spec (c : ColorSet) (self : DWalletAddressManager) :
  well_formed (colormap self) c →
  let r := get_new_address (AColorSet c) self in
  index (fst r) = highest_index (colormap self) (color_set_states self) c + 1
  ∧ colormap (snd r) = colormap self
  ∧ cfg_dwam (config (snd r)) =
      Some {| p_genesis_color_sets := genesis_color_sets (snd r);
              p_color_set_states := color_set_states (snd r) |}
  ∧ ∀ cs, highest_index (colormap self) (color_set_states (snd r)) cs =
          if equals c cs
          then highest_index (colormap self) (color_set_states self) cs + 1
          else highest_index (colormap self) (color_set_states self) cs.
Proof.
  intros Hwf. unfold get_new_address.
  destruct (increment_spec c self Hwf) as (Hi & Hcm & _ & _ & _ & _ & _ & Hall).
  destruct (increment_max_index_for_color_set c self) as [i self1]; simpl in *.
  by split_and!.
Qed.

Lemma after_allocations_spec (calls : list ColorSet) (self : DWalletAddressManager)
    (cs : ColorSet) :
  Forall (well_formed (colormap self)) calls →
  colormap (after_allocations calls self) = colormap self
  ∧ highest_index (colormap self) (color_set_states (after_allocations calls self)) cs
    = highest_index (colormap self) (color_set_states self) cs
      + Z.of_nat (count_equal cs calls).
Proof.
  revert self. induction calls as [|c calls IH]; intros self Hwf; simpl.
  - split; [done|]. unfold count_equal; simpl. lia.
  - apply Forall_cons in Hwf as [Hc Hwf].
    destruct (get_new_address_spec c self Hc) as (_ & Hcm & _ & Hall).
    rewrite <- Hcm in Hwf. destruct (IH _ Hwf) as [Hcm' Hh].
    rewrite Hcm in Hcm', Hh. split; [done|].
    rewrite Hh, Hall. unfold count_equal. rewrite filter_cons.
    destruct (equals c cs) eqn:He.
    + rewrite decide_True by done. simpl length. lia.
    + rewrite decide_False by (by intros ?). lia.
Qed.

(** C1.  Take a manager with no counter for the ids of [cs], and let
    any allocations [calls] happen, for well-formed color sets of any
    kind.  The next allocation for a color set [c] with the ids of
    [cs] then returns the index [N - 1], where [N - 1] is the number of
    allocations among [calls] that were for these ids (so the first
    returns 0).  When it returns, the configuration holds the
    manager's counters, and the counter found for [c] is the index
    returned. *)
Theorem allocation_counter_monotonicity (self : DWalletAddressManager)
    (cs c : ColorSet) (calls : list ColorSet) :
  (∀ st, st ∈ color_set_states self →
         equals (ColorSet_init (colormap self) (st_color_set st)) cs = false) →
  Forall (well_formed (colormap self)) calls →
  well_formed (colormap self) c →
  equals c cs = true →
  let before := after_allocations calls self in
  let na := fst (get_new_address (AColorSet c) before) in
  let after := snd (get_new_address (AColorSet c) before) in
  index na = Z.of_nat (count_equal cs calls)
  ∧ cfg_dwam (config after) =
      Some {| p_genesis_color_sets := genesis_color_sets after;
              p_color_set_states := color_set_states after |}
  ∧ find_counter (colormap after) (color_set_states after) c = Some (index na).
Proof.
  intros Hnew Hcalls Hc Heq before na after.
  destruct (after_allocations_spec calls self cs Hcalls) as [Hcm Hh].
  fold before in Hcm, Hh.
  assert (Hc' : well_formed (colormap before) c) by (by rewrite Hcm).
  destruct (get_new_address_spec c before Hc') as (Hi & Hcm2 & Hcfg & Hall).
  fold na in Hi. fold after in Hcm2, Hcfg, Hall.
  apply find_counter_None in Hnew.
  assert (Hidx : index na = Z.of_nat (count_equal cs calls)).
  { rewrite Hi. unfold highest_index at 1.
    rewrite (find_counter_equals _ _ _ _ Heq). fold (highest_index (colormap before)
      (color_set_states before) cs). rewrite Hcm, Hh.
    unfold highest_index. rewrite Hnew. simpl. lia. }
  split_and!; [done..|].
  specialize (Hall c). unfold equals in Hall at 1.
  rewrite bool_decide_eq_true_2 in Hall by done.
  rewrite <- Hi in Hall. rewrite Hcm2.
  unfold highest_index in Hall at 1.
  destruct (find_counter (colormap before) (color_set_states after) c) as [n|] eqn:Hf;
    simpl in Hall; [by subst|].
  (* no counter at all would mean index -1: impossible *)
  exfalso. rewrite Hidx in Hall. lia.
Qed.

End CounterProperties.

(** ** Lookups by color set and genesis rebinding *)

Section LookupProperties.
Context `{!Externals}.

Lemma intersects_colorless (cs other : ColorSet) :
  color_id_set cs = ∅ → intersects cs other = false.
Proof.
  intros Hempty. unfold intersects. rewrite Hempty.
  apply bool_decide_eq_false. intros Hne. apply Hne.
  apply (left_absorb_L ∅ (∩)).
Qed.

Lemma get_new_address_adds (a : AssetOrColorSet) (self : DWalletAddressManager) :
  addresses (snd (get_new_address a self)) =
    addresses self ++ [Deterministic (fst (get_new_address a self))].
Proof.
  unfold get_new_address, increment_max_index_for_color_set.
  by destruct (increment_states _ _ _) as [[i states]|].
Qed.

(** C10.  For a query color set without color ids,
    [get_addresses_for_color_set] returns the empty list whatever the
    manager holds; [get_some_address] and [get_change_address] then
    take the allocation branch: they return what [get_new_address]
    returns for that color set, a record that is added to the
    manager's collection as a new member. *)
Theorem colorless_query_allocates (cs : ColorSet) (self : DWalletAddressManager) :
  color_id_set cs = ∅ →
  get_addresses_for_color_set cs self = []
  ∧ get_some_address cs self =
      (Deterministic (fst (get_new_address (AColorSet cs) self)),
       snd (get_new_address (AColorSet cs) self))
  ∧ get_change_address cs self = get_some_address cs self
  ∧ addresses (snd (get_some_address cs self)) =
      addresses self ++ [fst (get_some_address cs self)].
Proof.
  intros Hempty.
  assert (Hnone : get_addresses_for_color_set cs self = []).
  { unfold get_addresses_for_color_set.
    induction (addresses self) as [|a l IH]; [done|].
    rewrite filter_cons, IH, (intersects_colorless cs _ Hempty).
    by rewrite decide_False. }
  assert (Hsome : get_some_address cs self =
      (Deterministic (fst (get_new_address (AColorSet cs) self)),
       snd (get_new_address (AColorSet cs) self))).
  { unfold get_some_address. rewrite Hnone.
    by destruct (get_new_address (AColorSet cs) self). }
  split_and!; [done..|].
  rewrite Hsome. simpl. apply get_new_address_adds.
Qed.

(** C9.  [update_genesis_address] raises [AssertionError] exactly when
    the address carries a color set with some color id, and then
    changes nothing.  When it returns normally, the address object
    carries the new color set (also as the member of the manager's
    collection, when it is one), the slot of [genesis_color_sets] at
    the address's index holds the new descriptors, and the
    configuration holds the manager's lists. *)
Theorem genesis_rebinding_precondition (ref : nat)
    (address : DeterministicAddressRecord) (cs : ColorSet)
    (self : DWalletAddressManager) :
  let r := update_genesis_address ref address cs self in
  (r.1.1 = Raise AssertionError ↔ color_id_set (color_set address) ≠ ∅)
  ∧ (r.1.1 = Raise AssertionError → r.1.2 = address ∧ r.2 = self)
  ∧ (r.1.1 = Ok tt →
       color_set r.1.2 = cs
       ∧ (addresses self !! ref = Some (Deterministic address) →
          addresses r.2 !! ref = Some (Deterministic r.1.2))
       ∧ list_setitem (genesis_color_sets self) (index address) (get_data cs)
           = Some (genesis_color_sets r.2)
       ∧ color_set_states r.2 = color_set_states self
       ∧ cfg_dwam (config r.2) =
           Some {| p_genesis_color_sets := genesis_color_sets r.2;
                   p_color_set_states := color_set_states r.2 |}).
Proof.
  unfold update_genesis_address, is_colorless. simpl.
  case_bool_decide as Hc; simpl.
  - destruct (list_setitem (genesis_color_sets self) (index address) (get_data cs))
      as [g|] eqn:Hset; simpl.
    + split_and!; [split; [done|by intros ?]|done|].
      intros _. split_and!; try done.
      intros Hin. apply list_lookup_insert_eq. by eapply lookup_lt_Some.
    + split_and!; [split; [done|by intros ?]|done|done].
  - split_and!; [done|done|done].
Qed.

End LookupProperties.

(** ** Restart *)

Section RestartProperties.
Context `{!Externals}.

Lemma import_index_loop (cs : ColorSet) (l : list Z) (self : DWalletAddressManager) :
  foldl (fun self index =>
           addresses_add
             (Deterministic
                (DeterministicAddressRecord_init (master_key self) cs index
                   (m_testnet self)))
             self) self l
  = set_addresses
      (addresses self ++
         ((fun i => Deterministic
                      (DeterministicAddressRecord_init (master_key self) cs i
                         (m_testnet self))) <$> l))
      self.
Proof.
  revert self. induction l as [|i l IH]; intros self.
  - destruct self; simpl. unfold set_addresses; simpl. by rewrite app_nil_r.
  - simpl foldl. rewrite IH. destruct self; unfold set_addresses, addresses_add; simpl.
    by rewrite <- app_assoc.
Qed.

Lemma import_states_loop (states : list ColorSetState) (self : DWalletAddressManager) :
  foldl (fun self color_set_st =>
           let color_desc_list := st_color_set color_set_st in
           let max_index := max_index color_set_st in
           let color_set := ColorSet_init (colormap self) color_desc_list in
           foldl (fun self index =>
                    addresses_add
                      (Deterministic
                         (DeterministicAddressRecord_init (master_key self)
                            color_set index (m_testnet self)))
                      self)
                 self (seqZ 0 (max_index + 1)))
        self states
  = set_addresses
      (addresses self ++
         records_of_states (master_key self) (m_testnet self) (colormap self) states)
      self.
Proof.
  revert self. induction states as [|st states IH]; intros self.
  - destruct self; unfold set_addresses, records_of_states; simpl.
    by rewrite app_nil_r.
  - simpl foldl. rewrite import_index_loop, IH.
    destruct self; unfold set_addresses, records_of_states, records_of_state; simpl.
    by rewrite <- app_assoc.
Qed.

Lemma import_loose_loop (l : list LooseParams) (self : DWalletAddressManager) :
  ∃ entries,
    _import_one_off_addresses_from_config (as_addr_params <$> l) self
    = (Ok tt, entries,
       set_addresses
         (addresses self ++ loose_records (m_testnet self) (colormap self) l) self).
Proof.
  revert self. induction l as [|p l IH]; intros self.
  - exists []. destruct self; unfold set_addresses, loose_records; simpl.
    by rewrite app_nil_r.
  - cbn [fmap list_fmap _import_one_off_addresses_from_config add_loose_address
         as_addr_params set_ap_testnet ap_color_set ColorSet_of_arg].
    change (ap_address_data (set_ap_color_set _ _)) with (lp_address_data p).
    destruct (IH (addresses_add
                    (Loose (LooseAddressRecord_init (lp_address_data p)
                              (ColorSet_init (colormap self) (lp_color_set p))
                              (m_testnet self))) self)) as [entries Hentries].
    rewrite Hentries. eexists. f_equal.
    destruct self; unfold set_addresses, loose_records, addresses_add,
      LooseAddressRecord_init; simpl.
    by rewrite <- app_assoc.
Qed.

(** A manager built from a configuration whose genesis registry is
    empty. *)
Lemma init_without_genesis (cm : ColorMap) (cfg : Config)
    (states : list ColorSetState) (mk : string) :
  cfg_dwam cfg = Some {| p_genesis_color_sets := []; p_color_set_states := states |} →
  cfg_dw_master_key cfg = Some mk →
  DWalletAddressManager_init cm cfg =
    Ok {| config := cfg; m_testnet := default false (cfg_testnet cfg);
          colormap := cm;
          addresses :=
            records_of_states mk (default false (cfg_testnet cfg)) cm states
            ++ loose_records (default false (cfg_testnet cfg)) cm
                 (default [] (cfg_addresses cfg));
          master_key := mk; genesis_color_sets := [];
          color_set_states := states |}.
Proof.
  intros Hdwam Hmk.
  unfold DWalletAddressManager_init, DWalletAddressManager_init_with, config_get_addresses.
  rewrite Hdwam, Hmk.
  unfold _import_specific_color_addresses, _import_genesis_addresses.
  simpl. rewrite import_states_loop. simpl.
  match goal with |- context [_import_one_off_addresses_from_config (_ <$> ?l) ?m] =>
    destruct (import_loose_loop l m) as [entries ->] end.
  done.
Qed.

Lemma init_new_wallet_dwam (cfg : Config) :
  cfg_dwam (snd (init_new_wallet cfg)) =
    Some {| p_genesis_color_sets := []; p_color_set_states := [] |}
  ∧ fst (init_new_wallet cfg) =
      {| p_genesis_color_sets := []; p_color_set_states := [] |}
  ∧ cfg_dw_master_key (snd (init_new_wallet cfg)) =
      Some (default urandom_hex (cfg_dw_master_key cfg))
  ∧ cfg_testnet (snd (init_new_wallet cfg)) = cfg_testnet cfg
  ∧ cfg_addresses (snd (init_new_wallet cfg)) = cfg_addresses cfg.
Proof.
  unfold init_new_wallet.
  destruct (cfg_dw_master_key cfg) as [k|] eqn:Hk; simpl; by rewrite ?Hk.
Qed.

Lemma init_fresh_wallet (cm : ColorMap) (cfg : Config) :
  cfg_dwam cfg = None →
  DWalletAddressManager_init cm cfg =
    DWalletAddressManager_init cm (snd (init_new_wallet cfg)).
Proof.
  intros Hnone. destruct (init_new_wallet_dwam cfg) as (Hd & Hp & Hk & Ht & Ha).
  unfold DWalletAddressManager_init, DWalletAddressManager_init_with, config_get_addresses.
  rewrite Hnone, Hd, Hk, Ht, Ha.
  destruct (init_new_wallet cfg) as [p c] eqn:E. simpl in *. by rewrite Hk, Hp.
Qed.

Lemma seqZ_snoc (n : Z) : 0 ≤ n → seqZ 0 (n + 1) = seqZ 0 n ++ [n].
Proof.
  intros Hn. rewrite seqZ_app by lia. by f_equal.
Qed.

Lemma records_of_state_succ mk tn cm descs (n : Z) :
  -1 ≤ n →
  records_of_state mk tn cm {| st_color_set := descs; max_index := n + 1 |} =
    records_of_state mk tn cm {| st_color_set := descs; max_index := n |}
    ++ [Deterministic
          (DeterministicAddressRecord_init mk (ColorSet_init cm descs) (n + 1) tn)].
Proof.
  intros Hn. unfold records_of_state; simpl.
  rewrite (seqZ_snoc (n + 1)) by lia. by rewrite fmap_app.
Qed.

(** The address string of a newly built record is the eagerly derived
    one, and depends on the color set through its scope tag only. *)
Lemma get_address_init mk cs i tn :
  get_address (Deterministic (DeterministicAddressRecord_init mk cs i tn))
  = derive_address mk cs i tn.
Proof. reflexivity. Qed.

Lemma derive_address_scope_tag mk c1 c2 i tn :
  color_string c1 = color_string c2 →
  derive_address mk c1 i tn = derive_address mk c2 i tn.
Proof.
  intros Htag. unfold derive_address, derive_point, derive_scalar, hmac_message.
  by rewrite Htag.
Qed.

Section Palette.
(** The color sets the wallet allocates for: built over the
    manager's color map, and such that two of them with the same ids
    have the same scope tag. *)
Variable cm : ColorMap.
Variable palette : list ColorSet.
Hypothesis palette_wf : Forall (well_formed cm) palette.
Hypothesis palette_canonical :
  ∀ c1 c2, c1 ∈ palette → c2 ∈ palette → equals c1 c2 = true →
           color_string c1 = color_string c2.

Local Abbreviation state_ok := (state_ok cm palette).

Lemma palette_rebuild (c : ColorSet) :
  c ∈ palette → ColorSet_init cm (color_desc_list c) = c.
Proof.
  intros Hin. rewrite Forall_forall in palette_wf.
  symmetry. by apply palette_wf.
Qed.

Lemma increment_states_records mk tn states c i states' :
  Forall state_ok states → c ∈ palette →
  increment_states cm states c = Some (i, states') →
  get_address <$> records_of_states mk tn cm states' ≡ₚ
    (get_address <$> records_of_states mk tn cm states)
    ++ [derive_address mk c i tn]
  ∧ Forall state_ok states'.
Proof.
  intros Hok Hc. revert i states'.
  induction Hok as [|st rest [Hst Hmax] Hrest IH]; intros i states'; simpl; [done|].
  destruct (equals (ColorSet_init cm (st_color_set st)) c) eqn:He.
  - intros [= <- <-].
    assert (Htag : color_string (ColorSet_init cm (st_color_set st)) = color_string c)
      by (by apply palette_canonical).
    split.
    + unfold records_of_states. rewrite !bind_cons.
      rewrite records_of_state_succ by done.
      destruct st as [descs n]; simpl in *.
      rewrite !fmap_app. cbn [fmap list_fmap]. rewrite get_address_init.
      rewrite (derive_address_scope_tag mk _ c _ tn Htag).
      rewrite <- !app_assoc. apply Permutation_app_head, Permutation_app_comm.
    + constructor; [|done]. split; simpl; [done|lia].
  - destruct (increment_states cm rest c) as [[j r]|] eqn:Hinc; [|done].
    intros [= <- <-]. destruct (IH _ _ eq_refl) as [Hperm Hall].
    split.
    + unfold records_of_states in *. rewrite !bind_cons, !fmap_app, Hperm.
      by rewrite app_assoc.
    + by constructor.
Qed.

Local Abbreviation tracks := (tracks cm palette).

Lemma get_new_address_tracks cfg mk tn loose self c :
  tracks cfg mk tn loose self → c ∈ palette →
  tracks cfg mk tn loose (snd (get_new_address (AColorSet c) self)).
Proof.
  intros [Hcfg Htn Hcm Hmk Hgen Haddr Hst] Hc.
  unfold get_new_address, increment_max_index_for_color_set.
  rewrite Hcm.
  destruct (increment_states cm (color_set_states self) c) as [[i states']|] eqn:Hinc;
    simpl.
  - destruct (increment_states_records mk tn _ _ _ _ Hst Hc Hinc) as [Hperm Hall].
    split; simpl; try done.
    + by rewrite Hcfg, Hgen.
    + rewrite !fmap_app, Hperm, Haddr, Hmk, Htn.
      rewrite !fmap_app. cbn [fmap list_fmap]. rewrite get_address_init.
      by rewrite app_assoc.
  - split; simpl; try done.
    + by rewrite Hcfg, Hgen.
    + rewrite fmap_app, Haddr, Hmk, Htn. unfold records_of_states.
      rewrite bind_app, !fmap_app, app_assoc. apply Permutation_app_head.
      simpl. unfold records_of_state; simpl. unfold get_data.
      by rewrite (palette_rebuild c Hc).
    + apply Forall_app. split; [done|]. constructor; [|done].
      split; simpl; [|lia]. unfold get_data. by rewrite (palette_rebuild c Hc).
Qed.

Lemma after_allocations_tracks cfg mk tn loose calls self :
  tracks cfg mk tn loose self → Forall (fun c => c ∈ palette) calls →
  tracks cfg mk tn loose (after_allocations calls self).
Proof.
  intros Htr Hcalls. revert self Htr.
  induction Hcalls as [|c calls Hc _ IH]; intros self Htr; [done|].
  simpl. apply IH. by apply get_new_address_tracks.
Qed.

End Palette.

(** Restart, under the condition the proof needs: the color sets
    allocated for are built over the manager's color map, and those
    with the same ids have the same scope tag. *)
Lemma restart_with_canonical_tags (cm : ColorMap) (config0 : Config)
    (palette calls : list ColorSet) :
  cfg_dwam config0 = None →
  Forall (well_formed cm) palette →
  (∀ c1 c2, c1 ∈ palette → c2 ∈ palette → equals c1 c2 = true →
            color_string c1 = color_string c2) →
  Forall (fun c => c ∈ palette) calls →
  ∃ original fresh,
    DWalletAddressManager_init cm config0 = Ok original
    ∧ DWalletAddressManager_init cm (config (after_allocations calls original)) = Ok fresh
    ∧ master_key fresh = master_key (after_allocations calls original)
    ∧ m_testnet fresh = m_testnet (after_allocations calls original)
    ∧ color_set_states fresh = color_set_states (after_allocations calls original)
    ∧ address_strings fresh = address_strings (after_allocations calls original).
Proof.
  intros Hnone Hwf Hcanon Hcalls.
  destruct (init_new_wallet_dwam config0) as (Hd & _ & Hk & Ht & Ha).
  set (cfg1 := snd (init_new_wallet config0)) in *.
  set (mk := default urandom_hex (cfg_dw_master_key config0)) in *.
  set (tn := default false (cfg_testnet cfg1)).
  set (loose := loose_records tn cm (default [] (cfg_addresses cfg1))).
  pose proof (init_without_genesis cm cfg1 [] mk Hd Hk) as Hinit.
  unfold cfg1 at 1 in Hinit.
  rewrite <- (init_fresh_wallet cm config0 Hnone) in Hinit.
  fold tn loose in Hinit. simpl in Hinit.
  eexists. eexists. split; [exact Hinit|].
  match type of Hinit with _ = Ok ?m => set (original := m) end.
  assert (Htr : tracks cm palette cfg1 mk tn loose original).
  { split; simpl; try done. by rewrite app_nil_r. }
  apply (after_allocations_tracks cm palette Hwf Hcanon _ _ _ _ calls) in Htr;
    [|done].
  destruct Htr as [Hcfg Htn Hcm Hmk Hgen Haddr Hst].
  set (used := after_allocations calls original) in *.
  assert (Hinit' : DWalletAddressManager_init cm (config used) =
            Ok {| config := config used; m_testnet := tn; colormap := cm;
                  addresses := records_of_states mk tn cm (color_set_states used) ++ loose;
                  master_key := mk; genesis_color_sets := [];
                  color_set_states := color_set_states used |}).
  { rewrite (init_without_genesis cm (config used) (color_set_states used) mk).
    - rewrite Hcfg. simpl. by fold tn.
    - by rewrite Hcfg.
    - by rewrite Hcfg. }
  split; [exact Hinit'|]. simpl. split_and!; try done.
  unfold address_strings. simpl. apply list_to_set_perm_L.
  rewrite Haddr. apply fmap_Permutation, Permutation_app_comm.
Qed.

(** C2.  Start from a configuration without wallet state, build the
    manager, and allocate addresses for color sets taken from a
    palette of color sets over the manager's color map, no two of
    which have the same ids.  A manager built afterwards from the
    configuration the first one left behind has the same master key
    and network flag, the same counters, and holds exactly the same
    set of address strings. *)
Theorem restart_round_trip (cm : ColorMap) (config0 : Config)
    (palette calls : list ColorSet) :
  cfg_dwam config0 = None →
  Forall (well_formed cm) palette →
  (∀ c1 c2, c1 ∈ palette → c2 ∈ palette → equals c1 c2 = true → c1 = c2) →
  Forall (fun c => c ∈ palette) calls →
  ∃ original fresh,
    DWalletAddressManager_init cm config0 = Ok original
    ∧ DWalletAddressManager_init cm (config (after_allocations calls original)) = Ok fresh
    ∧ master_key fresh = master_key (after_allocations calls original)
    ∧ m_testnet fresh = m_testnet (after_allocations calls original)
    ∧ color_set_states fresh = color_set_states (after_allocations calls original)
    ∧ address_strings fresh = address_strings (after_allocations calls original).
Proof.
  intros Hnone Hwf Hdistinct Hcalls.
  apply (restart_with_canonical_tags cm config0 palette calls); try done.
  intros c1 c2 H1 H2 Heq. by rewrite (Hdistinct c1 c2 H1 H2 Heq).
Qed.

End RestartProperties.

(** ** Backend selection *)

(** Membership in a list that is written out. *)
Ltac list_member := rewrite ?elem_of_cons; tauto.

Section FactoryProperties.
Context `{!Externals} {Backend TxDb : Type}.

(** C6.  Off testnet, a requested name that is none of the five known
    backends makes [make_interface] raise, and the constructor of the
    fetcher raises with it: no backend object and no fetcher come to
    exist.  On testnet a requested name outside [chromanode],
    [helloblock], [abe_testnet] is replaced by [chromanode]: the
    factory returns a Chromanode backend and does not raise; this
    covers [electrum] and [blockchain.info]. *)
Theorem backend_factory_behavior (model_tn : bool) (params : gmap string PyVal) :
  (model_tn = false → ¬ names (requested params) known_backends →
     make_interface model_tn params = Raise (Exception "Unknown service for UTXOFetcher!")
     ∧ ∀ (server : bool) (connect : Interface → Backend) (m : Model (TxDb := TxDb)),
         model_testnet m = model_tn →
         AsyncUTXOFetcher_init server connect m params =
           Raise (Exception "Unknown service for UTXOFetcher!"))
  ∧ (model_tn = true → ¬ names (requested params) testnet_backends →
       make_interface model_tn params = Ok (ChromanodeInterface None true))
  ∧ (model_tn = true →
       requested params = PStr "electrum" ∨ requested params = PStr "blockchain.info" →
       make_interface model_tn params = Ok (ChromanodeInterface None true))
  ∧ (∀ e, make_interface model_tn params = Raise e →
       model_tn = false ∧ ¬ names (requested params) known_backends).
Proof.
  assert (Hmain : model_tn = false → ¬ names (requested params) known_backends →
     make_interface model_tn params = Raise (Exception "Unknown service for UTXOFetcher!")).
  { intros -> Hunknown. unfold make_interface. fold (requested params).
    repeat (let Hd := fresh "Hd" in
            case_bool_decide as Hd;
            [exfalso; apply Hunknown; eexists; split; [|exact Hd];
             unfold known_backends; list_member|]).
    done. }
  assert (Htest : model_tn = true → ¬ names (requested params) testnet_backends →
       make_interface model_tn params = Ok (ChromanodeInterface None true)).
  { intros -> Hout. unfold make_interface. fold (requested params).
    rewrite (bool_decide_eq_false_2 (requested params ∈ _)); [done|].
    intros Hin. apply Hout. unfold names, testnet_backends.
    rewrite !elem_of_cons, elem_of_nil in Hin.
    destruct Hin as [Hin|[Hin|[Hin|[]]]]; eexists; (split; [|exact Hin]); list_member. }
  split_and!.
  - intros Htn Hunknown. split; [by apply Hmain|].
    intros server connect m Hm. unfold AsyncUTXOFetcher_init.
    rewrite Hm. by rewrite Hmain.
  - done.
  - intros Htn Hreq. apply Htest; [done|].
    intros (name & Hin & Heq). apply list_elem_of_In in Hin. simpl in Hin.
    destruct Hreq as [Hr|Hr]; rewrite Hr in Heq;
      destruct Hin as [<-|[<-|[<-|[]]]]; discriminate.
  - intros e. destruct model_tn.
    + destruct (decide (names (requested params) testnet_backends)) as [Hn|Hn].
      * unfold make_interface. fold (requested params).
        destruct Hn as (name & Hin & Heq). rewrite Heq.
        apply list_elem_of_In in Hin. simpl in Hin.
        destruct Hin as [<-|[<-|[<-|[]]]]; by vm_compute.
      * by rewrite Htest.
    + intros Hr. split; [done|]. intros Hn.
      unfold make_interface in Hr. fold (requested params) in Hr.
      destruct Hn as (name & Hin & Heq). rewrite Heq in Hr.
      apply list_elem_of_In in Hin. simpl in Hin.
      destruct Hin as [<-|[<-|[<-|[<-|[<-|[]]]]]]; by vm_compute in Hr.
Qed.

End FactoryProperties.

(** ** The background fetcher *)

Section FetcherProperties.
Context `{!Externals} {Backend TxDb : Type}.
Variable get_utxo : string → Backend → Result (list string) * Backend.
Variable disconnect : Backend → Backend.
Variable add_tx_by_hash : string → TxDb → bool * TxDb.

Local Abbreviation Fetcher := (AsyncUTXOFetcher (Backend := Backend) (TxDb := TxDb)).
Local Abbreviation update := (update add_tx_by_hash).
Local Abbreviation drain := (drain add_tx_by_hash).
Local Abbreviation scan_address := (scan_address get_utxo).
Local Abbreviation worker_step := (worker_step get_utxo add_tx_by_hash).
Local Abbreviation worker_steps := (worker_steps get_utxo add_tx_by_hash).
Local Abbreviation step := (step get_utxo disconnect add_tx_by_hash).
Local Abbreviation run := (run get_utxo disconnect add_tx_by_hash).

Local Abbreviation store_answers := (store_answers add_tx_by_hash).

Lemma drain_spec (queue : list string) (any : bool) (self : Fetcher) :
  let r := drain queue any self in
  let answers := store_answers queue (tx_db (model self)) in
  r.1 = any || existsb id answers.1
  ∧ hash_queue r.2 = []
  ∧ address_list r.2 = address_list self
  ∧ ingested r.2 = ingested self ++ zip queue answers.1
  ∧ tx_db (model r.2) = answers.2
  ∧ length answers.1 = length queue
  ∧ same_control self r.2.
Proof.
  revert any self. induction queue as [|txhash queue IH]; intros any self; simpl.
  - rewrite orb_false_r, app_nil_r. by repeat split.
  - unfold model_add_tx_by_hash. simpl.
    destruct (add_tx_by_hash txhash (tx_db (model self))) as [got db] eqn:Hadd.
    match goal with |- context [drain queue ?a ?s] => specialize (IH a s) end.
    simpl in IH. destruct (store_answers queue db) as [answers db'] eqn:Hans.
    simpl in *. destruct IH as (H1 & H2 & H3 & H4 & H5 & H6 & H7).
    split_and!; try done.
    + rewrite H1. by rewrite orb_assoc.
    + rewrite H4. by rewrite <- app_assoc.
    + by rewrite H6.
Qed.

Lemma existsb_count_new (answers : list bool) :
  existsb id answers = true ↔ (0 < count_new answers)%nat.
Proof.
  unfold count_new. induction answers as [|[] answers IH].
  - simpl. split; [done|lia].
  - rewrite filter_cons, decide_True by done. simpl. split; [lia|done].
  - rewrite filter_cons, decide_False by done. done.
Qed.

(** C4.  [update()] sets the address list to the address strings of
    the records the address manager holds, empties the queue, feeds
    the queued ids to the store in queue order ([ingested] grows by
    the ids paired with the store's answers), and returns true exactly
    when the store reported at least one of the [k] ids as new
    ([0 < m]). *)
Theorem update_semantics (self : Fetcher) :
  let r := update self in
  let answers := store_answers (hash_queue self) (tx_db (model self)) in
  let k := length (hash_queue self) in
  let m := count_new answers.1 in
  address_list r.2 = get_address <$> get_all_addresses (address_manager (model self))
  ∧ hash_queue r.2 = []
  ∧ ingested r.2 = ingested self ++ zip (hash_queue self) answers.1
  ∧ tx_db (model r.2) = answers.2
  ∧ length answers.1 = k
  ∧ (m ≤ k)%nat
  ∧ (r.1 = true ↔ (0 < m)%nat).
Proof.
  intros r answers k m. subst r. unfold update.
  match goal with |- context [drain ?q ?a ?s] =>
    pose proof (drain_spec q a s) as Hd end.
  subst answers m k. simpl in *.
  destruct Hd as (H1 & H2 & H3 & H4 & H5 & H6 & H7).
  split_and!; try done.
  - rewrite <- H6. unfold count_new. apply length_filter.
  - rewrite H1. simpl. apply existsb_count_new.
Qed.

Local Abbreviation try_block := (try_block get_utxo).
Local Abbreviation sweep := (sweep get_utxo).

Lemma add_utxo_loop (address : string) (txids : list string) (self : Fetcher) :
  foldl (fun self txid => add_utxo address txid self) self txids
  = set_hash_queue (hash_queue self ++ txids) self.
Proof.
  revert self. induction txids as [|txid txids IH]; intros self.
  - destruct self; unfold set_hash_queue; simpl. by rewrite app_nil_r.
  - simpl foldl. rewrite IH. destruct self; unfold set_hash_queue, add_utxo; simpl.
    by rewrite <- app_assoc.
Qed.

Lemma scan_address_frame (address : string) (self : Fetcher) :
  let r := scan_address address self in
  backend_calls r.2 = backend_calls self ++ [CallGetUtxo address]
  ∧ running r.2 = running self ∧ self_draining r.2 = self_draining self
  ∧ printed r.2 = printed self ∧ stopper r.2 = stopper self
  ∧ stop_evt r.2 = stop_evt self ∧ thread r.2 = thread self.
Proof.
  unfold scan_address. destruct (get_utxo address (interface self)) as [[txids|e] i];
    simpl; [|done].
  by rewrite add_utxo_loop.
Qed.

Lemma worker_steps_S (n : nat) (pc : WorkerPc) (self : Fetcher) :
  worker_steps (S n) pc self =
    worker_steps n (worker_step pc self).1 (worker_step pc self).2.
Proof. simpl. by destruct (worker_step pc self). Qed.

Lemma worker_step_scan (a : string) (rest : list string) (self : Fetcher) :
  worker_step (WScan a rest) self =
    match scan_address a self with
    | (Ok _, self) => (WFor rest, self)
    | (Raise e, self) => (WExcept e, self)
    end.
Proof. done. Qed.

Lemma worker_step_for (a : string) (rest : list string) (self : Fetcher) :
  worker_step (WFor (a :: rest)) self =
    if running self then (WScan a rest, self) else (WExited, self).
Proof. done. Qed.

Lemma try_block_cons (a : string) (rest : list string) (self : Fetcher) :
  try_block (a :: rest) self =
    if running self then
      match scan_address a self with
      | (Ok _, self) => try_block rest self
      | (Raise e, self) => (after_try self, print e self)
      end
    else (WExited, self).
Proof. done. Qed.

(** The big-step [try_block] is what the step machine does. *)
Lemma try_block_steps (rest : list string) (self : Fetcher) :
  ∃ n, worker_steps n (WFor rest) self = try_block rest self.
Proof.
  revert self. induction rest as [|a rest IH]; intros self.
  - by exists 1%nat.
  - rewrite try_block_cons. destruct (running self) eqn:Hrun.
    + destruct (scan_address a self) as [[[]|e] s1] eqn:Hscan.
      * destruct (IH s1) as [n Hn]. exists (S (S n)).
        rewrite worker_steps_S, worker_step_for, Hrun. cbn [fst snd].
        rewrite worker_steps_S, worker_step_scan, Hscan. done.
      * exists 3%nat.
        rewrite worker_steps_S, worker_step_for, Hrun. cbn [fst snd].
        rewrite worker_steps_S, worker_step_scan, Hscan. done.
    + exists 1%nat. rewrite worker_steps_S, worker_step_for, Hrun. done.
Qed.

Lemma sweep_steps (self : Fetcher) :
  ∃ n, worker_steps n WSnapshot self = sweep self.
Proof.
  destruct (try_block_steps (address_list self) self) as [n Hn].
  by exists (S n).
Qed.

Lemma update_same_control (self : Fetcher) : same_control self (update self).2.
Proof.
  unfold update.
  match goal with |- context [drain ?q ?a ?s] =>
    pose proof (drain_spec q a s) as Hd end.
  simpl in Hd. by destruct Hd as (_ & _ & _ & _ & _ & _ & H7).
Qed.

Lemma worker_steps_app (n m : nat) (pc : WorkerPc) (s : Fetcher) :
  worker_steps (n + m) pc s
  = worker_steps m (worker_steps n pc s).1 (worker_steps n pc s).2.
Proof.
  revert pc s. induction n as [|n IH]; intros pc s; [done|].
  change (S n + m)%nat with (S (n + m)). rewrite !worker_steps_S. apply IH.
Qed.

Lemma after_scans_nil (s : Fetcher) : after_scans [] [] (interface s) s = s.
Proof. destruct s. unfold after_scans. simpl. by rewrite !app_nil_r. Qed.

Lemma after_scans_app (l1 l2 ids1 ids2 : list string) (i1 i2 : Backend) (s : Fetcher) :
  after_scans l2 ids2 i2 (after_scans l1 ids1 i1 s)
  = after_scans (l1 ++ l2) (ids1 ++ ids2) i2 s.
Proof. unfold after_scans. simpl. by rewrite fmap_app, !app_assoc. Qed.

Lemma scan_address_ok (a : string) (self : Fetcher) (txids : list string) (i : Backend) :
  get_utxo a (interface self) = (Ok txids, i) →
  scan_address a self = (Ok tt, after_scans [a] txids i self).
Proof.
  intros Hget. unfold scan_address. rewrite Hget. by rewrite add_utxo_loop.
Qed.

Lemma scan_address_raise (a : string) (self : Fetcher) (e : Exn) (i : Backend) :
  get_utxo a (interface self) = (Raise e, i) →
  scan_address a self = (Raise e, after_scans [a] [] i self).
Proof.
  intros Hget. unfold scan_address. rewrite Hget. f_equal.
  unfold after_scans, set_interface. simpl. by rewrite app_nil_r.
Qed.

(** The loop over a stretch of addresses on which the backend does not
    raise: two steps of the worker for each. *)
Lemma worker_steps_scans (before rest ids : list string) (i1 : Backend) (self : Fetcher) :
  running self = true →
  replies get_utxo before (interface self) = Some (ids, i1) →
  worker_steps (2 * length before) (WFor (before ++ rest)) self
  = (WFor rest, after_scans before ids i1 self).
Proof.
  revert ids self. induction before as [|a before IH]; intros ids self Hrun.
  - intros [= <- <-]. by rewrite after_scans_nil.
  - cbn [replies]. destruct (get_utxo a (interface self)) as [[txids|e] i] eqn:Hget; [|done].
    destruct (replies get_utxo before i) as [[ids' i']|] eqn:Hrep; [|done].
    intros [= <- <-].
    replace (2 * length (a :: before))%nat with (S (S (2 * length before)))
      by (simpl; lia).
    rewrite <- app_comm_cons, worker_steps_S, worker_step_for, Hrun. cbn [fst snd].
    rewrite worker_steps_S, worker_step_scan, (scan_address_ok _ _ _ _ Hget).
    cbn [fst snd]. rewrite (IH ids' (after_scans [a] txids i self)); [|done|done].
    by rewrite after_scans_app.
Qed.

(** The loop at an address on which the backend raises: the check,
    the call, the handler. *)
Lemma worker_steps_failure (failing : string) (rest : list string) (e : Exn)
    (i2 : Backend) (self : Fetcher) :
  running self = true →
  get_utxo failing (interface self) = (Raise e, i2) →
  worker_steps 3 (WFor (failing :: rest)) self
  = (after_try self, print e (after_scans [failing] [] i2 self)).
Proof.
  intros Hrun Hget.
  rewrite worker_steps_S, worker_step_for, Hrun. cbn [fst snd].
  rewrite worker_steps_S, worker_step_scan, (scan_address_raise _ _ _ _ Hget).
  done.
Qed.

(** From the wait to the next sweep: the loop condition, then the new
    snapshot. *)
Lemma worker_steps_next_sweep (self : Fetcher) :
  running self = true →
  worker_steps 3 WWait self = (WFor (address_list self), self).
Proof.
  intros Hrun. rewrite worker_steps_S. cbn [worker_step fst snd].
  rewrite worker_steps_S. cbn [worker_step]. rewrite Hrun. done.
Qed.

(** *** What one event does *)

Lemma step_start_inv (s s' : Fetcher) :
  step EvStart s = Some s' → thread s = None ∧ s' = set_thread (Some WStart) s.
Proof. simpl. destruct (thread s); [done|]. by intros [= <-]. Qed.

Lemma step_worker_inv (s s' : Fetcher) :
  step EvWorker s = Some s' →
  ∃ pc, thread s = Some pc ∧ pc ≠ WExited
        ∧ s' = set_thread (Some (worker_step pc s).1) (worker_step pc s).2.
Proof.
  simpl. destruct (thread s) as [pc|]; [|done]. intros Hstep.
  exists pc. split; [done|].
  assert (Hpc : pc ≠ WExited) by (intros ->; done). split; [done|].
  destruct (worker_step pc s) as [pc' s1].
  assert (Some s' = Some (set_thread (Some pc') s1)) as [= ->]
    by (rewrite <- Hstep; by destruct pc).
  done.
Qed.

Lemma step_stop_inv_cases (s s' : Fetcher) :
  step EvStop s = Some s' →
  (stopper s = SIdle
   ∧ s' = set_stopper SLocked
            (set_running false
               (set_interface (disconnect (interface s)) CallDisconnect s)))
  ∨ (stopper s = SLocked ∧ s' = set_stopper SSignalled (set_stop_evt true s))
  ∨ (stopper s = SSignalled ∧ thread s = None ∧ s' = set_stopper SRaised s)
  ∨ (stopper s = SSignalled ∧ thread s = Some WExited ∧ s' = set_stopper SReturned s).
Proof.
  simpl. destruct (stopper s); try done.
  - intros [= <-]. by left.
  - intros [= <-]. right. by left.
  - destruct (thread s) as [pc|].
    + destruct pc; try done. intros [= <-]. do 3 right. done.
    + intros [= <-]. do 2 right. left. done.
Qed.

Lemma step_update_inv (s s' : Fetcher) :
  step EvUpdate s = Some s' → s' = (update s).2.
Proof. simpl. by intros [= <-]. Qed.

Lemma step_wallet_inv (wam : DWalletAddressManager) (s s' : Fetcher) :
  step (EvWallet wam) s = Some s' →
  s' = set_model {| model_testnet := model_testnet (model s);
                    address_manager := wam; tx_db := tx_db (model s) |} s.
Proof. simpl. by intros [= <-]. Qed.

(** *** The worker among the other threads *)

Lemma same_backend_refl (s : Fetcher) : same_backend s s.
Proof. by repeat split. Qed.

Lemma worker_step_same_backend (pc : WorkerPc) (s t : Fetcher) :
  same_backend s t → pc ≠ WSnapshot →
  (worker_step pc s).1 = (worker_step pc t).1
  ∧ same_backend (worker_step pc s).2 (worker_step pc t).2.
Proof.
  intros (Hsd & Hi & Hr & Hc & Hp) Hpc. unfold same_backend.
  destruct pc as [| | |[|a rest]|a rest|e| | |]; simpl; try done.
  - rewrite Hr. destruct (running t) eqn:Ht; simpl; split_and!; congruence.
  - unfold after_try. by rewrite Hsd.
  - rewrite Hr. destruct (running t) eqn:Ht; simpl; split_and!; congruence.
  - destruct (get_utxo a (interface s)) as [[txids|e] i] eqn:Hget.
    + rewrite (scan_address_ok a s txids i Hget).
      rewrite Hi in Hget. rewrite (scan_address_ok a t txids i Hget). simpl.
      by rewrite Hc.
    + rewrite (scan_address_raise a s e i Hget).
      rewrite Hi in Hget. rewrite (scan_address_raise a t e i Hget). simpl.
      by rewrite Hc.
  - unfold after_try. rewrite Hsd, Hp. done.
  - destruct (update_same_control s) as (S1 & S2 & S3 & _ & _ & S6 & S7 & _).
    destruct (update_same_control t) as (T1 & T2 & T3 & _ & _ & T6 & T7 & _).
    split; [done|]. rewrite S1, S2, S3, S6, S7, T1, T2, T3, T6, T7. done.
Qed.

(** Steps of [update()] and changes of the wallet in between do not
    change what the worker does inside the [try] statement. *)
Lemma run_follows_worker (evs : list Event) (s t s' : Fetcher) (pc : WorkerPc) :
  Forall is_background_event evs →
  thread s = Some pc → same_backend s t →
  (∀ k, (k < worker_events evs)%nat → in_try (worker_steps k pc t).1) →
  run evs s = Some s' →
  thread s' = Some (worker_steps (worker_events evs) pc t).1
  ∧ same_backend s' (worker_steps (worker_events evs) pc t).2.
Proof.
  intros Hevs. revert s t pc.
  induction Hevs as [|ev evs Hev _ IH]; intros s t pc Hpc Hsame Hpath.
  - by intros [= <-].
  - change (run (ev :: evs) s)
      with (match step ev s with Some s1 => run evs s1 | None => None end).
    destruct (step ev s) as [s1|] eqn:Hstep; [|done]. intros Hrun.
    destruct ev; try done.
    + apply step_worker_inv in Hstep as (pc' & Hpc' & _ & ->).
      assert (pc' = pc) as -> by congruence.
      assert (Hk : worker_events (EvWorker :: evs) = S (worker_events evs)) by done.
      rewrite Hk in *.
      assert (Hin : in_try pc) by (apply (Hpath 0%nat); lia).
      assert (Hns : pc ≠ WSnapshot) by (by intros ->).
      destruct (worker_step_same_backend pc s t Hsame Hns) as [Hpc1 Hsame1].
      rewrite worker_steps_S.
      apply (IH (set_thread (Some (worker_step pc s).1) (worker_step pc s).2)
               (worker_step pc t).2 (worker_step pc t).1); [by rewrite Hpc1|done| |done].
      intros k Hlt. rewrite <- worker_steps_S. apply Hpath. lia.
    + apply step_update_inv in Hstep as ->.
      destruct (update_same_control s) as (S1 & S2 & S3 & _ & S5 & S6 & S7 & _).
      destruct Hsame as (H1 & H2 & H3 & H4 & H5).
      apply (IH (update s).2 t pc); [congruence| |done|done].
      unfold same_backend. rewrite S1, S2, S3, S6, S7. done.
    + apply step_wallet_inv in Hstep as ->.
      by eapply (IH _ t pc); [| | |exact Hrun].
Qed.

(** The positions of the worker on its way through a snapshot in which
    the backend raises. *)
Lemma worker_steps_in_try (before after ids : list string) (failing : string)
    (i1 i2 : Backend) (e : Exn) (self : Fetcher) (k : nat) :
  running self = true →
  replies get_utxo before (interface self) = Some (ids, i1) →
  get_utxo failing i1 = (Raise e, i2) →
  (k < 2 * length before + 3)%nat →
  in_try (worker_steps k (WFor (before ++ failing :: after)) self).1.
Proof.
  revert ids self k. induction before as [|a before IH]; intros ids self k Hrun.
  - intros [= <- <-] Hfail Hk.
    destruct k as [|[|[|k]]]; [done| | |simpl in Hk; lia].
    + cbn [app]. rewrite worker_steps_S, worker_step_for, Hrun. done.
    + cbn [app]. rewrite worker_steps_S, worker_step_for, Hrun. cbn [fst snd].
      rewrite worker_steps_S, worker_step_scan, (scan_address_raise _ _ _ _ Hfail).
      done.
  - cbn [replies]. destruct (get_utxo a (interface self)) as [[txids|e0] i] eqn:Hget; [|done].
    destruct (replies get_utxo before i) as [[ids' i']|] eqn:Hrep; [|done].
    intros [= <- <-] Hfail Hk.
    destruct k as [|[|k]]; [done| |].
    + rewrite <- app_comm_cons, worker_steps_S, worker_step_for, Hrun. done.
    + rewrite <- app_comm_cons, worker_steps_S, worker_step_for, Hrun. cbn [fst snd].
      rewrite worker_steps_S, worker_step_scan, (scan_address_ok _ _ _ _ Hget).
      cbn [fst snd]. apply (IH ids' (after_scans [a] txids i self) k); try done.
      simpl in Hk. lia.
Qed.

(** C3, as the code has it.  Take a sweep that [stop()] does not
    interrupt, over a snapshot in which the backend answers for the
    addresses of [before] and raises [e] for the next one, [failing].
    The worker calls the backend for the addresses of [before] and for
    [failing], in this order, and for no other: the addresses after
    the failing one are not scanned in this sweep.  The ids returned
    for [before] are queued and [e] is printed.  The worker then goes
    on to the wait, after [update()] in the self-draining class (the
    store answers every id it is fed), still running, with no further
    call on the backend and nothing else printed.  After the wait it
    takes a new snapshot and starts a sweep at its first address,
    whatever [update()] or the wallet have made of the address list
    by then.  Steps of [update()] and changes of the wallet that come
    in between the steps of the worker change nothing of this: once
    the snapshot is taken, the calls made on the backend and what is
    printed until the [try] statement is left are the same. *)
Theorem sweep_fault_containment (self : Fetcher) (before after : list string)
    (failing : string) (ids : list string) (i1 i2 : Backend) (e : Exn) :
  running self = true →
  address_list self = before ++ failing :: after →
  replies get_utxo before (interface self) = Some (ids, i1) →
  get_utxo failing i1 = (Raise e, i2) →
  ∃ s1 s2,
    worker_steps (2 * length before + 4) WSnapshot self = (after_try self, s1)
    ∧ backend_calls s1 = backend_calls self ++ (CallGetUtxo <$> before ++ [failing])
    ∧ printed s1 = printed self ++ [e]
    ∧ hash_queue s1 = hash_queue self ++ ids
    ∧ interface s1 = i2
    ∧ worker_steps (if self_draining self then 1 else 0) (after_try self) s1 = (WWait, s2)
    ∧ s2 = (if self_draining self then (update s1).2 else s1)
    ∧ running s2 = true
    ∧ backend_calls s2 = backend_calls s1
    ∧ printed s2 = printed s1
    ∧ worker_steps 3 WWait s2 = (WFor (address_list s2), s2)
    ∧ address_list s2 =
        (if self_draining self
         then get_address <$> get_all_addresses (address_manager (model self))
         else before ++ failing :: after)
    ∧ (∀ s : Fetcher, running s = true →
         worker_steps 3 WWait s = (WFor (address_list s), s))
    ∧ ∀ (s s' : Fetcher) (evs : list Event),
        thread s = Some (WFor (before ++ failing :: after)) →
        same_backend s self →
        Forall is_background_event evs →
        worker_events evs = (2 * length before + 3)%nat →
        run evs s = Some s' →
        thread s' = Some (after_try self)
        ∧ backend_calls s' = backend_calls self ++ (CallGetUtxo <$> before ++ [failing])
        ∧ printed s' = printed self ++ [e]
        ∧ interface s' = i2
        ∧ running s' = true.
Proof.
  intros Hrun Hlist Hrep Hfail.
  set (s0 := after_scans before ids i1 self).
  set (s1 := print e (after_scans [failing] [] i2 s0)).
  assert (Hfor : worker_steps (2 * length before + 3) (WFor (before ++ failing :: after)) self
                 = (after_try self, s1)).
  { rewrite worker_steps_app.
    rewrite (worker_steps_scans before (failing :: after) ids i1 self Hrun Hrep).
    cbn [fst snd]. fold s0.
    by rewrite (worker_steps_failure failing after e i2 s0 Hrun Hfail). }
  assert (Hsweep : worker_steps (2 * length before + 4) WSnapshot self = (after_try self, s1)).
  { replace (2 * length before + 4)%nat with (1 + (2 * length before + 3))%nat by lia.
    rewrite (worker_steps_app 1). cbn [worker_steps worker_step fst snd].
    by rewrite Hlist. }
  assert (Hcalls : backend_calls s1
                   = backend_calls self ++ (CallGetUtxo <$> before ++ [failing])).
  { unfold s1, s0. simpl. by rewrite <- app_assoc, fmap_app. }
  assert (Hamong : ∀ (s s' : Fetcher) (evs : list Event),
            thread s = Some (WFor (before ++ failing :: after)) →
            same_backend s self →
            Forall is_background_event evs →
            worker_events evs = (2 * length before + 3)%nat →
            run evs s = Some s' →
            thread s' = Some (after_try self)
            ∧ backend_calls s' = backend_calls self ++ (CallGetUtxo <$> before ++ [failing])
            ∧ printed s' = printed self ++ [e]
            ∧ interface s' = i2
            ∧ running s' = true).
  { intros s s' evs Hth Hsame Hevs Hn Hrun'.
    destruct (run_follows_worker evs s self s' _ Hevs Hth Hsame) as [Hpc Hview];
      [|done|].
    - intros k Hk. rewrite Hn in Hk.
      by apply (worker_steps_in_try before after ids failing i1 i2 e).
    - rewrite Hn, Hfor in Hpc, Hview. cbn [fst snd] in *.
      destruct Hview as (_ & V2 & V3 & V4 & V5).
      rewrite V2, V3, V4, V5, Hcalls. by split_and!. }
  destruct (self_draining self) eqn:Hsd.
  - destruct (update_same_control s1) as (_ & _ & Hr & _ & _ & Hc & Hp & _ & Hm & _).
    exists s1, (update s1).2. split_and!; try done.
    + unfold s1, s0. simpl. by rewrite app_nil_r.
    + unfold after_try. rewrite Hsd. by rewrite worker_steps_S.
    + by rewrite Hr.
    + apply worker_steps_next_sweep. by rewrite Hr.
    + unfold update at 1.
      match goal with |- context [drain ?q ?a ?s] =>
        pose proof (drain_spec q a s) as Hd end.
      simpl in Hd. destruct Hd as (_ & _ & Ha & _). exact Ha.
    + apply worker_steps_next_sweep.
  - exists s1, s1. split_and!; try done.
    + unfold s1, s0. simpl. by rewrite app_nil_r.
    + unfold after_try. by rewrite Hsd.
    + by apply worker_steps_next_sweep.
    + apply worker_steps_next_sweep.
Qed.

(** *** Stopping *)

Lemma worker_step_frame (pc : WorkerPc) (self : Fetcher) :
  let r := worker_step pc self in
  stopper r.2 = stopper self
  ∧ stop_evt r.2 = stop_evt self
  ∧ (CallDisconnect ∈ backend_calls self → CallDisconnect ∈ backend_calls r.2)
  ∧ (r.1 = WExited → pc ≠ WExited → running r.2 = false).
Proof.
  destruct pc as [| | |[|a rest]|a rest|e| | |]; simpl;
    try (split_and!; done).
  - destruct (running self) eqn:Hrun; by split_and!.
  - unfold after_try. destruct (self_draining self); by split_and!.
  - destruct (running self) eqn:Hrun; by split_and!.
  - pose proof (scan_address_frame a self) as (Hc & _ & _ & _ & Hs & He & _).
    destruct (scan_address a self) as [[[]|e] s1]; simpl in *;
      (split_and!; [done|done| |done]);
      intros Hin; rewrite Hc; apply elem_of_app; by left.
  - unfold after_try. destruct (self_draining self); by split_and!.
  - destruct (update_same_control self) as (_ & _ & _ & He & _ & Hc & _ & Hs & _).
    split_and!; [done|done|by rewrite Hc|done].
Qed.

Lemma step_stop_inv (ev : Event) (s s' : Fetcher) :
  stop_inv s → step ev s = Some s' → stop_inv s'.
Proof.
  intros [Hd He Hj Hx] Hstep. destruct ev; simpl in Hstep.
  - (* start_thread *)
    destruct (thread s) eqn:Ht; [done|]. injection Hstep as <-.
    split; simpl; try done. intros Hr. by specialize (Hj Hr).
  - (* a step of the worker *)
    destruct (thread s) as [pc|] eqn:Ht; [|done].
    assert (Hpc : pc ≠ WExited) by (by intros ->).
    pose proof (worker_step_frame pc s) as (Hs & Hev & Hc & Hex).
    destruct (worker_step pc s) as [pc' s1] eqn:Hw; simpl in *.
    assert (Some s' = Some (set_thread (Some pc') s1)) as [= ->]
      by (rewrite <- Hstep; by destruct pc).
    split; simpl.
    + rewrite Hs. auto.
    + rewrite Hs, Hev. auto.
    + rewrite Hs. intros Hr. specialize (Hj Hr). congruence.
    + intros [= ->]. auto.
  - (* a step of stop() *)
    destruct (stopper s) eqn:Hst; try done.
    + injection Hstep as <-. split; simpl; try done.
      intros _. apply elem_of_app. right. by left.
    + injection Hstep as <-.
      split; simpl; intros;
        first [done | by apply Hd | by apply He | by apply Hx | congruence].
    + destruct (thread s) as [pc|] eqn:Ht.
      * destruct pc; try discriminate Hstep. injection Hstep as <-.
        split; simpl; intros;
          first [done | by apply Hd | by apply He | by apply Hx | congruence].
      * injection Hstep as <-.
        split; simpl; intros;
          first [done | by apply Hd | by apply He | by apply Hx | congruence].
  - (* update() *)
    injection Hstep as <-.
    destruct (update_same_control s) as (_ & _ & Hr & Hev & Ht & Hc & _ & Hs & _).
    split; rewrite ?Hs, ?Hc, ?Hev, ?Ht, ?Hr; done.
  - (* the wallet changes *)
    injection Hstep as <-. by split.
Qed.

Lemma run_stop_inv (evs : list Event) (s s' : Fetcher) :
  stop_inv s → run evs s = Some s' → stop_inv s'.
Proof.
  revert s. induction evs as [|ev evs IH]; intros s Hinv; simpl.
  - by intros [= <-].
  - destruct (step ev s) as [s1|] eqn:Hstep; [|done].
    apply IH. by eapply step_stop_inv.
Qed.

(** Once [stop()] has returned nothing calls the backend any more. *)
Lemma step_after_return (ev : Event) (s s' : Fetcher) :
  stopper s = SReturned → thread s = Some WExited → step ev s = Some s' →
  stopper s' = SReturned ∧ thread s' = Some WExited
  ∧ backend_calls s' = backend_calls s.
Proof.
  intros Hs Ht Hstep. destruct ev; simpl in Hstep;
    rewrite ?Hs, ?Ht in Hstep; try done.
  - injection Hstep as <-.
    destruct (update_same_control s) as (_ & _ & _ & _ & Ht' & Hc & _ & Hs' & _).
    by rewrite Hs', Ht', Hc.
  - by injection Hstep as <-.
Qed.

Lemma run_after_return (evs : list Event) (s s' : Fetcher) :
  stopper s = SReturned → thread s = Some WExited → run evs s = Some s' →
  backend_calls s' = backend_calls s.
Proof.
  revert s. induction evs as [|ev evs IH]; intros s Hs Ht; simpl.
  - by intros [= <-].
  - destruct (step ev s) as [s1|] eqn:Hstep; [|done].
    destruct (step_after_return _ _ _ Hs Ht Hstep) as (Hs1 & Ht1 & Hc1).
    intros Hrun. rewrite <- Hc1. by apply IH.
Qed.

(** C5.  Take a fetcher as its constructor builds it and let the
    worker, the caller of [stop()], callers of [update()] and the
    wallet act in any order.  In a state where [stop()] has returned,
    the worker thread has returned, [running] is cleared, the stop
    event is set and the backend was disconnected; and whatever
    happens afterwards, the list of calls made on the backend stays
    as it is. *)
Theorem stop_safety (server : bool) (connect : Interface → Backend)
    (m : Model (TxDb := TxDb)) (params : gmap string PyVal)
    (self0 self : Fetcher) (evs : list Event) :
  AsyncUTXOFetcher_init server connect m params = Ok self0 →
  run evs self0 = Some self →
  stopper self = SReturned →
  thread self = Some WExited
  ∧ running self = false
  ∧ stop_evt self = true
  ∧ CallDisconnect ∈ backend_calls self
  ∧ ∀ later self', run later self = Some self' →
      backend_calls self' = backend_calls self.
Proof.
  intros Hinit Hrun Hret.
  assert (Hinv0 : stop_inv self0).
  { unfold AsyncUTXOFetcher_init in Hinit.
    destruct (make_interface (model_testnet m) params); [|done].
    injection Hinit as <-. by split. }
  destruct (run_stop_inv _ _ _ Hinv0 Hrun) as [Hd He Hj Hx].
  assert (Ht : thread self = Some WExited) by auto.
  split_and!.
  - done.
  - by apply Hx.
  - apply He; by rewrite Hret.
  - apply Hd. by rewrite Hret.
  - intros later self'. by apply run_after_return.
Qed.

End FetcherProperties.

(** * Further properties *)

(** ** Lookup by address string *)

Section LookupByAddress.
Context `{!Externals}.

Lemma find_loop_None (a : string) (l : list AddressRecord) :
  find_address_record_loop a l = None ↔ a ∉ get_address <$> l.
Proof.
  induction l as [|r l IH]; simpl.
  - split; [intros _; apply not_elem_of_nil|done].
  - rewrite not_elem_of_cons. case_bool_decide as Hr.
    + split; [done|]. intros [Hne _]. by destruct Hne.
    + rewrite IH. split; [by intros ?|by intros [_ ?]].
Qed.

Lemma find_loop_Some (a : string) (l : list AddressRecord) (r : AddressRecord) :
  find_address_record_loop a l = Some r →
  ∃ i, l !! i = Some r ∧ get_address r = a
       ∧ ∀ j r', (j < i)%nat → l !! j = Some r' → get_address r' ≠ a.
Proof.
  induction l as [|r0 l IH]; simpl; [done|].
  case_bool_decide as Hr.
  - intros [= <-]. exists 0%nat. split_and!; [done..|]. intros j r' Hj. lia.
  - intros Hfind. destruct (IH Hfind) as (i & Hi & Ha & Hfirst).
    exists (S i). split_and!; [done..|].
    intros [|j] r' Hj; simpl.
    + by intros [= <-].
    + apply Hfirst. lia.
Qed.

Lemma find_loop_member (a : string) (l : list AddressRecord) :
  a ∈ get_address <$> l →
  ∃ r, find_address_record_loop a l = Some r ∧ get_address r = a.
Proof.
  intros Hin. destruct (find_address_record_loop a l) as [r|] eqn:Hfind.
  - exists r. split; [done|]. by destruct (find_loop_Some _ _ _ Hfind) as (_ & _ & ? & _).
  - by apply find_loop_None in Hfind.
Qed.

(** X1.  [find_address_record] returns [None] exactly when no record
    of the manager has the address string asked for; what it returns
    otherwise is a record of the manager with that address string, the
    first one in the order of the collection. *)
Theorem find_address_record_first_match (a : string) (self : DWalletAddressManager) :
  (find_address_record a self = None ↔ a ∉ get_address <$> addresses self)
  ∧ ∀ r, find_address_record a self = Some r →
      ∃ i, addresses self !! i = Some r ∧ get_address r = a
           ∧ ∀ j r', (j < i)%nat → addresses self !! j = Some r' → get_address r' ≠ a.
Proof.
  split; [apply find_loop_None|]. intros r. apply find_loop_Some.
Qed.

Lemma get_new_genesis_address_adds (self : DWalletAddressManager) :
  addresses (get_new_genesis_address self).2 =
    addresses self ++ [Deterministic (get_new_genesis_address self).1].
Proof. done. Qed.

Lemma add_loose_address_adds (p : AddrParams) (self : DWalletAddressManager)
    (address : AddressRecord) :
  (add_loose_address p self).1.1 = Ok address →
  addresses (add_loose_address p self).2 = addresses self ++ [address].
Proof.
  unfold add_loose_address.
  destruct (ColorSet_of_arg _ _) as [cs|e]; [|done]. by intros [= <-].
Qed.

Lemma find_after_add (l : list AddressRecord) (r : AddressRecord) :
  ∃ r', find_address_record_loop (get_address r) (l ++ [r]) = Some r'
        ∧ get_address r' = get_address r.
Proof.
  apply find_loop_member. rewrite fmap_app. apply elem_of_app. right.
  apply list_elem_of_singleton. done.
Qed.

(** X2.  Whatever one of [get_new_address], [get_new_genesis_address]
    and [add_loose_address] returns can be found afterwards by its
    address string: [find_address_record] returns a record with that
    address string.  [add_loose_address] returns when its argument
    holds a descriptor list. *)
Theorem find_address_record_after_insert (self : DWalletAddressManager)
    (a : AssetOrColorSet) (p : AddrParams) :
  (∃ r, find_address_record (get_address (Deterministic (get_new_address a self).1))
          (get_new_address a self).2 = Some r
        ∧ get_address r = get_address (Deterministic (get_new_address a self).1))
  ∧ (∃ r, find_address_record (get_address (Deterministic (get_new_genesis_address self).1))
            (get_new_genesis_address self).2 = Some r
          ∧ get_address r = get_address (Deterministic (get_new_genesis_address self).1))
  ∧ (∀ address, (add_loose_address p self).1.1 = Ok address →
       ∃ r, find_address_record (get_address address)
              (add_loose_address p self).2 = Some r
            ∧ get_address r = get_address address)
  ∧ (is_raw p → ∃ address, (add_loose_address p self).1.1 = Ok address).
Proof.
  unfold find_address_record. split_and!.
  - rewrite get_new_address_adds. apply find_after_add.
  - rewrite get_new_genesis_address_adds. apply find_after_add.
  - intros address Hok. rewrite (add_loose_address_adds _ _ _ Hok).
    apply find_after_add.
  - unfold is_raw, add_loose_address. destruct p as [data [descs|cs] tn]; simpl; [|done].
    intros _. by eexists.
Qed.

End LookupByAddress.

(** ** Genesis addresses *)

Lemma list_setitem_last {A} (l : list A) (x v : A) :
  list_setitem (l ++ [x]) (Z.of_nat (length l)) v = Some (l ++ [v]).
Proof.
  unfold list_setitem. rewrite length_app. simpl.
  rewrite bool_decide_eq_true_2 by lia. f_equal.
  rewrite Nat2Z.id, insert_app_r_alt by lia. by rewrite Nat.sub_diag.
Qed.

Lemma list_setitem_length {A} (l l' : list A) (i : Z) (v : A) :
  list_setitem l i v = Some l' → length l' = length l.
Proof.
  unfold list_setitem. repeat case_bool_decide; intros [= <-]; try done;
    by rewrite length_insert.
Qed.

Section GenesisProperties.
Context `{!Externals}.

Lemma update_genesis_address_ok (ref : nat) (address : DeterministicAddressRecord)
    (cs : ColorSet) (self : DWalletAddressManager) (g : list (list string)) :
  color_id_set (color_set address) = ∅ →
  list_setitem (genesis_color_sets self) (index address) (get_data cs) = Some g →
  update_genesis_address ref address cs self =
    (Ok tt, set_color_set cs address,
     update_config
       (set_genesis_color_sets g
          (set_addresses
             (<[ref := Deterministic (set_color_set cs address)]> (addresses self))
             self))).
Proof.
  intros Hc Hset. unfold update_genesis_address, is_colorless.
  rewrite bool_decide_eq_true_2 by done. simpl. by rewrite Hset.
Qed.

(** X3.  [get_new_genesis_address] returns a colorless record whose
    index is the number of genesis slots there were; it appends an
    empty slot to [genesis_color_sets], writes the lists to the
    configuration and adds the record to the collection.  Binding that
    record to a color set with [update_genesis_address] then returns
    normally: the new slot holds the color set's descriptors, the
    member of the collection carries the color set, and the
    configuration holds the lists.  If the color set has color ids, a
    second binding of the same record raises [AssertionError]. *)
Theorem genesis_address_issue_flow (self : DWalletAddressManager) (cs cs' : ColorSet) :
  let address := (get_new_genesis_address self).1 in
  let self1 := (get_new_genesis_address self).2 in
  let ref := length (addresses self) in
  let bound := update_genesis_address ref address cs self1 in
  index address = Z.of_nat (length (genesis_color_sets self))
  ∧ color_id_set (color_set address) = ∅
  ∧ genesis_color_sets self1 = genesis_color_sets self ++ [[]]
  ∧ addresses self1 = addresses self ++ [Deterministic address]
  ∧ cfg_dwam (config self1) =
      Some {| p_genesis_color_sets := genesis_color_sets self1;
              p_color_set_states := color_set_states self1 |}
  ∧ bound.1.1 = Ok tt
  ∧ genesis_color_sets bound.2 = genesis_color_sets self ++ [get_data cs]
  ∧ addresses bound.2 = addresses self ++ [Deterministic (set_color_set cs address)]
  ∧ cfg_dwam (config bound.2) =
      Some {| p_genesis_color_sets := genesis_color_sets bound.2;
              p_color_set_states := color_set_states bound.2 |}
  ∧ (color_id_set cs ≠ ∅ →
     (update_genesis_address ref bound.1.2 cs' bound.2).1.1 = Raise AssertionError).
Proof.
  intros address self1 ref bound.
  assert (Hidx : index address = Z.of_nat (length (genesis_color_sets self))) by done.
  assert (Hcol : color_id_set (color_set address) = ∅) by done.
  assert (Hgen : genesis_color_sets self1 = genesis_color_sets self ++ [[]]) by done.
  assert (Hadd : addresses self1 = addresses self ++ [Deterministic address]) by done.
  assert (Hset : list_setitem (genesis_color_sets self1) (index address) (get_data cs)
                 = Some (genesis_color_sets self ++ [get_data cs])).
  { rewrite Hgen, Hidx. apply list_setitem_last. }
  assert (Hbound : bound = _) by apply (update_genesis_address_ok _ _ _ _ _ Hcol Hset).
  rewrite Hbound. cbn [fst snd].
  split_and!; try done.
  - transitivity (<[ref := Deterministic (set_color_set cs address)]> (addresses self1));
      [done|].
    rewrite Hadd. unfold ref. rewrite insert_app_r_alt by lia. by rewrite Nat.sub_diag.
  - intros Hne. unfold update_genesis_address, is_colorless. simpl.
    by rewrite bool_decide_eq_false_2.
Qed.

Lemma colorless_scope_tag (c : ColorSet) :
  get_data c = [] → color_string c = "genesis block".
Proof. intros Hd. unfold color_string. by rewrite Hd. Qed.

(** X4.  An address allocated for a color set without descriptors is
    derived under the genesis scope tag: the record [get_new_address]
    returns has the address string of the genesis address with the
    same index. *)
Theorem colorless_allocation_is_genesis_address (self : DWalletAddressManager)
    (c : ColorSet) :
  get_data c = [] →
  let na := (get_new_address (AColorSet c) self).1 in
  get_address (Deterministic na)
  = get_address (Deterministic (get_genesis_address (index na) self)).
Proof.
  intros Hd na. subst na.
  assert (Htag : color_string c = color_string (ColorSet_init (colormap self) []))
    by (by rewrite (colorless_scope_tag c Hd)).
  unfold get_new_address, increment_max_index_for_color_set, get_genesis_address.
  destruct (increment_states (colormap self) (color_set_states self) c)
    as [[i states]|]; simpl.
  - exact (derive_address_scope_tag (master_key self) c
             (ColorSet_init (colormap self) []) i (m_testnet self) Htag).
  - exact (derive_address_scope_tag (master_key self) c
             (ColorSet_init (colormap self) []) 0 (m_testnet self) Htag).
Qed.

Lemma intersects_self (c : ColorSet) :
  color_id_set c ≠ ∅ → intersects c c = true.
Proof.
  intros Hne. unfold intersects. apply bool_decide_eq_true.
  by rewrite (idemp_L (∩)).
Qed.

(** X5.  When some record of the manager shares a color id with the
    query, [get_some_address] returns such a record and leaves the
    manager as it is: no counter moves and nothing is written.  In
    particular, once an address was allocated for a color set with
    color ids, [get_some_address] for that color set does not allocate
    again. *)
Theorem get_some_address_reuses (cs : ColorSet) (self : DWalletAddressManager) :
  (get_addresses_for_color_set cs self ≠ [] →
     (get_some_address cs self).2 = self
     ∧ (get_some_address cs self).1 ∈ addresses self
     ∧ intersects cs (get_color_set (get_some_address cs self).1) = true)
  ∧ (color_id_set cs ≠ ∅ →
     let self1 := (get_new_address (AColorSet cs) self).2 in
     (get_some_address cs self1).2 = self1
     ∧ (get_change_address cs self1).2 = self1).
Proof.
  assert (Hreuse : ∀ m : DWalletAddressManager,
    get_addresses_for_color_set cs m ≠ [] →
     (get_some_address cs m).2 = m
     ∧ (get_some_address cs m).1 ∈ addresses m
     ∧ intersects cs (get_color_set (get_some_address cs m).1) = true).
  { intros m Hne. unfold get_some_address.
    destruct (get_addresses_for_color_set cs m) as [|a acs] eqn:Hacs; [done|].
    simpl. split; [done|].
    assert (Hin : a ∈ get_addresses_for_color_set cs m) by (rewrite Hacs; by left).
    unfold get_addresses_for_color_set in Hin.
    by apply list_elem_of_filter in Hin as [? ?]. }
  split; [apply Hreuse|].
  intros Hne self1.
  assert (Hacs : get_addresses_for_color_set cs self1 ≠ []).
  { unfold get_addresses_for_color_set, self1. rewrite get_new_address_adds.
    rewrite filter_app. intros Hnil. apply app_eq_nil in Hnil as [_ Hnil].
    rewrite filter_cons in Hnil. rewrite decide_True in Hnil; [done|].
    simpl. unfold get_new_address, increment_max_index_for_color_set.
    destruct (increment_states _ _ _) as [[i states]|]; simpl;
      by apply intersects_self. }
  unfold get_change_address. by destruct (Hreuse self1 Hacs) as [-> _].
Qed.

End GenesisProperties.

(** ** Loading a wallet *)

Section LoadProperties.
Context `{!Externals}.

Lemma import_genesis_loop (g : nat → nat) (l : list (list string))
    (self : DWalletAddressManager) :
  foldl (fun self '(i, color_desc_list) =>
           let addr := get_genesis_address (Z.of_nat i) self in
           let addr := set_color_set (ColorSet_init (colormap self) color_desc_list) addr in
           addresses_add (Deterministic addr) self)
        self (imap (fun i x => (g i, x)) l)
  = set_addresses
      (addresses self ++
         imap (fun i descs =>
                 Deterministic
                   (set_color_set (ColorSet_init (colormap self) descs)
                      (DeterministicAddressRecord_init (master_key self)
                         (ColorSet_init (colormap self) []) (Z.of_nat (g i))
                         (m_testnet self))))
              l)
      self.
Proof.
  revert g self. induction l as [|x l IH]; intros g self.
  - destruct self; unfold set_addresses; simpl. by rewrite app_nil_r.
  - rewrite !imap_cons. simpl foldl. unfold compose.
    rewrite (IH (fun i => g (S i))).
    destruct self; unfold set_addresses, addresses_add, get_genesis_address; simpl.
    by rewrite <- app_assoc.
Qed.

(** A manager built from a configuration that holds wallet state and a
    master key. *)
Lemma init_with_state (cm : ColorMap) (cfg : Config) (p : DwamParams) (mk : string) :
  cfg_dwam cfg = Some p →
  cfg_dw_master_key cfg = Some mk →
  DWalletAddressManager_init cm cfg =
    Ok {| config := cfg; m_testnet := default false (cfg_testnet cfg);
          colormap := cm;
          addresses :=
            genesis_records mk (default false (cfg_testnet cfg)) cm (p_genesis_color_sets p)
            ++ records_of_states mk (default false (cfg_testnet cfg)) cm
                 (p_color_set_states p)
            ++ loose_records (default false (cfg_testnet cfg)) cm
                 (default [] (cfg_addresses cfg));
          master_key := mk; genesis_color_sets := p_genesis_color_sets p;
          color_set_states := p_color_set_states p |}.
Proof.
  intros Hdwam Hmk.
  unfold DWalletAddressManager_init, DWalletAddressManager_init_with, config_get_addresses.
  rewrite Hdwam, Hmk.
  unfold _import_specific_color_addresses, _import_genesis_addresses.
  cbn [genesis_color_sets].
  change (imap pair (p_genesis_color_sets p))
    with (imap (fun i x => (id i, x)) (p_genesis_color_sets p)).
  rewrite import_genesis_loop. cbn [color_set_states set_addresses].
  rewrite import_states_loop.
  match goal with |- context [_import_one_off_addresses_from_config (_ <$> ?l) ?m] =>
    destruct (import_loose_loop l m) as [entries ->] end.
  unfold set_addresses, genesis_records. simpl.
  by rewrite <- app_assoc.
Qed.










End LoadProperties.

(** ** Counters *)

Lemma increment_states_ids colormap states c i states' :
  increment_states colormap states c = Some (i, states') →
  counter_ids colormap states' = counter_ids colormap states.
Proof.
  revert i states'. induction states as [|st rest IH]; intros i states'; simpl; [done|].
  destruct (equals (ColorSet_init colormap (st_color_set st)) c).
  - by intros [= <- <-].
  - destruct (increment_states colormap rest c) as [[j r]|] eqn:Hinc; [|done].
    intros [= <- <-]. unfold counter_ids in *. simpl. f_equal. by eapply IH.
Qed.

Lemma find_counter_None_ids colormap states c :
  find_counter colormap states c = None → color_id_set c ∉ counter_ids colormap states.
Proof.
  rewrite find_counter_None. intros Hnone Hin.
  unfold counter_ids in Hin. apply list_elem_of_fmap in Hin as (st & Heq & Hst).
  specialize (Hnone st Hst). unfold equals in Hnone.
  apply bool_decide_eq_false in Hnone. by apply Hnone.
Qed.

Section CounterInvariants.
Context `{!Externals}.

Lemma get_new_address_keeps_distinct (c : ColorSet) (self : DWalletAddressManager) :
  well_formed (colormap self) c →
  NoDup (counter_ids (colormap self) (color_set_states self)) →
  NoDup (counter_ids (colormap self)
           (color_set_states (get_new_address (AColorSet c) self).2)).
Proof.
  intros Hwf Hnd. unfold get_new_address, increment_max_index_for_color_set.
  destruct (increment_states (colormap self) (color_set_states self) c)
    as [[i states']|] eqn:Hinc; simpl.
  - by rewrite (increment_states_ids _ _ _ _ _ Hinc).
  - apply increment_states_None, find_counter_None_ids in Hinc.
    unfold counter_ids in *. rewrite fmap_app. apply NoDup_app. split_and!; [done| |].
    + intros ids Hin Hin2.
      apply list_elem_of_fmap in Hin2 as (st & -> & Hst).
      apply list_elem_of_singleton in Hst. subst st. cbn [st_color_set] in Hin.
      unfold get_data in Hin. by rewrite <- Hwf in Hin.
    + simpl. apply NoDup_singleton.
Qed.

(** X7.  Allocations keep one counter per set of color ids, and no
    counter ever goes down: if the counters of a manager have pairwise
    different color ids, they still have after any allocations for
    color sets built over its color map, and the highest index
    recorded for any color set is then at least what it was. *)
Theorem counters_stay_distinct_and_grow (self : DWalletAddressManager)
    (calls : list ColorSet) :
  Forall (well_formed (colormap self)) calls →
  NoDup (counter_ids (colormap self) (color_set_states self)) →
  NoDup (counter_ids (colormap self)
           (color_set_states (after_allocations calls self)))
  ∧ ∀ cs, highest_index (colormap self) (color_set_states self) cs
          ≤ highest_index (colormap self)
              (color_set_states (after_allocations calls self)) cs.
Proof.
  intros Hwf Hnd. split.
  - revert self Hwf Hnd. induction calls as [|c calls IH]; intros self Hwf Hnd; [done|].
    apply Forall_cons in Hwf as [Hc Hwf]. simpl.
    destruct (get_new_address_spec c self Hc) as (_ & Hcm & _ & _).
    rewrite <- Hcm. apply IH; rewrite Hcm; [done|].
    by apply get_new_address_keeps_distinct.
  - intros cs. destruct (after_allocations_spec calls self cs Hwf) as [_ ->]. lia.
Qed.

End CounterInvariants.

(** ** The message under the HMAC *)

Lemma hex_digit_not_bar (n : N) : hex_digit n ≠ "|"%char.
Proof.
  destruct n as [|p]; [discriminate|].
  do 4 (destruct p as [p|p|]; try discriminate).
Qed.

Lemma hexdigest_no_bar (digest : list byte) : no_bar (hexdigest digest).
Proof.
  induction digest as [|b rest IH]; simpl; [done|].
  split_and!; [apply hex_digit_not_bar..|done].
Qed.

Lemma bar_split (s1 s2 t1 t2 : string) :
  no_bar s1 → no_bar s2 →
  s1 +:+ String "|" t1 = s2 +:+ String "|" t2 → s1 = s2 ∧ t1 = t2.
Proof.
  revert s2. induction s1 as [|c1 s1 IH]; intros [|c2 s2]; simpl.
  - intros _ _ [= ->]. done.
  - intros _ [Hc _] [= <- _]. done.
  - intros [Hc _] _ [= -> _]. done.
  - intros [_ H1] [_ H2] [= -> Heq]. destruct (IH s2 H1 H2 Heq) as [-> ->]. done.
Qed.

Section MessageProperties.
Context `{!Externals}.

Lemma color_string_no_bar (cs : ColorSet) : no_bar (color_string cs).
Proof.
  unfold color_string, get_hash_string. case_bool_decide.
  - simpl. by repeat split.
  - apply hexdigest_no_bar.
Qed.

(** X9.  The message that is keyed with the master secret determines
    the scope tag and the index: two messages are equal exactly when
    the scope tags are equal and the indexes are equal.  (The hash
    string of a color set is taken to be hexadecimal.) *)
Theorem hmac_message_unambiguous (c1 c2 : ColorSet) (i j : Z) :
  hmac_message c1 i = hmac_message c2 j ↔ color_string c1 = color_string c2 ∧ i = j.
Proof.
  unfold hmac_message. split.
  - intros Heq.
    destruct (bar_split _ _ _ _ (color_string_no_bar c1) (color_string_no_bar c2) Heq)
      as [Htag Hidx].
    split; [done|]. by apply (inj pretty) in Hidx.
  - by intros [-> ->].
Qed.

End MessageProperties.

(** ** Restart after any wallet operations *)

Section WalletRestart.
Context `{!Externals}.

Lemma get_address_rebound (cs : ColorSet) (r : DeterministicAddressRecord) :
  get_address (Deterministic (set_color_set cs r)) = get_address (Deterministic r).
Proof. by destruct r as [? ? ? ? ? [?|] [?|] [?|]]. Qed.

Lemma get_address_reindexed (i : Z) (r : DeterministicAddressRecord) :
  get_address (Deterministic (set_index i r)) = get_address (Deterministic r).
Proof. by destruct r as [? ? ? ? ? [?|] [?|] [?|]]. Qed.

Lemma genesis_records_strings_from mk tn cm (k : nat) (l : list (list string)) :
  get_address <$>
    imap (fun i descs =>
            Deterministic
              (set_color_set (ColorSet_init cm descs)
                 (DeterministicAddressRecord_init mk (ColorSet_init cm [])
                    (Z.of_nat (k + i)) tn))) l
  = (fun i => derive_address mk (ColorSet_init cm []) (Z.of_nat i) tn)
      <$> seq k (length l).
Proof.
  revert k. induction l as [|x l IH]; intros k; [done|].
  rewrite imap_cons. cbn [fmap list_fmap length seq].
  rewrite get_address_rebound, get_address_init, Nat.add_0_r. f_equal.
  rewrite <- (IH (S k)). f_equal. apply imap_ext. intros i descs _. unfold compose.
  by replace (k + S i)%nat with (S k + i)%nat by lia.
Qed.

Lemma genesis_records_strings mk tn cm (l : list (list string)) :
  get_address <$> genesis_records mk tn cm l = genesis_strings mk tn cm (length l).
Proof. apply (genesis_records_strings_from mk tn cm 0). Qed.

Lemma genesis_strings_snoc mk tn cm (n : nat) :
  genesis_strings mk tn cm (S n) =
    genesis_strings mk tn cm n
    ++ [derive_address mk (ColorSet_init cm []) (Z.of_nat n) tn].
Proof. unfold genesis_strings. by rewrite seq_S, fmap_app. Qed.

Section Operations.
Variable cm : ColorMap.
Variable palette : list ColorSet.
Hypothesis palette_wf : Forall (well_formed cm) palette.
Hypothesis palette_canonical :
  ∀ c1 c2, c1 ∈ palette → c2 ∈ palette → equals c1 c2 = true →
           color_string c1 = color_string c2.

Lemma allocate_inv cfg mk tn loose self c :
  wallet_inv cm palette cfg mk tn loose self → c ∈ palette →
  wallet_inv cm palette cfg mk tn loose (get_new_address (AColorSet c) self).2.
Proof.
  intros [Hcfg Htn Hcm Hmk Haddr Hst] Hc.
  unfold get_new_address, increment_max_index_for_color_set.
  rewrite Hcm.
  destruct (increment_states cm (color_set_states self) c) as [[i states']|] eqn:Hinc;
    simpl.
  - destruct (increment_states_records cm palette palette_canonical
                mk tn _ _ _ _ Hst Hc Hinc) as [Hperm Hall].
    split; simpl; try done.
    + by rewrite Hcfg.
    + rewrite fmap_app, Haddr, Hperm, Hmk, Htn. cbn [fmap list_fmap].
      rewrite get_address_init. by rewrite <- !app_assoc.
  - split; simpl; try done.
    + by rewrite Hcfg.
    + rewrite fmap_app, Haddr, Hmk, Htn. unfold records_of_states.
      rewrite bind_app, !fmap_app, <- !app_assoc.
      do 2 apply Permutation_app_head.
      simpl. unfold records_of_state; simpl. unfold get_data.
      by rewrite (palette_rebuild cm palette palette_wf c Hc).
    + apply Forall_app. split; [done|]. constructor; [|done].
      split; simpl; [|lia]. unfold get_data.
      by rewrite (palette_rebuild cm palette palette_wf c Hc).
Qed.

Lemma new_genesis_inv cfg mk tn loose self :
  wallet_inv cm palette cfg mk tn loose self →
  wallet_inv cm palette cfg mk tn loose (get_new_genesis_address self).2.
Proof.
  intros [Hcfg Htn Hcm Hmk Haddr Hst].
  split; try done.
  - simpl. by rewrite Hcfg.
  - cbn [get_new_genesis_address snd]. unfold addresses_add.
    cbn [addresses set_addresses genesis_color_sets update_config set_config
         set_genesis_color_sets color_set_states].
    rewrite fmap_app, Haddr, length_app, Nat.add_1_r, genesis_strings_snoc.
    cbn [fmap list_fmap]. rewrite get_address_reindexed.
    unfold get_genesis_address. rewrite get_address_init.
    cbn [master_key colormap m_testnet update_config set_config set_genesis_color_sets].
    rewrite Hmk, Htn, Hcm. rewrite <- !app_assoc.
    do 2 apply Permutation_app_head. apply Permutation_app_comm.
Qed.

Lemma bind_genesis_inv cfg mk tn loose self ref address cs :
  wallet_inv cm palette cfg mk tn loose self →
  addresses self !! ref = Some (Deterministic address) →
  wallet_inv cm palette cfg mk tn loose (update_genesis_address ref address cs self).2.
Proof.
  intros [Hcfg Htn Hcm Hmk Haddr Hst] Href.
  assert (Hsame : get_address <$>
            <[ref := Deterministic (set_color_set cs address)]> (addresses self)
          = get_address <$> addresses self).
  { rewrite list_fmap_insert, get_address_rebound. apply list_insert_id.
    by rewrite list_lookup_fmap, Href. }
  unfold update_genesis_address. destruct (is_colorless address); [|by split].
  cbn [genesis_color_sets set_addresses index set_color_set].
  destruct (list_setitem (genesis_color_sets self) (index address) (get_data cs))
    as [g|] eqn:Hset; cbn [snd].
  - apply list_setitem_length in Hset.
    split; simpl; try done.
    + by rewrite Hcfg.
    + by rewrite Hsame, Hset.
  - split; simpl; try done. by rewrite Hsame.
Qed.

Lemma apply_op_inv cfg mk tn loose self op :
  wallet_inv cm palette cfg mk tn loose self → allocates_in palette op →
  wallet_inv cm palette cfg mk tn loose (apply_op self op).
Proof.
  intros Hinv Hop. destruct op as [c| |ref cs]; simpl.
  - by apply allocate_inv.
  - by apply new_genesis_inv.
  - destruct (addresses self !! ref) as [[address|r]|] eqn:Href; try done.
    by apply bind_genesis_inv.
Qed.

Lemma after_ops_inv cfg mk tn loose ops self :
  wallet_inv cm palette cfg mk tn loose self → Forall (allocates_in palette) ops →
  wallet_inv cm palette cfg mk tn loose (foldl apply_op self ops).
Proof.
  intros Hinv Hops. revert self Hinv.
  induction Hops as [|op ops Hop _ IH]; intros self Hinv; [done|].
  simpl. apply IH. by apply apply_op_inv.
Qed.

End Operations.

(** X8.  Start from a configuration without wallet state, build the
    manager, and let the wallet allocate addresses (for color sets
    over the manager's color map, among which those with the same ids
    have the same scope tag), create genesis addresses and bind
    records it holds to color sets, in any order and whether or not a
    binding raises.  A manager built afterwards from the configuration
    left behind has the same genesis list, counters and master key,
    and holds exactly the same set of address strings. *)
Theorem restart_after_wallet_operations (cm : ColorMap) (config0 : Config)
    (palette : list ColorSet) (ops : list WalletOp) :
  cfg_dwam config0 = None →
  Forall (well_formed cm) palette →
  (∀ c1 c2, c1 ∈ palette → c2 ∈ palette → equals c1 c2 = true →
            color_string c1 = color_string c2) →
  Forall (allocates_in palette) ops →
  ∃ original fresh,
    DWalletAddressManager_init cm config0 = Ok original
    ∧ DWalletAddressManager_init cm (config (foldl apply_op original ops)) = Ok fresh
    ∧ genesis_color_sets fresh = genesis_color_sets (foldl apply_op original ops)
    ∧ color_set_states fresh = color_set_states (foldl apply_op original ops)
    ∧ master_key fresh = master_key (foldl apply_op original ops)
    ∧ m_testnet fresh = m_testnet (foldl apply_op original ops)
    ∧ address_strings fresh = address_strings (foldl apply_op original ops).
Proof.
  intros Hnone Hwf Hcanon Hops.
  destruct (init_new_wallet_dwam config0) as (Hd & _ & Hk & Ht & Ha).
  set (cfg1 := snd (init_new_wallet config0)) in *.
  set (mk := default urandom_hex (cfg_dw_master_key config0)) in *.
  set (tn := default false (cfg_testnet cfg1)).
  set (loose := loose_records tn cm (default [] (cfg_addresses cfg1))).
  pose proof (init_with_state cm cfg1 _ mk Hd Hk) as Hinit.
  unfold cfg1 at 1 in Hinit.
  rewrite <- (init_fresh_wallet cm config0 Hnone) in Hinit.
  fold tn loose in Hinit. simpl in Hinit.
  eexists. eexists. split; [exact Hinit|].
  match type of Hinit with _ = Ok ?m => set (original := m) end.
  assert (Hinv : wallet_inv cm palette cfg1 mk tn loose original).
  { split; simpl; try done. by rewrite app_nil_r. }
  apply (after_ops_inv cm palette Hwf Hcanon _ _ _ _ ops) in Hinv; [|done].
  destruct Hinv as [Hcfg Htn Hcm Hmk Haddr Hst].
  set (used := foldl apply_op original ops) in *.
  assert (Hdu : cfg_dwam (config used) =
                  Some {| p_genesis_color_sets := genesis_color_sets used;
                          p_color_set_states := color_set_states used |})
    by (by rewrite Hcfg).
  assert (Hku : cfg_dw_master_key (config used) = Some mk) by (by rewrite Hcfg).
  assert (Htu : default false (cfg_testnet (config used)) = tn) by (by rewrite Hcfg).
  assert (Hau : default [] (cfg_addresses (config used))
                = default [] (cfg_addresses cfg1)) by (by rewrite Hcfg).
  rewrite (init_with_state cm (config used) _ mk Hdu Hku), Htu, Hau.
  split; [reflexivity|]. cbn [genesis_color_sets color_set_states master_key m_testnet
    p_genesis_color_sets p_color_set_states].
  split_and!; try done.
  unfold address_strings. cbn [addresses]. apply list_to_set_perm_L.
  rewrite Haddr, !fmap_app, genesis_records_strings. fold loose.
  rewrite (Permutation_app_comm (get_address <$> loose)).
  by rewrite <- !app_assoc.
Qed.

End WalletRestart.

(** ** Binding a genesis address, further *)

Section BindingProperties.
Context `{!Externals}.

Lemma read_rebound (p : Property) (cs : ColorSet) (r : DeterministicAddressRecord) :
  fst (read p (set_color_set cs r)) = fst (read p r).
Proof. by destruct p, r as [? ? ? ? ? [?|] [?|] [?|]]. Qed.

(** X19.  [update_genesis_address] does not touch the keys: whatever
    it returns or raises, the private scalar, the public point and the
    address string read from the address object afterwards are those
    read from it before, and its index and network flag are the
    same. *)
Theorem rebinding_keeps_keys (ref : nat) (address : DeterministicAddressRecord)
    (cs : ColorSet) (self : DWalletAddressManager) (p : Property) :
  let r := update_genesis_address ref address cs self in
  fst (read p r.1.2) = fst (read p address)
  ∧ index r.1.2 = index address
  ∧ testnet r.1.2 = testnet address
  ∧ master_key r.2 = master_key self
  ∧ color_set_states r.2 = color_set_states self.
Proof.
  unfold update_genesis_address. destruct (is_colorless address); [|done].
  cbn [genesis_color_sets set_addresses index set_color_set].
  destruct (list_setitem (genesis_color_sets self) (index address) (get_data cs));
    cbn [fst snd]; by rewrite read_rebound.
Qed.

(** X18.  How [update_genesis_address] treats the index of a colorless
    address, with [n] genesis slots: an index from [0] to [n - 1] sets
    that slot; an index from [-n] to [-1] sets the slot counted from
    the end; any other index raises [IndexError], and then the address
    object (and the member of the collection at [ref]) already carries
    the new color set while [genesis_color_sets] and the configuration
    are as before. *)
Theorem genesis_rebinding_index_bounds (ref : nat)
    (address : DeterministicAddressRecord) (cs : ColorSet)
    (self : DWalletAddressManager) :
  color_id_set (color_set address) = ∅ →
  let n := Z.of_nat (length (genesis_color_sets self)) in
  let r := update_genesis_address ref address cs self in
  (0 ≤ index address < n →
     r.1.1 = Ok tt
     ∧ genesis_color_sets r.2
       = <[Z.to_nat (index address) := get_data cs]> (genesis_color_sets self))
  ∧ (- n ≤ index address < 0 →
     r.1.1 = Ok tt
     ∧ genesis_color_sets r.2
       = <[Z.to_nat (n + index address) := get_data cs]> (genesis_color_sets self))
  ∧ (index address < - n ∨ n ≤ index address →
     r.1.1 = Raise IndexError
     ∧ color_set r.1.2 = cs
     ∧ addresses r.2
       = <[ref := Deterministic (set_color_set cs address)]> (addresses self)
     ∧ genesis_color_sets r.2 = genesis_color_sets self
     ∧ config r.2 = config self).
Proof.
  intros Hc n r. subst r. unfold update_genesis_address, is_colorless.
  rewrite bool_decide_eq_true_2 by done.
  cbn [genesis_color_sets set_addresses index set_color_set].
  unfold list_setitem. fold n. split_and!.
  - intros Hin. rewrite bool_decide_eq_true_2 by done. done.
  - intros Hin. rewrite bool_decide_eq_false_2 by lia.
    rewrite bool_decide_eq_true_2 by done. done.
  - intros Hout. rewrite !bool_decide_eq_false_2 by lia. done.
Qed.

End BindingProperties.

(** ** Backend selection, further *)

Lemma make_interface_testnet_fallback (params : gmap string PyVal) :
  ¬ names (requested params) testnet_backends →
  make_interface true params = Ok (ChromanodeInterface None true).
Proof.
  intros Hout. unfold make_interface. fold (requested params).
  rewrite (bool_decide_eq_false_2 (requested params ∈ _)); [done|].
  intros Hin. apply Hout. unfold names, testnet_backends.
  rewrite !elem_of_cons, elem_of_nil in Hin.
  destruct Hin as [Hin|[Hin|[Hin|[]]]]; eexists; (split; [|exact Hin]); list_member.
Qed.

(** X10.  On testnet the factory never raises: asked for
    [helloblock] it builds a HelloBlock backend, asked for
    [abe_testnet] an Abe backend, and for anything else (no
    ['interface'] entry, [chromanode], another name, a value that is
    not a name) a Chromanode backend, the first and the last with the
    testnet flag set.  On either network, without an ['interface']
    entry it builds a Chromanode backend carrying the model's network
    flag, asked for [helloblock] a HelloBlock backend carrying that
    flag, asked for [abe_testnet] an Abe backend.  Off testnet
    [blockchain.info] gives a BlockchainInfo backend and [electrum] an
    Electrum backend on the server and port of the parameters, or on
    the defaults. *)
Theorem make_interface_choices (model_tn : bool) (params : gmap string PyVal) :
  make_interface true params
  = Ok (if bool_decide (requested params = PStr "helloblock")
        then HelloBlockInterface true
        else if bool_decide (requested params = PStr "abe_testnet")
             then AbeInterface
             else ChromanodeInterface None true)
  ∧ (params !! "interface" = None →
     make_interface model_tn params = Ok (ChromanodeInterface None model_tn))
  ∧ (requested params = PStr "helloblock" →
     make_interface model_tn params = Ok (HelloBlockInterface model_tn))
  ∧ (requested params = PStr "abe_testnet" →
     make_interface model_tn params = Ok AbeInterface)
  ∧ (requested params = PStr "blockchain.info" →
     make_interface false params = Ok BlockchainInfoInterface)
  ∧ (requested params = PStr "electrum" →
     make_interface false params
     = Ok (ElectrumInterface
             (default (PStr DEFAULT_ELECTRUM_SERVER) (params !! "electrum_server"))
             (default (PInt DEFAULT_ELECTRUM_PORT) (params !! "electrum_port")))).
Proof.
  split_and!.
  - destruct (decide (names (requested params) testnet_backends)) as [Hn|Hn].
    + unfold make_interface. fold (requested params).
      destruct Hn as (name & Hin & Heq). rewrite Heq.
      apply list_elem_of_In in Hin. simpl in Hin.
      destruct Hin as [<-|[<-|[<-|[]]]]; reflexivity.
    + rewrite (make_interface_testnet_fallback params Hn).
      rewrite !bool_decide_eq_false_2; [done| |];
        intros Heq; apply Hn; eexists; (split; [|exact Heq]);
        unfold testnet_backends; list_member.
  - intros Hnone. unfold make_interface. rewrite Hnone. by destruct model_tn.
  - intros Hreq. unfold make_interface. fold (requested params). rewrite Hreq.
    by destruct model_tn.
  - intros Hreq. unfold make_interface. fold (requested params). rewrite Hreq.
    by destruct model_tn.
  - intros Hreq. unfold make_interface. fold (requested params). by rewrite Hreq.
  - intros Hreq. unfold make_interface. fold (requested params). by rewrite Hreq.
Qed.

(** ** The synchronous fetcher *)

Section SimpleFetcherProperties.
Context `{!Externals} {Backend TxDb : Type}.
Variable get_utxo : string → Backend → Result (list string) * Backend.
Variable add_tx_by_hash : string → TxDb → bool * TxDb.

Local Abbreviation Simple := (SimpleUTXOFetcher (Backend := Backend) (TxDb := TxDb)).
Local Abbreviation scan_all_loop := (scan_all_loop get_utxo add_tx_by_hash).
Local Abbreviation scan_all_addresses := (scan_all_addresses get_utxo add_tx_by_hash).








End SimpleFetcherProperties.

(** ** The background fetcher, further *)

Lemma count_scans_app (l k : list BackendCall) :
  count_scans (l ++ k) = (count_scans l + count_scans k)%nat.
Proof. unfold count_scans. by rewrite filter_app, length_app. Qed.

Lemma count_scans_scan (a : string) : count_scans [CallGetUtxo a] = 1%nat.
Proof. reflexivity. Qed.

Lemma count_scans_disconnect : count_scans [CallDisconnect] = 0%nat.
Proof. reflexivity. Qed.

Section FetcherInvariants.
Context `{!Externals} {Backend TxDb : Type}.
Variable get_utxo : string → Backend → Result (list string) * Backend.
Variable disconnect : Backend → Backend.
Variable add_tx_by_hash : string → TxDb → bool * TxDb.

Local Abbreviation Fetcher := (AsyncUTXOFetcher (Backend := Backend) (TxDb := TxDb)).

Lemma update_drains (self : Fetcher) :
  let r := update add_tx_by_hash self in
  hash_queue r.2 = []
  ∧ address_list r.2 = get_address <$> get_all_addresses (address_manager (model self))
  ∧ fst <$> ingested r.2 = (fst <$> ingested self) ++ hash_queue self
  ∧ ingested self `prefix_of` ingested r.2
  ∧ same_control self r.2.
Proof.
  unfold update.
  match goal with |- context [drain _ ?q ?a ?s] =>
    pose proof (drain_spec add_tx_by_hash q a s) as Hd end.
  simpl in *. destruct Hd as (_ & H2 & H3 & H4 & _ & H6 & H7).
  split_and!; try done.
  - rewrite H4, fmap_app, fst_zip; [done|]. by rewrite H6.
  - rewrite H4. by apply prefix_app_r.
Qed.

Local Abbreviation scan_address := (scan_address get_utxo).
Local Abbreviation update := (update add_tx_by_hash).
Local Abbreviation worker_step := (worker_step get_utxo add_tx_by_hash).
Local Abbreviation worker_steps := (worker_steps get_utxo add_tx_by_hash).
Local Abbreviation try_block := (try_block get_utxo).
Local Abbreviation sweep := (sweep get_utxo).
Local Abbreviation step := (step get_utxo disconnect add_tx_by_hash).
Local Abbreviation run := (run get_utxo disconnect add_tx_by_hash).

(** *** What one step of the worker does *)

Lemma worker_step_running (pc : WorkerPc) (self : Fetcher) :
  (pc ≠ WStart → running (worker_step pc self).2 = running self)
  ∧ (pc = WStart → running (worker_step pc self).2 = true).
Proof.
  destruct pc as [| | |[|a rest]|a rest|e| | |]; simpl; try (split; done).
  - destruct (running self) eqn:Hr; simpl; rewrite ?Hr; split; done.
  - destruct (running self) eqn:Hr; simpl; rewrite ?Hr; split; done.
  - pose proof (scan_address_frame get_utxo a self) as (_ & Hr & _).
    destruct (scan_address a self) as [[[]|e] s1]; simpl in *; split; done.
  - destruct (update_same_control add_tx_by_hash self) as (_ & _ & Hr & _).
    split; done.
Qed.

(** *** [update()] step by step *)

Lemma model_add_tx_by_hash_frame (txhash : string) (self : Fetcher) :
  let r := model_add_tx_by_hash add_tx_by_hash txhash self in
  hash_queue r.2 = hash_queue self
  ∧ (fst <$> ingested r.2) = (fst <$> ingested self) ++ [txhash]
  ∧ self_draining r.2 = self_draining self ∧ thread r.2 = thread self.
Proof.
  unfold model_add_tx_by_hash.
  destruct (add_tx_by_hash txhash (tx_db (model self))) as [got db]; simpl.
  by rewrite fmap_app.
Qed.

Lemma drain_alone (queue : list string) (any : bool) (self : Fetcher) :
  hash_queue self = queue →
  update_steps add_tx_by_hash (3 * length queue + 1) (UEmpty any) self
  = Some (UReturned (drain add_tx_by_hash queue any self).1,
          (drain add_tx_by_hash queue any self).2).
Proof.
  revert any self. induction queue as [|txhash queue IH]; intros any self Hq.
  - simpl. rewrite Hq. do 2 f_equal. destruct self. simpl in Hq. by rewrite Hq.
  - replace (3 * length (txhash :: queue) + 1)%nat
      with (S (S (S (3 * length queue + 1)))) by (simpl; lia).
    cbn [update_steps update_step]. rewrite Hq.
    cbn [update_steps update_step]. rewrite Hq.
    cbn [update_steps update_step drain].
    destruct (model_add_tx_by_hash_frame txhash (set_hash_queue queue self)) as (Hq' & _).
    destruct (model_add_tx_by_hash add_tx_by_hash txhash (set_hash_queue queue self))
      as [got s1]. cbn [fst snd] in *. by apply IH.
Qed.

(** X20.  A call of [update()] that no other thread interferes with
    returns: with [k] ids queued it takes the refresh, three steps for
    each id (the test of the queue, [get()], the store) and the last
    test of the queue, and has then returned the value and left the
    fetcher that [update], taken as one step, gives. *)
Theorem update_returns_when_alone (self : Fetcher) :
  update_steps add_tx_by_hash (3 * length (hash_queue self) + 2) URefresh self
  = Some (UReturned (update self).1, (update self).2).
Proof.
  replace (3 * length (hash_queue self) + 2)%nat
    with (S (3 * length (hash_queue self) + 1)) by lia.
  cbn [update_steps update_step]. unfold update. by apply drain_alone.
Qed.

Local Abbreviation conc_step := (conc_step get_utxo disconnect add_tx_by_hash).
Local Abbreviation conc_trace := (conc_trace get_utxo disconnect add_tx_by_hash).
Local Abbreviation Conc := (Concurrent (Backend := Backend) (TxDb := TxDb)).

(** With one thread inside [update()], the ids in hand are its own. *)
Lemma in_hand_single (l : list UpdatePc) (k : nat) (pc pc' : UpdatePc) :
  l !! k = Some pc → is_active pc = true →
  (length (filter (fun pc => is_active pc = true) l) ≤ 1)%nat →
  <[k := pc']> l ≫= in_hand = in_hand pc'.
Proof.
  revert k. induction l as [|q l IH]; intros k; [done|].
  assert (Hnone : ∀ l' : list UpdatePc,
            filter (fun pc => is_active pc = true) l' = [] → l' ≫= in_hand = []).
  { clear. induction l' as [|q l' IH']; [done|]. rewrite filter_cons.
    destruct (decide (is_active q = true)) as [Hq|Hq]; [done|].
    intros Hl. rewrite bind_cons, (IH' Hl). by destruct q. }
  destruct k as [|k]; cbn [lookup list_lookup insert list_insert].
  - intros [= ->] Hact. rewrite filter_cons, decide_True by done. cbn [length]. intros Hlen.
    rewrite bind_cons, Hnone, app_nil_r; [done|].
    apply length_zero_iff_nil. lia.
  - intros Hk Hact. rewrite filter_cons.
    destruct (decide (is_active q = true)) as [Hq|Hq]; cbn [length]; intros Hlen.
    + exfalso.
      assert (Hin : pc ∈ filter (fun pc => is_active pc = true) l).
      { apply list_elem_of_filter. split; [done|]. by eapply list_elem_of_lookup_2. }
      destruct (filter (fun pc => is_active pc = true) l); [|simpl in Hlen; lia].
      by apply elem_of_nil in Hin.
    + rewrite bind_cons. destruct q; try done. exact (IH k Hk Hact Hlen).
Qed.

Lemma worker_step_async (pc : WorkerPc) (self : Fetcher) :
  self_draining self = false → pc ≠ WUpdate →
  let r := worker_step pc self in
  self_draining r.2 = false ∧ r.1 ≠ WUpdate
  ∧ ingested r.2 = ingested self
  ∧ hash_queue r.2 =
      hash_queue self ++
        match pc with
        | WScan address _ =>
            match get_utxo address (interface self) with
            | (Ok txids, _) => txids
            | (Raise _, _) => []
            end
        | _ => []
        end.
Proof.
  intros Hsd Hpc.
  destruct pc as [| | |[|a rest]|a rest|e| | |]; simpl; rewrite ?app_nil_r;
    try done.
  - by destruct (running self).
  - unfold after_try. by rewrite Hsd.
  - by destruct (running self).
  - destruct (get_utxo a (interface self)) as [[txids|e] i] eqn:Hget.
    + by rewrite (scan_address_ok get_utxo a self txids i Hget).
    + rewrite (scan_address_raise get_utxo a self e i Hget). simpl.
      by rewrite app_nil_r.
  - unfold after_try. by rewrite Hsd.
Qed.

Lemma conc_step_seen (ev : ConcEvent) (c c' : Conc) :
  async_worker c → one_caller c →
  conc_step ev c = Some c' →
  async_worker c'
  ∧ seen_ids c' =
      seen_ids c ++ match ev with CEv EvWorker => scan_reply get_utxo c | _ => [] end
  ∧ (fst <$> ingested (shared c)) `prefix_of` (fst <$> ingested (shared c')).
Proof.
  intros [Hsd Hth] Hone. destruct ev as [ev| |k]; simpl.
  - destruct ev; try done;
      destruct (step _ (shared c)) as [s'|] eqn:Hstep;
      try done; intros [= <-]; unfold async_worker, seen_ids; cbn [shared callers].
    + apply step_start_inv in Hstep as [_ ->]. simpl. rewrite app_nil_r.
      by split_and!.
    + apply step_worker_inv in Hstep as (pc & Hpc & _ & ->).
      assert (Hne : pc ≠ WUpdate) by congruence.
      destruct (worker_step_async pc (shared c) Hsd Hne) as (H1 & H2 & H3 & H4).
      cbn [self_draining thread set_thread ingested hash_queue].
      rewrite H3, H4. unfold scan_reply. rewrite Hpc.
      split_and!; [done|congruence| |done].
      rewrite <- !app_assoc. do 3 f_equal; by destruct pc.
    + apply step_stop_inv_cases in Hstep
        as [[_ ->]|[[_ ->]|[(_ & _ & ->)|(_ & _ & ->)]]];
        simpl; rewrite app_nil_r; by split_and!.
    + apply step_wallet_inv in Hstep as ->. simpl. rewrite app_nil_r. by split_and!.
  - intros [= <-]. unfold async_worker, seen_ids. cbn [shared callers].
    rewrite bind_app, app_nil_r. simpl. rewrite app_nil_r. by split_and!.
  - destruct (callers c !! k) as [pc|] eqn:Hk; [|done].
    destruct (update_step add_tx_by_hash pc (shared c)) as [[pc' s']|] eqn:Hup; [|done].
    intros [= <-]. unfold async_worker, seen_ids. cbn [shared callers].
    assert (Hact : is_active pc = true) by (by destruct pc).
    assert (Hheld : callers c ≫= in_hand = in_hand pc).
    { rewrite <- (in_hand_single _ k pc pc Hk Hact Hone). by rewrite list_insert_id. }
    rewrite (in_hand_single _ k pc pc' Hk Hact Hone), Hheld, app_nil_r.
    destruct pc as [|any|any|txhash any|any]; simpl in Hup.
    + injection Hup as <- <-. by split_and!.
    + destruct (hash_queue (shared c)) eqn:Hq; injection Hup as <- <-;
        rewrite ?Hq; by split_and!.
    + destruct (hash_queue (shared c)) as [|txhash queue] eqn:Hq; [done|].
      injection Hup as <- <-. simpl. by split_and!.
    + destruct (model_add_tx_by_hash_frame txhash (shared c)) as (H1 & H2 & H3 & H4).
      destruct (model_add_tx_by_hash add_tx_by_hash txhash (shared c)) as [got s1].
      injection Hup as <- <-. cbn [fst snd] in *. rewrite H1, H2, H3, H4.
      split_and!; [done|done| |by apply prefix_app_r].
      simpl. by rewrite <- app_assoc.
    + done.
Qed.

Lemma last_cons_default {A} (l : list A) (x d : A) :
  List.last (x :: l) d = List.last l x.
Proof.
  revert x d. induction l as [|y l IH]; intros x d; [done|].
  change (List.last (x :: y :: l) d) with (List.last (y :: l) d).
  by rewrite !IH.
Qed.

(** X13.  Take an [AsyncUTXOFetcher] and any interleaving of the
    worker, [stop()], the wallet and calls of [update()], the steps of
    the worker and of [update()] coming in any order, in which no two
    threads are inside [update()] at the same time.  The transaction
    ids keep the order in which the backend returned them, and none is
    dropped, fed twice or made up: the ids fed to the store, followed
    by the id [update()] has in hand and the ids still queued, are
    what they were followed by what the backend returned to the
    worker's scans since, in order; and what was fed to the store only
    grows at the end. *)
Theorem queue_order_preserved (evs : list ConcEvent) (c : Conc) (cs : list Conc) :
  async_worker c →
  one_caller c →
  conc_trace evs c = Some cs →
  Forall one_caller cs →
  seen_ids (List.last cs c) = seen_ids c ++ fetched get_utxo disconnect add_tx_by_hash evs c
  ∧ (fst <$> ingested (shared c)) `prefix_of` (fst <$> ingested (shared (List.last cs c))).
Proof.
  revert c cs. induction evs as [|ev evs IH]; intros c cs Hasync Hone.
  - intros [= <-] _. simpl. by rewrite app_nil_r.
  - change (conc_trace (ev :: evs) c)
      with (match conc_step ev c with
            | Some c =>
                match conc_trace evs c with
                | Some cs => Some (c :: cs)
                | None => None
                end
            | None => None
            end).
    cbn [fetched].
    destruct (conc_step ev c) as [c1|] eqn:Hstep; [|done].
    destruct (conc_trace evs c1) as [cs1|] eqn:Htrace; [|done].
    intros [= <-] Hall. apply Forall_cons in Hall as [Hone1 Hall].
    destruct (conc_step_seen ev c c1 Hasync Hone Hstep) as (Hasync1 & Hseen & Hpre).
    destruct (IH c1 cs1 Hasync1 Hone1 Htrace Hall) as [IH1 IH2].
    rewrite last_cons_default, IH1, Hseen. split.
    + rewrite <- !app_assoc. f_equal. by destruct ev as [[]| |].
    + by etrans.
Qed.

(** *** Without [update()] *)

Lemma worker_step_idle (pc : WorkerPc) (self : Fetcher) :
  idle_pc pc → self_draining self = false → address_list self = [] →
  idle_pc (worker_step pc self).1
  ∧ ((worker_step pc self).2 = self ∨ (worker_step pc self).2 = set_running true self).
Proof.
  intros Hidle Hsd Haddr.
  destruct pc as [| | |[|a rest]|a rest|e| | |]; simpl in *; try done.
  - split; [done|by right].
  - destruct (running self); split; try done; by left.
  - rewrite Haddr. split; [done|by left].
  - unfold after_try. rewrite Hsd. split; [done|by left].
  - split; [done|by left].
  - split; [done|by left].
Qed.

(** The state of an [AsyncUTXOFetcher] on which [update()] was never
    called. *)
Record never_updated (db : TxDb) (s : Fetcher) : Prop := {
  nu_class : self_draining s = false;
  nu_addresses : address_list s = [];
  nu_queue : hash_queue s = [];
  nu_ingested : ingested s = [];
  nu_store : tx_db (model s) = db;
  nu_scans : count_scans (backend_calls s) = 0%nat;
  nu_thread : ∀ pc, thread s = Some pc → idle_pc pc
}.

Lemma step_never_updated (db : TxDb) (ev : Event) (s s' : Fetcher) :
  (∀ s0, ev = EvUpdate → never_updated db s0 → False) →
  never_updated db s → step ev s = Some s' → never_updated db s'.
Proof.
  intros Hev [Hc Ha Hq Hi Hdb Hs Ht]. destruct ev.
  - intros [_ ->]%step_start_inv. split; simpl; try done. by intros pc [= <-].
  - intros (pc & Hpc & _ & ->)%step_worker_inv.
    destruct (worker_step_idle pc s (Ht pc Hpc) Hc Ha) as [Hidle [-> | ->]];
      split; simpl; try done; by intros pc' [= <-].
  - intros [[_ ->]|[[_ ->]|[(_ & _ & ->)|(_ & _ & ->)]]]%step_stop_inv_cases;
      split; simpl; try done.
    by rewrite count_scans_app, Hs, count_scans_disconnect.
  - intros _. exfalso. by eapply (Hev s).
  - intros ->%step_wallet_inv. by split.
Qed.

(** X12.  The worker of an [AsyncUTXOFetcher] never refreshes the
    address list itself.  As long as nobody calls [update()], whatever
    else happens, the address list stays empty, the worker scans no
    address, the queue stays empty and nothing reaches the store. *)
Theorem async_worker_idle_until_update (connect : Interface → Backend)
    (m : Model (TxDb := TxDb)) (params : gmap string PyVal)
    (self0 s : Fetcher) (evs : list Event) :
  AsyncUTXOFetcher_init false connect m params = Ok self0 →
  Forall (fun ev => is_worker_event ev = true ∨ ev = EvStart ∨ ev = EvStop
                    ∨ ∃ wam, ev = EvWallet wam) evs →
  run evs self0 = Some s →
  address_list s = []
  ∧ count_scans (backend_calls s) = 0%nat
  ∧ hash_queue s = []
  ∧ ingested s = []
  ∧ tx_db (model s) = tx_db m.
Proof.
  intros Hinit Hevs Hrun.
  assert (Hinv : never_updated (tx_db m) self0).
  { unfold AsyncUTXOFetcher_init in Hinit.
    destruct (make_interface (model_testnet m) params); [|done].
    injection Hinit as <-. by split. }
  assert (Hend : never_updated (tx_db m) s).
  { clear Hinit. revert self0 Hinv Hrun.
    induction Hevs as [|ev evs Hev _ IH]; intros s0 Hinv; simpl.
    - by intros [= <-].
    - destruct (step ev s0) as [s1|] eqn:Hstep; [|done].
      apply IH. apply (step_never_updated _ ev s0); [|done..].
      intros _ -> _. destruct Hev as [Hev|[Hev|[Hev|[wam Hev]]]]; done. }
  by destruct Hend.
Qed.

(** *** [stop()] while the worker has not yet set [running] *)

Lemma step_stuck (ev : Event) (s s' : Fetcher) :
  running s = true →
  stopper s = SLocked ∨ stopper s = SSignalled →
  (∃ pc, thread s = Some pc ∧ pc ≠ WExited) →
  step ev s = Some s' →
  running s' = true
  ∧ (stopper s' = SLocked ∨ stopper s' = SSignalled)
  ∧ ∃ pc, thread s' = Some pc ∧ pc ≠ WExited.
Proof.
  intros Hrun Hstop (pc & Hpc & Hne). destruct ev.
  - intros [Hnone _]%step_start_inv. congruence.
  - intros (pc' & Hpc' & _ & ->)%step_worker_inv.
    assert (pc' = pc) as -> by congruence.
    destruct (worker_step_running pc s) as [Hr1 Hr2].
    pose proof (worker_step_frame get_utxo add_tx_by_hash pc s) as (Hs & _ & _ & Hex).
    assert (Hrun' : running (worker_step pc s).2 = true).
    { destruct pc; try (rewrite Hr1; done). by apply Hr2. }
    simpl. split_and!; [done|by rewrite Hs|].
    eexists. split; [done|]. intros Hexit.
    specialize (Hex Hexit Hne). congruence.
  - intros [[Hs _]|[[_ ->]|[(_ & Hn & _)|(_ & Hn & _)]]]%step_stop_inv_cases.
    + destruct Hstop; congruence.
    + simpl. split_and!; [done|by right|by exists pc].
    + congruence.
    + congruence.
  - intros ->%step_update_inv.
    destruct (update_same_control add_tx_by_hash s) as (_ & _ & Hr & _ & Ht & _ & _ & Hs & _).
    rewrite Hr, Hs, Ht. split_and!; [done..|]. by exists pc.
  - intros ->%step_wallet_inv. simpl. split_and!; [done..|]. by exists pc.
Qed.

(** X14.  [stop()] clears [running] in its with-block, and the worker
    sets it in its first step.  If the first step comes later, the flag
    is set again: in a state where [stop()] is past its with-block, the
    worker has not returned and [running] is set, whatever happens
    afterwards [running] stays set, the worker does not return, and
    [stop()] does not return: it waits in [join]. *)
Theorem stop_overtaken_by_start_never_returns (s : Fetcher) (evs : list Event)
    (s' : Fetcher) :
  running s = true →
  stopper s = SLocked ∨ stopper s = SSignalled →
  (∃ pc, thread s = Some pc ∧ pc ≠ WExited) →
  run evs s = Some s' →
  running s' = true
  ∧ stopper s' ≠ SReturned
  ∧ thread s' ≠ Some WExited.
Proof.
  revert s. induction evs as [|ev evs IH]; intros s Hrun Hstop Hthread; simpl.
  - intros [= <-]. destruct Hthread as (pc & Hpc & Hne).
    split_and!; [done| |congruence]. destruct Hstop; congruence.
  - destruct (step ev s) as [s1|] eqn:Hstep; [|done].
    destruct (step_stuck _ _ _ Hrun Hstop Hthread Hstep) as (H1 & H2 & H3).
    by apply IH.
Qed.

(** *** After [running] was cleared *)

Lemma worker_step_cancel (pc : WorkerPc) (self : Fetcher) :
  running self = false → pc ≠ WStart → pc ≠ WExited →
  (worker_step pc self).1 ≠ WStart
  ∧ (count_scans (backend_calls (worker_step pc self).2)
     + scan_in_flight (worker_step pc self).1
     ≤ count_scans (backend_calls self) + scan_in_flight pc)%nat
  ∧ (S (steps_left (worker_step pc self).1) ≤ steps_left pc)%nat.
Proof.
  intros Hrun Hs He.
  destruct pc as [| | |[|a rest]|a rest|e| | |]; try done.
  all: try (simpl; rewrite ?Hrun; simpl; split_and!; (done || lia)).
  all: try (simpl; unfold after_try;
            destruct (self_draining self); simpl; split_and!; (done || lia)).
  - pose proof (scan_address_frame get_utxo a self) as (Hc & _).
    simpl. destruct (scan_address a self) as [[[]|e] s1]; simpl in *;
      rewrite Hc, count_scans_app, count_scans_scan; simpl; split_and!; (done || lia).
  - destruct (update_same_control add_tx_by_hash self) as (_ & _ & _ & _ & _ & Hc & _).
    simpl. rewrite Hc. split_and!; [done|lia|lia].
Qed.

Lemma step_cancel (ev : Event) (s s' : Fetcher) (pc : WorkerPc) :
  running s = false → stopper s ≠ SIdle → thread s = Some pc → pc ≠ WStart →
  step ev s = Some s' →
  running s' = false ∧ stopper s' ≠ SIdle
  ∧ ∃ pc', thread s' = Some pc' ∧ pc' ≠ WStart
      ∧ (count_scans (backend_calls s') + scan_in_flight pc'
         ≤ count_scans (backend_calls s) + scan_in_flight pc)%nat
      ∧ (worker_events [ev] + steps_left pc' ≤ steps_left pc)%nat.
Proof.
  intros Hrun Hstop Hpc Hns. destruct ev.
  - intros [Hnone _]%step_start_inv. congruence.
  - intros (pc' & Hpc' & Hne & ->)%step_worker_inv.
    assert (pc' = pc) as -> by congruence.
    destruct (worker_step_cancel pc s Hrun Hns Hne) as (H1 & H2 & H3).
    destruct (worker_step_running pc s) as [Hr _].
    pose proof (worker_step_frame get_utxo add_tx_by_hash pc s) as (Hs & _).
    simpl. split_and!; [by rewrite Hr|by rewrite Hs|].
    eexists. split_and!; [done|done|done|]. unfold worker_events. simpl. lia.
  - intros [[Hs _]|[[_ ->]|[(_ & Hn & _)|(_ & _ & ->)]]]%step_stop_inv_cases.
    + done.
    + simpl. split_and!; [done..|]. exists pc. unfold worker_events. simpl.
      split_and!; [done|done|lia|lia].
    + congruence.
    + simpl. split_and!; [done..|]. exists pc. unfold worker_events. simpl.
      split_and!; [done|done|lia|lia].
  - intros ->%step_update_inv.
    destruct (update_same_control add_tx_by_hash s)
      as (_ & _ & Hr & _ & Ht & Hc & _ & Hs & _).
    rewrite Hr, Hs, Ht, Hc. split_and!; [done..|]. exists pc.
    unfold worker_events. simpl. split_and!; [done|done|lia|lia].
  - intros ->%step_wallet_inv. simpl. split_and!; [done..|]. exists pc.
    unfold worker_events. simpl. split_and!; [done|done|lia|lia].
Qed.

(** X15.  Once the worker has taken its first step and [stop()] has
    cleared [running], whatever happens afterwards the worker makes at
    most one more call on the backend, and only if it had already
    passed the check before [scan_address]; it takes at most five more
    steps before [thread_loop] returns.  [running] stays cleared. *)
Theorem cancellation_is_bounded (s s' : Fetcher) (pc : WorkerPc) (evs : list Event) :
  running s = false → stopper s ≠ SIdle → thread s = Some pc → pc ≠ WStart →
  run evs s = Some s' →
  running s' = false
  ∧ (count_scans (backend_calls s')
     ≤ count_scans (backend_calls s) + scan_in_flight pc)%nat
  ∧ (worker_events evs ≤ steps_left pc)%nat
  ∧ (worker_events evs ≤ 5)%nat.
Proof.
  intros Hrun Hstop Hpc Hns Hevs.
  assert (Hmain : running s' = false
    ∧ (count_scans (backend_calls s')
       ≤ count_scans (backend_calls s) + scan_in_flight pc)%nat
    ∧ (worker_events evs ≤ steps_left pc)%nat).
  { revert s pc Hrun Hstop Hpc Hns Hevs.
    induction evs as [|ev evs IH]; intros s pc Hrun Hstop Hpc Hns; simpl.
    - intros [= <-]. unfold worker_events. simpl. split_and!; [done|lia|lia].
    - destruct (step ev s) as [s1|] eqn:Hstep; [|done].
      destruct (step_cancel _ _ _ _ Hrun Hstop Hpc Hns Hstep)
        as (Hr1 & Hs1 & pc1 & Hpc1 & Hns1 & Hc1 & Hw1).
      intros Hrest. destruct (IH s1 pc1 Hr1 Hs1 Hpc1 Hns1 Hrest) as (H1 & H2 & H3).
      split_and!; [done| |].
      + assert (scan_in_flight pc1 ≤ 1)%nat by (by destruct pc1; simpl; lia). lia.
      + change (ev :: evs) with ([ev] ++ evs). unfold worker_events in *.
        rewrite filter_app, length_app. lia. }
  destruct Hmain as (H1 & H2 & H3). split_and!; [done..|].
  assert (steps_left pc ≤ 5)%nat by (destruct pc; simpl; (done || lia)). lia.
Qed.

(** *** One turn of the self-draining loop *)

Lemma try_block_gathers (rest : list string) (self : Fetcher) :
  running self = true →
  let r := try_block rest self in
  r.1 = after_try self
  ∧ hash_queue r.2 = hash_queue self ++ gathered get_utxo rest (interface self)
  ∧ ingested r.2 = ingested self ∧ model r.2 = model self
  ∧ running r.2 = true.
Proof.
  revert self. induction rest as [|a rest IH]; intros self Hrun.
  - simpl. by rewrite app_nil_r.
  - rewrite try_block_cons, Hrun. cbn [gathered].
    destruct (get_utxo a (interface self)) as [[txids|e] i] eqn:Hget.
    + rewrite (scan_address_ok get_utxo a self txids i Hget).
      destruct (IH (after_scans [a] txids i self) Hrun) as (H1 & H2 & H3 & H4 & H5).
      split_and!; try done. rewrite H2. simpl. by rewrite app_assoc.
    + rewrite (scan_address_raise get_utxo a self e i Hget). simpl.
      by rewrite !app_nil_r.
Qed.

(** X16.  In [ServerUTXOFetcher], one turn of the loop that [stop()]
    does not interrupt reaches the wait with the queue drained: the
    ids that were queued before, then the ids the backend returned in
    this sweep (for the addresses up to the first one it raised on),
    have been fed to the store in this order, after the ids fed
    earlier and with nothing else; and the address list is the
    wallet's current one for the next sweep.  (The store answers every
    id it is fed: [update()] is called outside the [try] statement.) *)
Theorem server_loop_drains (self : Fetcher) :
  self_draining self = true →
  running self = true →
  let found := gathered get_utxo (address_list self) (interface self) in
  ∃ n s',
    worker_steps n WSnapshot self = (WWait, s')
    ∧ hash_queue s' = []
    ∧ fst <$> ingested s' = (fst <$> ingested self) ++ hash_queue self ++ found
    ∧ tx_db (model s')
      = (store_answers add_tx_by_hash (hash_queue self ++ found) (tx_db (model self))).2
    ∧ address_list s'
      = get_address <$> get_all_addresses (address_manager (model self))
    ∧ running s' = true.
Proof.
  intros Hsd Hrun found.
  destruct (sweep_steps get_utxo add_tx_by_hash self) as [n Hn].
  destruct (try_block_gathers (address_list self) self Hrun) as (Hpc & Hq & Hi & Hm & Hr).
  fold found in Hq. set (swept := (try_block (address_list self) self).2) in *.
  destruct (update_drains swept) as (U1 & U2 & U3 & _ & U5).
  exists (n + 1)%nat, (update swept).2.
  split_and!.
  - rewrite worker_steps_app, Hn.
    change (sweep self) with (try_block (address_list self) self).
    rewrite Hpc. unfold after_try. rewrite Hsd.
    by rewrite worker_steps_S.
  - done.
  - by rewrite U3, Hi, Hq.
  - unfold update.
    match goal with |- context [drain _ ?q ?a ?s] =>
      pose proof (drain_spec add_tx_by_hash q a s) as Hd end.
    simpl in Hd. destruct Hd as (_ & _ & _ & _ & H5 & _).
    cbn [hash_queue set_address_list] in *. rewrite H5, Hq. by rewrite Hm.
  - by rewrite U2, Hm.
  - destruct U5 as (_ & _ & Hr' & _). by rewrite Hr'.
Qed.

(** *** Only [stop()] ends the worker *)

Lemma step_alive (ev : Event) (s s' : Fetcher) :
  ev ≠ EvStop →
  running s = true →
  (∃ pc, thread s = Some pc ∧ pc ≠ WExited) →
  step ev s = Some s' →
  running s' = true ∧ ∃ pc, thread s' = Some pc ∧ pc ≠ WExited.
Proof.
  intros Hev Hrun (pc & Hpc & Hne). destruct ev; [| |done| |].
  - intros [Hnone _]%step_start_inv. congruence.
  - intros (pc' & Hpc' & _ & ->)%step_worker_inv.
    assert (pc' = pc) as -> by congruence.
    destruct (worker_step_running pc s) as [Hr1 Hr2].
    pose proof (worker_step_frame get_utxo add_tx_by_hash pc s) as (_ & _ & _ & Hex).
    assert (Hrun' : running (worker_step pc s).2 = true).
    { destruct pc; try (rewrite Hr1; done). by apply Hr2. }
    simpl. split; [done|]. eexists. split; [done|]. intros Hexit.
    specialize (Hex Hexit Hne). congruence.
  - intros ->%step_update_inv.
    destruct (update_same_control add_tx_by_hash s) as (_ & _ & Hr & _ & Ht & _).
    rewrite Hr, Ht. split; [done|]. by exists pc.
  - intros ->%step_wallet_inv. simpl. split; [done|]. by exists pc.
Qed.

(** X17.  Nothing but [stop()] ends the worker: while [running] is set
    and as long as no step of [stop()] happens, the worker thread does
    not return, whatever the backend answers or raises and whatever
    [update()] and the wallet do; [running] stays set. *)
Theorem worker_survives_backend_failures (s s' : Fetcher) (evs : list Event) :
  running s = true →
  (∃ pc, thread s = Some pc ∧ pc ≠ WExited) →
  Forall (fun ev => ev ≠ EvStop) evs →
  run evs s = Some s' →
  running s' = true ∧ ∃ pc, thread s' = Some pc ∧ pc ≠ WExited.
Proof.
  intros Hrun Hthread Hevs. revert s Hrun Hthread.
  induction Hevs as [|ev evs Hev _ IH]; intros s Hrun Hthread; simpl.
  - by intros [= <-].
  - destruct (step ev s) as [s1|] eqn:Hstep; [|done].
    destruct (step_alive _ _ _ Hev Hrun Hthread Hstep) as [H1 H2].
    by apply IH.
Qed.

End FetcherInvariants.

(** * Worked instances

    The theorems applied to the stand-ins. *)

#[local] Existing Instance mock_externals.

Lemma genesis_scope_isolation_witness :
  color_string colorless = "genesis block"
  ∧ color_string colors_a = get_hash_string colors_a.
Proof.
  split.
  - by apply (genesis_scope_isolation mock_colormap []).
  - apply (genesis_scope_isolation mock_colormap ["a"]).
    by vm_compute.
Defined.

Lemma allocation_counter_monotonicity_witness :
  let before := after_allocations [colors_bb; colors_a] mock_wallet in
  index (fst (get_new_address (AColorSet colors_a) before)) = 1.
Proof.
  apply (allocation_counter_monotonicity
           mock_wallet colors_a colors_a [colors_bb; colors_a]).
  - intros st Hin. by apply elem_of_nil in Hin.
  - by repeat constructor.
  - done.
  - by vm_compute.
Defined.

Lemma restart_round_trip_witness :
  ∃ original fresh,
    DWalletAddressManager_init mock_colormap empty_config = Ok original
    ∧ DWalletAddressManager_init mock_colormap
        (config (after_allocations [colors_a; colors_bb; colors_a] original)) = Ok fresh
    ∧ address_strings fresh =
        address_strings (after_allocations [colors_a; colors_bb; colors_a] original).
Proof.
  destruct (restart_round_trip mock_colormap empty_config [colors_a; colors_bb]
              [colors_a; colors_bb; colors_a])
    as (original & fresh & H1 & H2 & _ & _ & _ & H3).
  - reflexivity.
  - by repeat constructor.
  - intros c1 c2 H1 H2 Heq.
    apply list_elem_of_In in H1, H2. simpl in H1, H2.
    destruct H1 as [<-|[<-|[]]], H2 as [<-|[<-|[]]];
      first [reflexivity | by vm_compute in Heq].
  - repeat constructor; apply list_elem_of_In; simpl; tauto.
  - by exists original, fresh.
Defined.

Lemma colorless_query_allocates_witness :
  get_addresses_for_color_set colorless mock_wallet = []
  ∧ get_change_address colorless mock_wallet = get_some_address colorless mock_wallet.
Proof.
  destruct (colorless_query_allocates colorless mock_wallet) as (H1 & _ & H3 & _).
  - reflexivity.
  - by split.
Defined.

Lemma genesis_rebinding_precondition_witness :
  (update_genesis_address 0 colored_0 colors_bb mock_wallet).1.1 = Raise AssertionError
  ∧ color_set (update_genesis_address 0 genesis_0 colors_a mock_wallet).1.2 = colors_a.
Proof.
  split.
  - apply (genesis_rebinding_precondition 0 colored_0 colors_bb mock_wallet).
    by vm_compute.
  - destruct (genesis_rebinding_precondition 0 genesis_0 colors_a mock_wallet)
      as (_ & _ & Hok).
    destruct Hok as (Hcs & _); [reflexivity|]. exact Hcs.
Defined.

Lemma backend_factory_behavior_witness :
  make_interface false {[ "interface" := PStr "dogecoin" ]}
    = Raise (Exception "Unknown service for UTXOFetcher!")
  ∧ make_interface true {[ "interface" := PStr "electrum" ]}
    = Ok (ChromanodeInterface None true).
Proof.
  split.
  - apply (backend_factory_behavior (Backend := nat) (TxDb := list string)
             false {[ "interface" := PStr "dogecoin" ]}); [reflexivity|].
    intros (name & Hin & Heq). apply list_elem_of_In in Hin. simpl in Hin.
    vm_compute in Heq.
    destruct Hin as [<-|[<-|[<-|[<-|[<-|[]]]]]]; discriminate.
  - apply (backend_factory_behavior (Backend := nat) (TxDb := list string)
             true {[ "interface" := PStr "electrum" ]}); [reflexivity|].
    by left.
Defined.

(** C3, as claimed, fails: in a sweep over [a1, a2] with a backend that
    raises on [a1], the error is printed and the worker reaches the
    wait, but [a2] has not been scanned: the only call on the backend
    is the one for [a1]. *)
Lemma sweep_skips_addresses_after_failure :
  running mock_fetcher = true
  ∧ address_list mock_fetcher = ["a1"; "a2"]
  ∧ (sweep mock_get_utxo mock_fetcher).1 = WWait
  ∧ worker_steps mock_get_utxo mock_add_tx_by_hash 4 WSnapshot mock_fetcher
    = sweep mock_get_utxo mock_fetcher
  ∧ printed (sweep mock_get_utxo mock_fetcher).2 = [BackendError "timeout"]
  ∧ backend_calls (sweep mock_get_utxo mock_fetcher).2 = [CallGetUtxo "a1"]
  ∧ CallGetUtxo "a2" ∉ backend_calls (sweep mock_get_utxo mock_fetcher).2.
Proof.
  split_and!; try reflexivity.
  intros Hin. apply list_elem_of_In in Hin. vm_compute in Hin.
  by destruct Hin as [Hin|[]].
Qed.

Lemma sweep_fault_containment_witness :
  ∃ s1 s2,
    worker_steps mock_get_utxo mock_add_tx_by_hash 6 WSnapshot mixed_fetcher = (WWait, s1)
    ∧ backend_calls s1 = [CallGetUtxo "a2"; CallGetUtxo "a1"]
    ∧ printed s1 = [BackendError "timeout"]
    ∧ hash_queue s1 = ["tx-a2"]
    ∧ worker_steps mock_get_utxo mock_add_tx_by_hash 3 WWait s2
      = (WFor ["a2"; "a1"; "a3"], s2).
Proof.
  destruct (sweep_fault_containment mock_get_utxo mock_disconnect mock_add_tx_by_hash
              mixed_fetcher
              ["a2"] ["a3"] "a1" ["tx-a2"] 1%nat 2%nat (BackendError "timeout"))
    as (s1 & s2 & H1 & H2 & H3 & H4 & _ & _ & _ & _ & _ & _ & H11 & H12 & _ & _);
    [reflexivity..|].
  exists s1, s2. rewrite H12 in H11. by split_and!.
Defined.

Lemma stop_safety_witness :
  run mock_get_utxo mock_disconnect mock_add_tx_by_hash stop_scenario built_fetcher
    = Some stopped_fetcher
  ∧ ∀ later self',
      run mock_get_utxo mock_disconnect mock_add_tx_by_hash later stopped_fetcher
        = Some self' →
      backend_calls self' = [CallDisconnect].
Proof.
  split; [reflexivity|].
  apply (stop_safety mock_get_utxo mock_disconnect mock_add_tx_by_hash
           false (fun _ => 0%nat) mock_model ∅ built_fetcher stopped_fetcher
           stop_scenario); reflexivity.
Defined.

(** ** The definitions at work *)

(** Three queued ids, the third a repeat of the first: the store
    reports two of them as new and [update()] returns true. *)
Example update_reports_new :
  let r := update mock_add_tx_by_hash (set_hash_queue ["t1"; "t2"; "t1"] mock_fetcher) in
  r.1 = true
  ∧ ingested r.2 = [("t1", true); ("t2", true); ("t1", false)]
  ∧ hash_queue r.2 = [].
Proof. by vm_compute. Qed.

(** A second [update()] with the same id queued again reports nothing
    new. *)
Example update_reports_nothing_new :
  let once := (update mock_add_tx_by_hash (set_hash_queue ["t1"] mock_fetcher)).2 in
  (update mock_add_tx_by_hash (set_hash_queue ["t1"] once)).1 = false.
Proof. by vm_compute. Qed.

(** Allocations for two color sets, interleaved: each color set counts
    on its own. *)
Example allocation_indexes :
  let m1 := (get_new_address (AColorSet colors_a) mock_wallet).2 in
  let m2 := (get_new_address (AColorSet colors_bb) m1).2 in
  let m3 := (get_new_address (AColorSet colors_a) m2).2 in
  index (get_new_address (AColorSet colors_a) mock_wallet).1 = 0
  ∧ index (get_new_address (AColorSet colors_bb) m1).1 = 0
  ∧ index (get_new_address (AColorSet colors_a) m2).1 = 1
  ∧ color_set_states m3 =
      [{| st_color_set := ["a"]; max_index := 1 |};
       {| st_color_set := ["bb"]; max_index := 0 |}].
Proof. by vm_compute. Qed.

(** The message that is keyed with the master secret. *)
Example hmac_message_genesis : hmac_message colorless 3 = "genesis block|3".
Proof. reflexivity. Qed.

(** A sweep without failures scans the whole snapshot and queues what
    the backend returned. *)
Example sweep_without_failure :
  let r := sweep mock_get_utxo (set_address_list ["a2"; "a3"] mock_fetcher) in
  r.1 = WWait
  ∧ backend_calls r.2 = [CallGetUtxo "a2"; CallGetUtxo "a3"]
  ∧ hash_queue r.2 = ["tx-a2"; "tx-a3"]
  ∧ printed r.2 = [].
Proof. by vm_compute. Qed.

(** [stop()] before the worker was started: [join] raises. *)
Example stop_without_thread :
  stopper <$> run mock_get_utxo mock_disconnect mock_add_tx_by_hash
                [EvStop; EvStop; EvStop] built_fetcher
  = Some SRaised.
Proof. reflexivity. Qed.

(** [stop()] cannot return while the worker is in its loop. *)
Example join_blocks :
  run mock_get_utxo mock_disconnect mock_add_tx_by_hash
    [EvStart; EvWorker; EvStop; EvStop; EvStop] built_fetcher = None.
Proof. reflexivity. Qed.

(** When [stop()] runs its with-block before the worker has taken its
    first step, the worker sets [running] again afterwards. *)
Example stop_before_first_step :
  running <$> run mock_get_utxo mock_disconnect mock_add_tx_by_hash
                [EvStart; EvStop; EvStop; EvWorker] built_fetcher
  = Some true.
Proof. reflexivity. Qed.

(** ** The further properties applied *)

Lemma colorless_allocation_is_genesis_address_witness :
  get_address (Deterministic (get_new_address (AColorSet colorless) mock_wallet).1)
  = get_address (Deterministic (get_genesis_address 0 mock_wallet)).
Proof.
  apply (colorless_allocation_is_genesis_address mock_wallet colorless).
  reflexivity.
Defined.

Lemma counters_stay_distinct_and_grow_witness :
  NoDup (counter_ids mock_colormap
           (color_set_states
              (after_allocations [colors_a; colors_bb; colors_a] mock_wallet))).
Proof.
  destruct (counters_stay_distinct_and_grow mock_wallet [colors_a; colors_bb; colors_a])
    as [Hnd _].
  - by repeat constructor.
  - constructor.
  - exact Hnd.
Defined.

Lemma restart_after_wallet_operations_witness :
  ∃ original fresh,
    DWalletAddressManager_init mock_colormap empty_config = Ok original
    ∧ DWalletAddressManager_init mock_colormap
        (config (foldl apply_op original wallet_session)) = Ok fresh
    ∧ address_strings fresh = address_strings (foldl apply_op original wallet_session).
Proof.
  destruct (restart_after_wallet_operations mock_colormap empty_config
              [colors_a; colors_bb] wallet_session)
    as (original & fresh & H1 & H2 & _ & _ & _ & _ & H3).
  - reflexivity.
  - by repeat constructor.
  - intros c1 c2 H1 H2 Heq.
    apply list_elem_of_In in H1, H2. simpl in H1, H2.
    destruct H1 as [<-|[<-|[]]], H2 as [<-|[<-|[]]];
      first [reflexivity | by vm_compute in Heq].
  - repeat constructor; apply list_elem_of_In; simpl; tauto.
  - by exists original, fresh.
Defined.

Lemma async_worker_idle_until_update_witness :
  match run mock_get_utxo mock_disconnect mock_add_tx_by_hash
          idle_scenario built_fetcher with
  | Some s => count_scans (backend_calls s) = 0%nat ∧ ingested s = []
  | None => False
  end.
Proof.
  destruct (run mock_get_utxo mock_disconnect mock_add_tx_by_hash
              idle_scenario built_fetcher) as [s|] eqn:Hrun.
  - destruct (async_worker_idle_until_update mock_get_utxo mock_disconnect
                mock_add_tx_by_hash (fun _ => 0%nat) mock_model ∅ built_fetcher s
                idle_scenario)
      as (_ & H2 & _ & H4 & _); [reflexivity| |exact Hrun|done].
    repeat (constructor;
            [first [by left | by right; left | by right; right; left
                   | right; right; right; by eexists]|]).
    constructor.
  - by vm_compute in Hrun.
Defined.

Lemma queue_order_preserved_witness :
  match conc_trace mock_get_utxo mock_disconnect mock_add_tx_by_hash
          polling_scenario polled with
  | Some cs =>
      seen_ids (List.last cs polled) = ["tx-old"; "tx-a2"; "tx-a3"]
      ∧ fst <$> ingested (shared (List.last cs polled)) = ["tx-old"; "tx-a2"]
  | None => False
  end.
Proof.
  destruct (conc_trace mock_get_utxo mock_disconnect mock_add_tx_by_hash
              polling_scenario polled) as [cs|] eqn:Htrace.
  - destruct (queue_order_preserved mock_get_utxo mock_disconnect mock_add_tx_by_hash
                polling_scenario polled cs) as [Hseen _].
    + by split.
    + unfold one_caller. simpl. lia.
    + exact Htrace.
    + vm_compute in Htrace. injection Htrace as <-.
      repeat (constructor; [unfold one_caller; simpl; lia|]). constructor.
    + split; [by rewrite Hseen|].
      vm_compute in Htrace. by injection Htrace as <-.
  - by vm_compute in Htrace.
Defined.

Lemma stop_overtaken_by_start_never_returns_witness :
  run mock_get_utxo mock_disconnect mock_add_tx_by_hash
    [EvStart; EvStop; EvWorker] built_fetcher = Some overtaken_fetcher
  ∧ match run mock_get_utxo mock_disconnect mock_add_tx_by_hash
            overtaken_scenario overtaken_fetcher with
    | Some s' => stopper s' ≠ SReturned ∧ thread s' ≠ Some WExited
    | None => False
    end.
Proof.
  split; [reflexivity|].
  destruct (run mock_get_utxo mock_disconnect mock_add_tx_by_hash
              overtaken_scenario overtaken_fetcher)
    as [s'|] eqn:Hrun.
  - destruct (stop_overtaken_by_start_never_returns mock_get_utxo mock_disconnect
                mock_add_tx_by_hash overtaken_fetcher overtaken_scenario s')
      as (_ & H2 & H3);
      [reflexivity|by left|by exists WLoop|exact Hrun|done].
  - by vm_compute in Hrun.
Defined.

Lemma cancellation_is_bounded_witness :
  match run mock_get_utxo mock_disconnect mock_add_tx_by_hash
          cancel_scenario cancelled_fetcher with
  | Some s' => (count_scans (backend_calls s') ≤ 1)%nat ∧ running s' = false
  | None => False
  end.
Proof.
  destruct (run mock_get_utxo mock_disconnect mock_add_tx_by_hash
              cancel_scenario cancelled_fetcher)
    as [s'|] eqn:Hrun.
  - destruct (cancellation_is_bounded mock_get_utxo mock_disconnect mock_add_tx_by_hash
                cancelled_fetcher s' (WScan "a2" []) cancel_scenario)
      as (H1 & H2 & _);
      [reflexivity|done|reflexivity|done|exact Hrun|done].
  - by vm_compute in Hrun.
Defined.

Lemma server_loop_drains_witness :
  ∃ n s',
    worker_steps mock_get_utxo mock_add_tx_by_hash n WSnapshot mock_server = (WWait, s')
    ∧ hash_queue s' = [].
Proof.
  destruct (server_loop_drains mock_get_utxo mock_add_tx_by_hash mock_server)
    as (n & s' & H1 & H2 & _); [reflexivity..|].
  by exists n, s'.
Defined.

(** ** More of the definitions at work *)

(** In a new wallet the first genesis address and the first address
    allocated for the colorless color set have the same address
    string. *)
Example genesis_and_colorless_collide :
  let w := (DWalletAddressManager_init mock_colormap empty_config) in
  match w with
  | Ok w =>
      let g := get_new_genesis_address w in
      let c := get_new_address (AColorSet colorless) g.2 in
      index g.1 = 0 ∧ index c.1 = 0
      ∧ get_address (Deterministic g.1) = get_address (Deterministic c.1)
  | Raise _ => False
  end.
Proof. by vm_compute. Qed.

(** The self-draining loop on [mock_server]: the queued id and the two
    found ones reach the store in order. *)
Example server_turn :
  let r := worker_steps mock_get_utxo mock_add_tx_by_hash 7 WSnapshot mock_server in
  r.1 = WWait
  ∧ fst <$> ingested r.2 = ["tx-old"; "tx-a2"; "tx-a3"]
  ∧ hash_queue r.2 = [].
Proof. by vm_compute. Qed.

(** After cancellation during a scan, the worker returns after four
    more steps and [join] goes through. *)
Example cancelled_worker_returns :
  (fun s => (stopper s, thread s, count_scans (backend_calls s))) <$>
    run mock_get_utxo mock_disconnect mock_add_tx_by_hash
      cancel_scenario cancelled_fetcher
  = Some (SReturned, Some WExited, 1%nat).
Proof. reflexivity. Qed.

Lemma worker_survives_backend_failures_witness :
  match run mock_get_utxo mock_disconnect mock_add_tx_by_hash
          failing_scenario mock_fetcher with
  | Some s' => running s' = true ∧ printed s' = [BackendError "timeout"]
  | None => False
  end.
Proof.
  destruct (run mock_get_utxo mock_disconnect mock_add_tx_by_hash
              failing_scenario mock_fetcher) as [s'|] eqn:Hrun.
  - destruct (worker_survives_backend_failures mock_get_utxo mock_disconnect
                mock_add_tx_by_hash mock_fetcher s' failing_scenario) as [H1 _];
      [reflexivity|by exists WSnapshot|by repeat constructor|exact Hrun|].
    split; [done|]. vm_compute in Hrun. by injection Hrun as <-.
  - by vm_compute in Hrun.
Defined.

Lemma genesis_rebinding_index_bounds_witness :
  (update_genesis_address 0 stray_5 colors_a mock_wallet).1.1 = Raise IndexError
  ∧ genesis_color_sets (update_genesis_address 0 stray_5 colors_a mock_wallet).2 = [[]].
Proof.
  destruct (genesis_rebinding_index_bounds 0 stray_5 colors_a mock_wallet)
    as (_ & _ & Hout); [reflexivity|].
  destruct Hout as (H1 & _ & _ & H4 & _); [right; simpl; lia|].
  by split.
Defined.

(** The second construction of a manager on a configuration that is a
    plain dict: the entry of ['addresses'] holds a [ColorSet] object by
    then. *)
Example second_construction_on_same_dict :
  let first :=
    DWalletAddressManager_init_with mock_colormap empty_config
      (config_get_addresses empty_config) in
  match first.1.1 with
  | Ok self =>
      first.2 = [{| ap_address_data := "5Kloose"; ap_color_set := ColorSetObject colors_a;
                    ap_testnet := Some false |}]
      ∧ (DWalletAddressManager_init_with mock_colormap (config self) first.2).1.1
        = Raise TypeError
  | Raise _ => False
  end.
Proof. by vm_compute. Qed.

(** Two threads inside [update()]: the one that took the first id
    feeds it last. *)
Example two_callers_feed_out_of_order :
  (fun cs => fst <$> ingested (shared (List.last cs raced))) <$>
    conc_trace mock_get_utxo mock_disconnect mock_add_tx_by_hash race_scenario raced
  = Some ["y"; "x"].
Proof. reflexivity. Qed.

(** Two threads inside [update()] with one id queued: both see the
    queue filled, one takes the id, and the other cannot move: its
    [get()] blocks. *)
Example caller_blocks_in_get :
  let c := {| shared := set_hash_queue ["x"] (shared raced); callers := [] |} in
  (callers <$> (conc_trace mock_get_utxo mock_disconnect mock_add_tx_by_hash
                  [CCall; CCall; CCaller 0; CCaller 0; CCaller 1; CCaller 1; CCaller 1] c
                ≫= last))
  = Some [UGet false; UFeed "x" false]
  ∧ conc_trace mock_get_utxo mock_disconnect mock_add_tx_by_hash
      [CCall; CCall; CCaller 0; CCaller 0; CCaller 1; CCaller 1; CCaller 1; CCaller 0] c
    = None.
Proof. by vm_compute. Qed.

(** The synchronous fetcher on a wallet holding [a2], [a1], [a3]: the
    exception for [a1] is the result and [a3] is not asked about. *)
Example simple_scan_stops_at_failure :
  let wam := set_addresses
               [Loose (LooseAddressRecord_init "a2" colors_a false);
                Loose (LooseAddressRecord_init "a1" colors_a false);
                Loose (LooseAddressRecord_init "a3" colors_a false)] mock_wallet in
  let self :=
    {| s_interface := 0%nat;
       s_model := {| model_testnet := false; address_manager := wam; tx_db := [] |};
       s_backend_calls := []; s_ingested := [] |} in
  let r := scan_all_addresses mock_get_utxo mock_add_tx_by_hash self in
  r.1 = Raise (BackendError "timeout")
  ∧ s_backend_calls r.2 = [CallGetUtxo "a2"; CallGetUtxo "a1"]
  ∧ s_ingested r.2 = [("tx-a2", true)].
Proof. by vm_compute. Qed.

(** The sweep of [mixed_fetcher] with [update()] and the wallet in
    between: the same calls, the same report, and the worker at the
    wait. *)
Example sweep_among_updates :
  (fun s => (thread s, backend_calls s, printed s, fst <$> ingested s)) <$>
    run mock_get_utxo mock_disconnect mock_add_tx_by_hash
      [EvWorker; EvWorker; EvUpdate; EvWorker; EvUpdate; EvWorker; EvWorker;
       EvWallet mock_wallet; EvWorker]
      mixed_fetcher
  = Some (Some WWait, [CallGetUtxo "a2"; CallGetUtxo "a1"],
          [BackendError "timeout"], ["tx-a2"]).
Proof. reflexivity. Qed.
